(** * vscode-markdown-notes: reference resolution, occurrence search and
      note creation

    A shallow embedding of [src/extension.ts] (the single-file extension) and
    of the later split into [MarkdownDefinitionProvider] and [NoteWorkspace],
    with the properties of the specification stated over it.

    Conventions of the model.
    - A JavaScript string is the list of its code units, [list ascii]; the
      code units are those below 256.  [\s] is the white space of that range
      (TAB, LF, VT, FF, CR, SPACE, NBSP), [\w] is [A-Za-z0-9_], and the case
      mappings act on the ASCII letters.
    - A regular expression of the sources is the function that the call
      using it computes (split, replace, match), written by recursion on the
      string.
    - Paths follow the POSIX flavour of Node's [path] module.
    - The file system is a finite map from absolute paths to file contents;
      [existsSync] is membership, [writeFileSync] is insertion.
    - Every call into the host (corpus enumeration, file system, messages,
      editor) is recorded in a trace next to the file system, so that "this
      call did not happen" is a statement about the trace.
    - [async] functions run to their end in one piece, except the
      initializer of the tag list, whose suspension and callbacks are turns of
      an event loop. *)

From stdpp Require Import gmap strings list.
From Stdlib Require Import Ascii.
From Equations Require Import Equations.

Local Open Scope char_scope.

(** String literals: [lit "abc"] is the list of the three code units. *)
Definition lit (s : string) : list ascii := String.list_ascii_of_string s.

(* ===================================================================== *)
(** * JavaScript string primitives *)
(* ===================================================================== *)

Module JS.

Definition code (c : ascii) : N := N_of_ascii c.

(** [\s] (and the set removed by [trim]). *)
Definition is_space (c : ascii) : bool :=
  let n := code c in
  ((9 <=? n) && (n <=? 13) || (n =? 32) || (n =? 160))%N.

Definition is_upper (c : ascii) : bool := ((65 <=? code c) && (code c <=? 90))%N.
Definition is_lower (c : ascii) : bool := ((97 <=? code c) && (code c <=? 122))%N.
Definition is_digit (c : ascii) : bool := ((48 <=? code c) && (code c <=? 57))%N.

(** [\w]; [\W] is its complement. *)
Definition is_word (c : ascii) : bool :=
  is_upper c || is_lower c || is_digit c || (code c =? 95)%N.
Definition is_nonword (c : ascii) : bool := negb (is_word c).
(** [\S] *)
Definition not_space (c : ascii) : bool := negb (is_space c).

Definition toLowerCase1 (c : ascii) : ascii :=
  if is_upper c then ascii_of_N (code c + 32) else c.
Definition toUpperCase1 (c : ascii) : ascii :=
  if is_lower c then ascii_of_N (code c - 32) else c.

Definition toLowerCase (s : list ascii) : list ascii := toLowerCase1 <$> s.
Definition toUpperCase (s : list ascii) : list ascii := toUpperCase1 <$> s.

Definition ascii_eqb (a b : ascii) : bool := bool_decide (a = b).
Definition str_eqb (a b : list ascii) : bool := bool_decide (a = b).

Fixpoint take_while (p : ascii → bool) (l : list ascii) : list ascii :=
  match l with
  | c :: l' => if p c then c :: take_while p l' else []
  | [] => []
  end.

Fixpoint drop_while (p : ascii → bool) (l : list ascii) : list ascii :=
  match l with
  | c :: l' => if p c then drop_while p l' else l
  | [] => []
  end.

(** [s.replace(/p*$/, '')]: the maximal trailing run of [p] is removed. *)
Fixpoint strip_trailing (p : ascii → bool) (l : list ascii) : list ascii :=
  match l with
  | [] => []
  | c :: l' =>
      match strip_trailing p l' with
      | [] => if p c then [] else [c]
      | r => c :: r
      end
  end.

Definition trimLeft (s : list ascii) : list ascii := drop_while is_space s.
Definition trim (s : list ascii) : list ascii :=
  strip_trailing is_space (drop_while is_space s).

(** [s.split(/p/)] for a one-character class [p]: always at least one piece. *)
Fixpoint split_on (p : ascii → bool) (l : list ascii) : list (list ascii) :=
  match l with
  | [] => [[]]
  | c :: l' =>
      if p c then [] :: split_on p l'
      else match split_on p l' with
           | h :: t => (c :: h) :: t
           | [] => [[c]]
           end
  end.

(** [ws.join(sep)]. *)
Fixpoint join (sep : list ascii) (ws : list (list ascii)) : list ascii :=
  match ws with
  | [] => []
  | [w] => w
  | w :: ws' => w ++ sep ++ join sep ws'
  end.

(** [s.replace(/p+/g, sep)]: every maximal run of [p] becomes one [sep]. *)
Fixpoint replace_runs_go (p : ascii → bool) (sep : list ascii)
    (in_run : bool) (l : list ascii) : list ascii :=
  match l with
  | [] => []
  | c :: l' =>
      if p c then
        if in_run then replace_runs_go p sep true l'
        else sep ++ replace_runs_go p sep true l'
      else c :: replace_runs_go p sep false l'
  end.
Definition replace_runs p sep l := replace_runs_go p sep false l.

(** [s.replace(/p+/, sep)] without the [g] flag: the first run only. *)
Fixpoint replace_first_run (p : ascii → bool) (sep : list ascii)
    (l : list ascii) : list ascii :=
  match l with
  | [] => []
  | c :: l' =>
      if p c then sep ++ drop_while p l' else c :: replace_first_run p sep l'
  end.

(** [s.replace(/p/g, r)] for a one-character class, [r] depending on nothing. *)
Definition remove_all (p : ascii → bool) (l : list ascii) : list ascii :=
  filter (λ c, p c = false) l.
Definition replace_each (p : ascii → bool) (r : ascii) (l : list ascii) :=
  (λ c, if p c then r else c) <$> l.

Fixpoint is_prefix (pre l : list ascii) : bool :=
  match pre, l with
  | [], _ => true
  | a :: pre', b :: l' => ascii_eqb a b && is_prefix pre' l'
  | _ :: _, [] => false
  end.

(** Case-insensitive test that [l] is exactly ["." ++ e] for one [e] of
    [exts] (the extensions are given in lower case). *)
Definition is_dot_ext (exts : list (list ascii)) (l : list ascii) : bool :=
  match l with
  | "." :: e => bool_decide (toLowerCase e ∈ exts)
  | _ => false
  end.

(** Does [/\.(e1|e2|..)$/i] match: the first position whose whole suffix
    is a dot and an extension.  Returns what precedes the match. *)
Fixpoint match_ext_end (exts : list (list ascii)) (l : list ascii)
    : option (list ascii) :=
  if is_dot_ext exts l then Some []
  else match l with
       | [] => None
       | c :: l' => cons c <$> match_ext_end exts l'
       end.

(** The same test without the letter-case flag: [/\.(e1|e2|..)$/]. *)
Definition is_dot_ext_cs (exts : list (list ascii)) (l : list ascii) : bool :=
  match l with
  | "." :: e => bool_decide (e ∈ exts)
  | _ => false
  end.
Fixpoint match_ext_end_cs (exts : list (list ascii)) (l : list ascii)
    : option (list ascii) :=
  if is_dot_ext_cs exts l then Some []
  else match l with
       | [] => None
       | c :: l' => cons c <$> match_ext_end_cs exts l'
       end.

(** Does [/\.(e1|e2|..)/i] (no anchor) match somewhere in [l]. *)
Fixpoint match_ext_anywhere (exts : list (list ascii)) (l : list ascii) : bool :=
  match l with
  | [] => false
  | c :: l' =>
      (ascii_eqb c "." &&
         existsb (λ e, is_prefix e (toLowerCase l')) exts)
      || match_ext_anywhere exts l'
  end.

End JS.

(* ===================================================================== *)
(** * Node's [path] module, POSIX flavour *)
(* ===================================================================== *)

Module Path.
Import JS.

Definition is_slash (c : ascii) : bool := ascii_eqb c "/".
Definition not_slash (c : ascii) : bool := negb (is_slash c).

(** [basename(p)]: trailing slashes are dropped, then the last segment. *)
Definition basename (p : list ascii) : list ascii :=
  List.last (split_on is_slash (strip_trailing is_slash p)) [].

(** [dirname(p)], following the backwards scan of the library. *)
Definition dirname (p : list ascii) : list ascii :=
  match p with
  | [] => lit "."
  | c0 :: t =>
      let hasRoot := is_slash c0 in
      let r1 := drop_while is_slash (rev t) in
      match drop_while not_slash r1 with
      | [] => if hasRoot then lit "/" else lit "."
      | _ :: r3 =>
          if hasRoot && bool_decide (r3 = []) then lit "//"
          else c0 :: rev r3
      end
  end.

(** One step of [normalizeString] on the stack of kept segments
    (innermost first). *)
Definition push_segment (allowAboveRoot : bool)
    (stack : list (list ascii)) (seg : list ascii) : list (list ascii) :=
  if bool_decide (seg = []) || bool_decide (seg = lit ".") then stack
  else if bool_decide (seg = lit "..") then
    match stack with
    | top :: rest =>
        if bool_decide (top = lit "..") then
          (if allowAboveRoot then seg :: stack else stack)
        else rest
    | [] => if allowAboveRoot then [seg] else []
    end
  else seg :: stack.

Definition normalizeString (p : list ascii) (allowAboveRoot : bool) : list ascii :=
  join (lit "/")
    (rev (foldl (push_segment allowAboveRoot) [] (split_on is_slash p))).

Definition is_absolute (p : list ascii) : bool :=
  match p with c :: _ => is_slash c | [] => false end.

Definition normalize (p : list ascii) : list ascii :=
  match p with
  | [] => lit "."
  | _ =>
      let isAbsolute := is_absolute p in
      let trailingSeparator :=
        match List.last p "a" with c => is_slash c end in
      let q := normalizeString p (negb isAbsolute) in
      match q with
      | [] => if isAbsolute then lit "/"
              else if trailingSeparator then lit "./" else lit "."
      | _ =>
          let q' := if trailingSeparator then q ++ lit "/" else q in
          if isAbsolute then "/" :: q' else q'
      end
  end.

(** [join(a, b, ...)]: the non-empty arguments, glued by ["/"], normalized. *)
Definition join (args : list (list ascii)) : list ascii :=
  match filter (λ a, a ≠ []) args with
  | [] => lit "."
  | parts => normalize (JS.join (lit "/") parts)
  end.

(** The right-to-left scan of [resolve]: arguments are prepended until an
    absolute one has been taken; [todo] is the argument list reversed, with
    the working directory last. *)
Fixpoint resolve_scan (todo : list (list ascii)) (resolvedPath : list ascii)
    : list ascii * bool :=
  match todo with
  | [] => (resolvedPath, false)
  | p :: todo' =>
      if bool_decide (p = []) then resolve_scan todo' resolvedPath
      else
        let resolvedPath' := p ++ lit "/" ++ resolvedPath in
        if is_absolute p then (resolvedPath', true)
        else resolve_scan todo' resolvedPath'
  end.

(** [resolve(a, b, ...)] in the working directory [cwd]. *)
Definition resolve (cwd : list ascii) (args : list (list ascii)) : list ascii :=
  let '(resolvedPath, resolvedAbsolute) := resolve_scan (rev args ++ [cwd]) [] in
  let q := normalizeString resolvedPath (negb resolvedAbsolute) in
  if resolvedAbsolute then "/" :: q
  else match q with [] => lit "." | _ => q end.

(** The segments of a resolved path: ["/a/b"] has [a] and [b], ["/"] none. *)
Definition segments (p : list ascii) : list (list ascii) :=
  filter (λ seg, seg ≠ []) (split_on is_slash p).

Fixpoint drop_common (a b : list (list ascii))
    : list (list ascii) * list (list ascii) :=
  match a, b with
  | x :: a', y :: b' =>
      if bool_decide (x = y) then drop_common a' b' else (a, b)
  | _, _ => (a, b)
  end.

(** [relative(from, to)]: both are resolved, the directories they share are
    dropped, and every directory left of [from] is climbed by one [".."]. *)
Definition relative (cwd from to : list ascii) : list ascii :=
  if bool_decide (from = to) then []
  else
    let from' := resolve cwd [from] in
    let to' := resolve cwd [to] in
    if bool_decide (from' = to') then []
    else
      let '(up, down) := drop_common (segments from') (segments to') in
      JS.join (lit "/") (((λ _, lit "..") <$> up) ++ down).

End Path.

(* ===================================================================== *)
(** * The host's data: positions, ranges, resources, documents *)
(* ===================================================================== *)

Record Position := mkPosition { line : nat; character : nat }.
Record Range := mkRange { range_start : Position; range_end : Position }.
Record Uri := mkUri { scheme : list ascii; path : list ascii }.
Record Location := mkLocation { loc_uri : Uri; loc_range : Range }.
Record TextDocument := mkTextDocument { uri : Uri; doc_lines : list (list ascii) }.

Global Instance Position_eq_dec : EqDecision Position.
Proof. solve_decision. Defined.
Global Instance Range_eq_dec : EqDecision Range.
Proof. solve_decision. Defined.
Global Instance Uri_eq_dec : EqDecision Uri.
Proof. solve_decision. Defined.
Global Instance Location_eq_dec : EqDecision Location.
Proof. solve_decision. Defined.

(** [Uri.file(p)], and [fsPath], which on POSIX is the path itself. *)
Definition Uri_file (p : list ascii) : Uri := mkUri (lit "file") p.
Definition fsPath (u : Uri) : list ascii := path u.
(** [new Location(uri, position)]: the empty range at the position. *)
Definition Location_at (u : Uri) (p : Position) : Location :=
  mkLocation u (mkRange p p).

(** The two patterns handed to the host's word lookup. *)
Inductive WordPattern := TAG_REGEX___NO_ANCHORS | WIKI_LINK_REGEX.

(** The editor capabilities the scanner relies on. *)
Class Host := {
  getWordRangeAtPosition : TextDocument → Position → WordPattern → option Range;
  getText : TextDocument → Range → list ascii
}.

(** The character classes of the patterns: [[\w\-\_]] and
    [[\w\.\-\_\/\\]]. *)
Definition tag_char (c : ascii) : bool := JS.is_word c || JS.ascii_eqb c "-".
Definition link_char (c : ascii) : bool :=
  JS.is_word c || JS.ascii_eqb c "." || JS.ascii_eqb c "-" || JS.ascii_eqb c "/"
  || JS.ascii_eqb c "\".

(** ** A line-based host

    The word lookup scans the line of the position from the left for the
    matches of the pattern and returns the match that contains the column;
    [getText] reads the characters of a range. *)
Module LineHost.
Import JS.

(** Length of the match of the pattern at the head of [l], if there is one. *)
Definition match_here (rx : WordPattern) (l : list ascii) : option nat :=
  match rx, l with
  | TAG_REGEX___NO_ANCHORS, "#" :: r =>
      match take_while tag_char r with
      | [] => None
      | m => Some (1 + length m)
      end
  | WIKI_LINK_REGEX, "[" :: "[" :: r =>
      match take_while link_char r with
      | [] => None
      | m => Some (2 + length m)
      end
  | _, _ => None
  end.

(** Scan from column [idx]; [skip] characters still belong to a match that
    did not contain the column. *)
Fixpoint find_word (rx : WordPattern) (col : nat) (skip idx : nat)
    (l : list ascii) : option (nat * nat) :=
  match l with
  | [] => None
  | _ :: l' =>
      match skip with
      | S k => find_word rx col k (S idx) l'
      | O =>
          match match_here rx l with
          | Some n =>
              if bool_decide (idx ≤ col ≤ idx + n) then Some (idx, idx + n)
              else find_word rx col (n - 1) (S idx) l'
          | None => find_word rx col 0 (S idx) l'
          end
      end
  end.

Definition wordRange (doc : TextDocument) (pos : Position) (rx : WordPattern)
    : option Range :=
  l ← doc_lines doc !! line pos;
  '(s, e) ← find_word rx (character pos) 0 0 l;
  Some (mkRange (mkPosition (line pos) s) (mkPosition (line pos) e)).

Definition text (doc : TextDocument) (r : Range) : list ascii :=
  let s := range_start r in
  let e := range_end r in
  let ls := doc_lines doc in
  if bool_decide (line s = line e) then
    take (character e - character s) (drop (character s) (ls !!! line s))
  else
    drop (character s) (ls !!! line s)
    ++ mjoin ((λ l, [ascii_of_nat 10] ++ l)
                <$> take (line e - line s - 1) (drop (S (line s)) ls))
    ++ [ascii_of_nat 10] ++ take (character e) (ls !!! line e).

Definition host : Host :=
  {| getWordRangeAtPosition := wordRange; getText := text |}.
End LineHost.

(* ===================================================================== *)
(** * Host calls and their trace *)
(* ===================================================================== *)

(** What the surroundings provide and the code only reads. *)
Record Env := mkEnv {
  workspaceFiles : list Uri;              (* what workspace.findFiles yields *)
  workspaceFolder : option (list ascii);  (* workspaceFolders[0].uri.path *)
  activeTextEditor : option (list ascii); (* activeTextEditor?.document.fileName *)
  editorAfterShow : bool;                 (* an editor is active once a file is shown *)
  cwd : list ascii                        (* process.cwd() *)
}.

Inductive Event :=
| EvFindFiles
| EvExistsSync (p : list ascii)
| EvReadFile (p : list ascii)
| EvWriteFileSync (p data : list ascii)
| EvShowWarningMessage (msg : list ascii)
| EvShowErrorMessage (msg : list ascii)
| EvShowTextDocument (u : Uri)
| EvSelectLine (n : nat).

Record World := mkWorld {
  fs : gmap (list ascii) (list ascii);
  trace : list Event
}.

Definition M (A : Type) : Type := World → A * World.

Global Instance M_ret : MRet M := λ A a w, (a, w).
Global Instance M_bind : MBind M :=
  λ A B k m w, let '(a, w') := m w in k a w'.

Definition emit (e : Event) : M unit :=
  λ w, (tt, mkWorld (fs w) (trace w ++ [e])).

Section HostCalls.
Context (env : Env).

(** The file-system key of a path: relative paths live in [cwd]. *)
Definition fs_key (p : list ascii) : list ascii := Path.resolve (cwd env) [p].

Definition findFiles : M (list Uri) :=
  emit EvFindFiles;; mret (workspaceFiles env).

Definition existsSync (p : list ascii) : M bool :=
  λ w, (bool_decide (is_Some (fs w !! fs_key p)),
        mkWorld (fs w) (trace w ++ [EvExistsSync p])).

(** [fsp.readFile(p)]: [None] when the read fails. *)
Definition readFile (p : list ascii) : M (option (list ascii)) :=
  λ w, (fs w !! fs_key p, mkWorld (fs w) (trace w ++ [EvReadFile p])).

Definition writeFileSync (p data : list ascii) : M unit :=
  λ w, (tt, mkWorld (<[fs_key p := data]> (fs w))
                    (trace w ++ [EvWriteFileSync p data])).

Definition showWarningMessage (msg : list ascii) : M unit :=
  emit (EvShowWarningMessage msg).
Definition showErrorMessage (msg : list ascii) : M unit :=
  emit (EvShowErrorMessage msg).
Definition showTextDocument (u : Uri) : M unit :=
  emit (EvShowTextDocument u).
End HostCalls.

Fixpoint mapM_host {A B} (f : A → M B) (l : list A) : M (list B) :=
  match l with
  | [] => mret []
  | a :: l' => b ← f a; bs ← mapM_host f l'; mret (b :: bs)
  end.

(* ===================================================================== *)
(** * [src/extension.ts]: the single-file extension *)
(* ===================================================================== *)

Module Extension.
Import JS.

(** The two settings read through [getConfiguration]. *)
Record Settings := mkSettings {
  workspaceFilenameConvention : option (list ascii);
  createNoteOnGoToDefinitionWhenMissing : bool
}.

Definition useUniqueFilenames (cfg : Settings) : bool :=
  bool_decide (workspaceFilenameConvention cfg = Some (lit "uniqueFilenames")).
Definition useRelativePaths (cfg : Settings) : bool :=
  bool_decide (workspaceFilenameConvention cfg = Some (lit "relativePaths")).

(** [/\.(md|markdown)/i] and [/\.(md|markdown)$/i] *)
Definition note_exts : list (list ascii) := [lit "md"; lit "markdown"].
Definition is_note_file (f : Uri) : bool :=
  str_eqb (scheme f) (lit "file") && match_ext_anywhere note_exts (path f).

(** [TAG_REGEX_WITH_ANCHORS]: the whole word is [#] and tag characters. *)
Definition is_tag_word (w : list ascii) : bool :=
  match w with
  | "#" :: r => negb (str_eqb r []) && forallb tag_char r
  | _ => false
  end.

(** ** WorkspaceTagList *)

Record TagList := mkTagList {
  TAG_WORD_SET : gset (list ascii);
  STARTED_INIT : bool;
  COMPLETED_INIT : bool
}.

Definition TagList_initial : TagList := mkTagList ∅ false false.

(** [initSet] up to its [await]: the guard and the flag. The result says
    whether the call went on to ask for the workspace files. *)
Definition initSet_enter (st : TagList) : TagList * bool :=
  if STARTED_INIT st then (st, false)
  else (mkTagList (TAG_WORD_SET st) true (COMPLETED_INIT st), true).

(** [initSet] after the [await]: a read is issued for every note file and
    the completion flag is set. The result lists the paths being read. *)
Definition initSet_resume (files : list Uri) (st : TagList)
    : TagList * list (list ascii) :=
  (mkTagList (TAG_WORD_SET st) (STARTED_INIT st) true,
   path <$> filter (λ f, is_note_file f = true) files).

(** The callback of one [readFile]: [data] is absent when the read failed. *)
Definition initSet_onRead (data : option (list ascii)) (st : TagList) : TagList :=
  let allWords := split_on is_space (default [] data) in
  let tags := filter (λ w, is_tag_word w = true) allWords in
  mkTagList (foldl (λ set t, set ∪ {[ t ]}) (TAG_WORD_SET st) tags)
            (STARTED_INIT st) (COMPLETED_INIT st).

(** The labels offered to a tag token by the completion provider. *)
Definition tagCompletionLabels (st : TagList) : list (list ascii) :=
  elements (TAG_WORD_SET st).

(** The process around the tag list: suspended [initSet] calls and reads
    in flight, interleaved by the event loop with everything else. *)
Record Proc := mkProc {
  tagList : TagList;
  awaiting : nat;
  reading : list (list ascii)
}.
Definition Proc_initial : Proc := mkProc TagList_initial 0 [].

Inductive Op :=
| OpInitSet
| OpFilesFound (files : list Uri)
| OpFileRead (p : list ascii) (data : option (list ascii))
| OpTagCompletion
| OpOther.

Fixpoint remove_first (p : list ascii) (l : list (list ascii))
    : option (list (list ascii)) :=
  match l with
  | [] => None
  | q :: l' => if str_eqb p q then Some l' else cons q <$> remove_first p l'
  end.

(** One turn of the event loop; [None] when the turn cannot happen. *)
Definition step (op : Op) (s : Proc) : option Proc :=
  match op with
  | OpInitSet =>
      let '(st, asked) := initSet_enter (tagList s) in
      Some (mkProc st (if asked then S (awaiting s) else awaiting s) (reading s))
  | OpFilesFound files =>
      match awaiting s with
      | O => None
      | S k =>
          let '(st, paths) := initSet_resume files (tagList s) in
          Some (mkProc st k (reading s ++ paths))
      end
  | OpFileRead p data =>
      rest ← remove_first p (reading s);
      Some (mkProc (initSet_onRead data (tagList s)) (awaiting s) rest)
  | OpTagCompletion | OpOther => Some s
  end.

Fixpoint run (ops : list Op) (s : Proc) : option Proc :=
  match ops with
  | [] => Some s
  | op :: ops' => s' ← step op s; run ops' s'
  end.

Definition is_scan (op : Op) : bool :=
  match op with OpFilesFound _ => true | _ => false end.

(** ** ReferenceSearch *)

(** [line.split(/(\S+\s+)/)]: the first match of a word followed by white
    space, as (text before, match, text after). *)
Definition first_word_space (l : list ascii)
    : option (list ascii * list ascii * list ascii) :=
  let pre := take_while is_space l in
  let r1 := drop_while is_space l in
  let w := take_while not_space r1 in
  let r2 := drop_while not_space r1 in
  let ws := take_while is_space r2 in
  let r3 := drop_while is_space r2 in
  if str_eqb w [] || str_eqb ws [] then None
  else Some (pre, w ++ ws, r3).

Equations? split_word_space (l : list ascii) : list (list ascii)
    by wf (length l) lt :=
  split_word_space l with Logic.inspect (first_word_space l) := {
    | exist _ None _ => [l]
    | exist _ (Some (pre, m, rest)) _ => pre :: m :: split_word_space rest }.
Proof.
  clear split_word_space.
  unfold first_word_space in e.
  destruct (_ || _) eqn:Hc; [done|]. inversion e; subst; clear e.
  apply orb_false_elim in Hc as [Hw _].
  assert (Hdrop : ∀ p k, length (drop_while p k) ≤ length k).
  { intros p k. induction k as [|c k IH]; simpl; [lia|].
    destruct (p c); simpl; lia. }
  assert (Hlt : length (drop_while not_space (drop_while is_space l)) < length l).
  { pose proof (Hdrop is_space l) as H1.
    destruct (drop_while is_space l) as [|c k] eqn:Hk; [done|].
    simpl in Hw |- *. destruct (not_space c); [|done].
    pose proof (Hdrop not_space k). simpl in H1. lia. }
  pose proof (Hdrop is_space (drop_while not_space (drop_while is_space l))). lia.
Qed.

(** The inner [words.map] of [rangesForWordInDocumentData]: [charNum] is
    the column at which the next piece starts. *)
Fixpoint rangesForWordInWords (queryWord : list ascii) (lineNum charNum : nat)
    (words : list (list ascii)) : list Range :=
  match words with
  | [] => []
  | word :: words' =>
      let spacesBefore := length word - length (trimLeft word) in
      let trimmed := trim word in
      (if str_eqb trimmed queryWord then
         [mkRange (mkPosition lineNum (charNum + spacesBefore))
                  (mkPosition lineNum (charNum + spacesBefore + length trimmed))]
       else [])
      ++ rangesForWordInWords queryWord lineNum (charNum + length word) words'
  end.

Definition rangesForWordInLine (queryWord : list ascii) (lineNum : nat)
    (line : list ascii) : list Range :=
  rangesForWordInWords queryWord lineNum 0 (split_word_space line).

(** [/[\r\n]/] *)
Definition is_line_break (c : ascii) : bool :=
  ascii_eqb c (ascii_of_nat 13) || ascii_eqb c (ascii_of_nat 10).

Definition rangesForWordInDocumentData (queryWord : option (list ascii))
    (data : list ascii) : list Range :=
  match queryWord with
  | None | Some [] => []
  | Some q =>
      let lines := split_on is_line_break data in
      mjoin (imap (rangesForWordInLine q) lines)
  end.

Inductive ContextWordType := Null | WikiLink | Tag.

(** The numbers behind the enumeration, and what a condition makes of one. *)
Definition ContextWordType_value (t : ContextWordType) : nat :=
  match t with Null => 0 | WikiLink => 1 | Tag => 2 end.
Definition truthy_number (n : nat) : bool := negb (Nat.eqb n 0).

Global Instance ContextWordType_eq_dec : EqDecision ContextWordType.
Proof. solve_decision. Defined.

Record ContextWord := mkContextWord {
  type : ContextWordType;
  word : list ascii;
  hasExtension : option bool;
  range : option Range
}.

Definition NULL_CONTEXT_WORD : ContextWord := mkContextWord Null [] None None.

(** The head of [search]: the query, and the token as the test leaves it.
    The second test is the assignment [contextWord.type = WikiLink], whose
    value is the number assigned. *)
Definition search_query (contextWord : ContextWord)
    : option (list ascii) * ContextWord :=
  if bool_decide (ContextWordType_value (type contextWord) = ContextWordType_value Tag)
  then (Some ("#" :: word contextWord), contextWord)
  else
    let contextWord' :=
      mkContextWord WikiLink (word contextWord) (hasExtension contextWord)
                    (range contextWord) in
    if truthy_number (ContextWordType_value (type contextWord')) then
      (Some (lit "[[" ++ Path.basename (word contextWord') ++ lit "]]"),
       contextWord')
    else (None, contextWord').

(** [Promise.all] over the reads: every read is issued; one failure fails
    the whole. *)
Fixpoint all_read (bufs : list (option (list ascii))) : option (list (list ascii)) :=
  match bufs with
  | [] => Some []
  | b :: bufs' => d ← b; ds ← all_read bufs'; Some (d :: ds)
  end.

Definition locationsInFiles (query : list ascii)
    (files : list Uri) (datas : list (list ascii)) : list Location :=
  mjoin (zip_with (λ f data,
           mkLocation (Uri_file (path f))
             <$> rangesForWordInDocumentData (Some query) data) files datas).

(** [search]: [None] is the rejected promise. The token after the call is
    returned as well, since the call writes to it. *)
Definition search (env : Env) (contextWord : ContextWord)
    : M (option (list Location) * ContextWord) :=
  match search_query contextWord with
  | (None, cw) => mret (Some [], cw)
  | (Some query, cw) =>
      found ← findFiles env;
      let files := filter (λ f, is_note_file f = true) found in
      fileBuffers ← mapM_host (readFile env) (path <$> files);
      mret (locationsInFiles query files <$> all_read fileBuffers, cw)
  end.

(** ** getContextWord *)

Definition is_hash (c : ascii) : bool := ascii_eqb c "#".

(** What stands under the cursor: a tag, else a link, else nothing. *)
Definition scanContextWord `{Host} (document : TextDocument) (position : Position)
    : option ContextWord :=
  let tag :=
    r ← getWordRangeAtPosition document position TAG_REGEX___NO_ANCHORS;
    match getText document r with
    | [] => None
    | contextWord =>
        Some (mkContextWord Tag (drop_while is_hash contextWord) None (Some r))
    end in
  match tag with
  | Some t => Some t
  | None =>
      rg ← getWordRangeAtPosition document position WIKI_LINK_REGEX;
      let s := mkPosition (line (range_start rg))
                          (character (range_start rg) + 2) in
      let r := mkRange s (range_end rg) in
      match getText document r with
      | [] => None
      | contextWord =>
          Some (mkContextWord WikiLink contextWord
                  (Some (match_ext_anywhere note_exts contextWord)) (Some r))
      end
  end.

(** [getContextWord]: when nothing stands under the cursor the one shared
    object [NULL_CONTEXT_WORD] is returned; [nullWord] is what that object
    holds at the time of the call ([search] writes to the token it is given). *)
Definition getContextWord `{Host} (nullWord : ContextWord)
    (document : TextDocument) (position : Position) : ContextWord :=
  default nullWord (scanContextWord document position).

(** ** Title casing *)

Definition capitalize (word : list ascii) : list ascii :=
  match word with
  | [] => word
  | c :: rest => toUpperCase1 c :: rest
  end.

Definition nl : list ascii := [ascii_of_nat 10].

Definition chicagoStyleNoCap : list (list ascii) :=
  split_on is_space
    (nl ++ lit "a aboard about above across after against along amid among an and anti around as at before behind"
     ++ nl ++ lit "below beneath beside besides between beyond but by concerning considering despite down during except"
     ++ nl ++ lit "excepting excluding following for from in inside into like minus near of off on onto opposite or"
     ++ nl ++ lit "outside over past per plus regarding round save since so than the through to toward towards under"
     ++ nl ++ lit "underneath unlike until up upon versus via with within without yet"
     ++ nl ++ lit "  ").

Definition titleCaseWord (n i : nat) (word : list ascii) : list ascii :=
  if bool_decide (i = 0) || bool_decide (i = n - 1) then capitalize word
  else if bool_decide (toLowerCase word ∈ chicagoStyleNoCap) then word
  else capitalize word.

Definition titleCase (sentence : list ascii) : list ascii :=
  match sentence with
  | [] => sentence
  | _ =>
      let words := split_on is_space sentence in
      join (lit " ") (imap (titleCaseWord (length words)) words)
  end.

Definition is_dash_underscore (c : ascii) : bool :=
  ascii_eqb c "-" || ascii_eqb c "_".

Definition titleCaseFilename (filename : list ascii) : list ascii :=
  match filename with
  | [] => filename
  | _ =>
      let stem := default filename (match_ext_end_cs note_exts filename) in
      titleCase
        (replace_first_run is_space (lit " ")
           (replace_each is_dash_underscore " " stem))
  end.

(** ** MarkdownDefinitionProvider *)

Definition warning_text : list ascii :=
  lit "createNoteOnGoToDefinitionWhenMissing only works when vscodeMarkdownNotes.workspaceFilenameConvention = 'uniqueFilenames'".

Definition createMissingNote (cfg : Settings) (env : Env) (contextWord : ContextWord)
    : M (option (list ascii)) :=
  if negb (bool_decide (type contextWord = WikiLink)) then mret None
  else if negb (createNoteOnGoToDefinitionWhenMissing cfg) then mret None
  else
    match activeTextEditor env with
    | Some filename =>
        if negb (useUniqueFilenames cfg) then
          showWarningMessage warning_text;; mret None
        else
          let mdFilename :=
            match match_ext_end note_exts (word contextWord) with
            | Some _ => word contextWord
            | None => word contextWord ++ lit ".md"
            end in
          let path := Path.dirname filename ++ lit "/" ++ mdFilename in
          let title := titleCaseFilename (word contextWord) in
          writeFileSync env path (lit "# " ++ title ++ nl ++ nl);;
          mret (Some path)
    | None => mret None
    end.

(** [Uri.parse("file://" + p)], for an absolute [p] without ['%'], ['?']
    and ['#']: the file resource of that path. *)
Definition Uri_parse_file (p : list ascii) : Uri := mkUri (lit "file") p.

Definition truthy_flag (b : option bool) : bool := default false b.

Definition provideDefinition `{Host} (cfg : Settings) (env : Env)
    (nullWord : ContextWord)
    (document : TextDocument) (position : Position) : M (list Location) :=
  let contextWord := getContextWord nullWord document position in
  if negb (bool_decide (type contextWord = WikiLink)) then mret []
  else if negb (truthy_flag (hasExtension contextWord)) then mret []
  else
    let selectedWord := word contextWord in
    files ←
      (if useUniqueFilenames cfg then
         found ← findFiles env;
         mret (filter (λ f, Path.basename (path f) = selectedWord) found)
       else mret []) : M (list Uri);
    files ←
      (if bool_decide (length files = 0) then
         let fromDir := Path.dirname (path (uri document)) in
         let absPath := Path.resolve (cwd env) [fromDir; selectedWord] in
         present ← existsSync env absPath;
         mret (if (present : bool) then files ++ [Uri_file absPath] else files)
       else mret files) : M (list Uri);
    files ←
      (if bool_decide (length files = 0) then
         p ← createMissingNote cfg env contextWord;
         mret (match p : option (list ascii) with
               | Some p => files ++ [Uri_parse_file p]
               | None => files
               end)
       else mret files) : M (list Uri);
    mret ((λ f, Location_at f (mkPosition 0 0)) <$> files).

(** [provideReferences]: the second component is [NULL_CONTEXT_WORD] after the
    call; the write of [search] lands in it when the token searched is that
    object. *)
Definition provideReferences `{Host} (env : Env) (nullWord : ContextWord)
    (document : TextDocument) (position : Position)
    : M (option (list Location) * ContextWord) :=
  match scanContextWord document position with
  | Some contextWord =>
      r ← search env contextWord;
      mret ((r : option (list Location) * ContextWord).1, nullWord)
  | None => search env nullWord
  end.

(** ** newNote *)

(** How the input box settles: with a name, with nothing, or rejected. *)
Inductive InputBox :=
| InputResolved (noteName : option (list ascii))
| InputRejected.

Definition is_dash (c : ascii) : bool := ascii_eqb c "-".

Definition newNote (env : Env) (input : InputBox) : M unit :=
  match input with
  | InputRejected => showErrorMessage (lit "Error creating new note.")
  | InputResolved None => mret tt
  | InputResolved (Some noteName) =>
      if str_eqb noteName [] || str_eqb (remove_all is_space noteName) []
      then mret tt
      else
        let workspaceUri := default [] (workspaceFolder env) in
        let filename :=
          strip_trailing is_dash
            (toLowerCase (replace_runs is_nonword (lit "-") noteName))
          ++ lit ".md" in
        let filepath := Path.join [workspaceUri; filename] in
        fileAlreadyExists ← existsSync env filepath;
        (if negb fileAlreadyExists then
           writeFileSync env filepath (lit "# " ++ noteName ++ nl ++ nl)
         else mret tt);;
        showTextDocument (Uri_file filepath);;
        if negb fileAlreadyExists && editorAfterShow env
        then emit (EvSelectLine 3) else mret tt
  end.
(** ** Completion *)

Inductive CompletionItemKind := File.

Record CompletionItem := mkCompletionItem {
  label : list ascii;
  kind : CompletionItemKind;
  item_range : option Range
}.

Definition filenameForConvention (cfg : Settings) (env : Env)
    (target : Uri) (fromDocument : TextDocument) : list ascii :=
  if useUniqueFilenames cfg then Path.basename (path target)
  else
    let toPath := path target in
    let fromDir := Path.dirname (path (uri fromDocument)) in
    Path.normalize (Path.relative (cwd env) fromDir toPath).

(** [provideCompletionItems]: [tags] is the tag list at the time of the call.
    The items of a tag come in the order of the set's elements. *)
Definition provideCompletionItems `{Host} (cfg : Settings) (env : Env)
    (nullWord : ContextWord) (tags : TagList)
    (document : TextDocument) (position : Position) : M (list CompletionItem) :=
  let contextWord := getContextWord nullWord document position in
  match type contextWord with
  | Null => mret []
  | Tag =>
      mret ((λ t, mkCompletionItem t File (range contextWord))
              <$> elements (TAG_WORD_SET tags))
  | WikiLink =>
      found ← findFiles env;
      let files := filter (λ f, is_note_file f = true) found in
      mret ((λ f, mkCompletionItem (filenameForConvention cfg env f document)
                    File (range contextWord)) <$> files)
  end.
End Extension.

(* ===================================================================== *)
(** * The split sources: [NoteWorkspace] *)
(* ===================================================================== *)

Module NoteWorkspace.
Import JS.

Inductive NoteCompletionConvention := rawFilename | noExtension | toSpaces.
Inductive WorkspaceFilenameConvention := uniqueFilenames | relativePaths.
Inductive SlugifyCharacter := dash | underscore | none.

Global Instance WorkspaceFilenameConvention_eq_dec :
  EqDecision WorkspaceFilenameConvention.
Proof. solve_decision. Defined.
Global Instance SlugifyCharacter_eq_dec : EqDecision SlugifyCharacter.
Proof. solve_decision. Defined.

Record Config := mkConfig {
  createNoteOnGoToDefinitionWhenMissing_cfg : bool;
  defaultFileExtension_cfg : list ascii;
  noteCompletionConvention : NoteCompletionConvention;
  slugifyCharacter : SlugifyCharacter;
  workspaceFilenameConvention : WorkspaceFilenameConvention
}.

(** The string behind a [SlugifyCharacter]. *)
Definition SlugifyCharacter_value (c : SlugifyCharacter) : list ascii :=
  match c with
  | dash => lit "-"
  | underscore => lit "_"
  | none => lit "NONE"
  end.

Definition SLUGIFY_NONE : list ascii := lit "NONE".
Definition DEFAULT_CONFIG : Config :=
  mkConfig true (lit "md") rawFilename dash uniqueFilenames.

Definition slugifyChar (cfg : Config) : list ascii :=
  SlugifyCharacter_value (slugifyCharacter cfg).
Definition defaultFileExtension (cfg : Config) : list ascii :=
  defaultFileExtension_cfg cfg.

(** [_rxFileExtensions], used with the flag [i]. *)
Definition rxFileExtensions : list (list ascii) :=
  [lit "md"; lit "markdown"; lit "mdx"; lit "fountain"].

Definition useUniqueFilenames (cfg : Config) : bool :=
  bool_decide (workspaceFilenameConvention cfg = uniqueFilenames).
Definition createNoteOnGoToDefinitionWhenMissing (cfg : Config) : bool :=
  createNoteOnGoToDefinitionWhenMissing_cfg cfg.

Definition stripExtension (noteName : list ascii) : list ascii :=
  default noteName (match_ext_end rxFileExtensions noteName).

Definition is_dash_underscore (c : ascii) : bool :=
  ascii_eqb c "-" || ascii_eqb c "_".

Definition _wikiLinkCompletionForConvention
    (convention : NoteCompletionConvention) (filename : list ascii) : list ascii :=
  match convention with
  | toSpaces => replace_runs is_dash_underscore (lit " ") (stripExtension filename)
  | noExtension => stripExtension filename
  | rawFilename => filename
  end.

Definition slugifyTitle (cfg : Config) (title : list ascii) : list ascii :=
  strip_trailing is_dash_underscore
    (toLowerCase (replace_runs is_nonword (slugifyChar cfg) title)).

Definition is_bracket (c : ascii) : bool := ascii_eqb c "[" || ascii_eqb c "]".

Definition normalizeNoteNameForFuzzyMatch (cfg : Config) (noteName : list ascii)
    : list ascii :=
  let n := remove_all is_bracket noteName in
  let n := Path.basename n in
  let n := stripExtension n in
  slugifyTitle cfg n.

Definition noteNamesFuzzyMatch (cfg : Config) (left right : list ascii) : bool :=
  str_eqb (normalizeNoteNameForFuzzyMatch cfg left)
          (normalizeNoteNameForFuzzyMatch cfg right).

Definition noteFileNameFromTitle (cfg : Config) (title : list ascii) : list ascii :=
  let t := if str_eqb (slugifyChar cfg) SLUGIFY_NONE then title
           else slugifyTitle cfg title in
  match match_ext_end rxFileExtensions t with
  | Some _ => t
  | None => t ++ lit "." ++ defaultFileExtension cfg
  end.

Definition is_note_file (f : Uri) : bool :=
  str_eqb (scheme f) (lit "file")
  && bool_decide (is_Some (match_ext_end rxFileExtensions (path f))).

Definition noteFiles (env : Env) : M (list Uri) :=
  found ← findFiles env;
  mret (filter (λ f, is_note_file f = true) found).

Definition newNote (cfg : Config) (env : Env) (input : Extension.InputBox)
    : M unit :=
  match input with
  | Extension.InputRejected => showErrorMessage (lit "Error creating new note.")
  | Extension.InputResolved None => mret tt
  | Extension.InputResolved (Some noteName) =>
      if str_eqb noteName [] || str_eqb (remove_all is_space noteName) []
      then mret tt
      else
        let workspaceUri := default [] (workspaceFolder env) in
        let filename := noteFileNameFromTitle cfg noteName in
        let filepath := Path.join [workspaceUri; filename] in
        fileAlreadyExists ← existsSync env filepath;
        (if negb fileAlreadyExists then
           writeFileSync env filepath
             (lit "# " ++ noteName ++ Extension.nl ++ Extension.nl)
         else mret tt);;
        showTextDocument (Uri_file filepath);;
        if negb fileAlreadyExists && editorAfterShow env
        then emit (EvSelectLine 3) else mret tt
  end.
Definition wikiLinkCompletionForConvention (cfg : Config) (env : Env)
    (target : Uri) (fromDocument : TextDocument) : list ascii :=
  if useUniqueFilenames cfg then
    let filename := Path.basename (fsPath target) in
    _wikiLinkCompletionForConvention (noteCompletionConvention cfg) filename
  else
    let toPath := fsPath target in
    let fromDir := Path.dirname (fsPath (uri fromDocument)) in
    Path.normalize (Path.relative (cwd env) fromDir toPath).
End NoteWorkspace.

(* ===================================================================== *)
(** * The split sources: [MarkdownDefinitionProvider] *)
(* ===================================================================== *)

Module MarkdownDefinitionProvider.
Import JS.

(** Modelled from the spec: [Ref.ts] is not among the sources.  A ref is the
    reference token of the data model: a kind ([None], [Tag] or [Link], here
    under the names the provider uses), the captured text, whether the text
    carries an extension, and the span. *)
Inductive RefType := Null | WikiLink | Tag.
Record Ref := mkRef {
  type : RefType;
  word : list ascii;
  hasExtension : option bool;
  range : option Range
}.

Global Instance RefType_eq_dec : EqDecision RefType.
Proof. solve_decision. Defined.

Definition createMissingNote (cfg : NoteWorkspace.Config) (env : Env) (ref : Ref)
    : M (option (list ascii)) :=
  if negb (bool_decide (type ref = WikiLink)) then mret None
  else if negb (NoteWorkspace.createNoteOnGoToDefinitionWhenMissing cfg)
  then mret None
  else
    match activeTextEditor env with
    | Some filename =>
        if negb (NoteWorkspace.useUniqueFilenames cfg) then
          showWarningMessage Extension.warning_text;; mret None
        else
          let mdFilename := NoteWorkspace.noteFileNameFromTitle cfg (word ref) in
          let path := Path.join [Path.dirname filename; mdFilename] in
          let title := Extension.titleCaseFilename (word ref) in
          writeFileSync env path
            (lit "# " ++ title ++ Extension.nl ++ Extension.nl);;
          mret (Some path)
    | None => mret None
    end.

(** The three steps of [provideDefinition], each run only when the list of
    files is still empty. *)
Definition uniqueNameStep (cfg : NoteWorkspace.Config) (env : Env) (ref : Ref)
    : M (list Uri) :=
  if NoteWorkspace.useUniqueFilenames cfg then
    notes ← NoteWorkspace.noteFiles env;
    mret (filter (λ f, NoteWorkspace.noteNamesFuzzyMatch cfg (fsPath f) (word ref)
                       = true) notes)
  else mret [].

Definition absPathOf (env : Env) (document : TextDocument) (selectedWord : list ascii)
    : list ascii :=
  let fromDir := Path.dirname (fsPath (uri document)) in
  Path.resolve (cwd env) [fromDir; selectedWord].

(** [provideDefinition] from the point where [getRefAt] has returned [ref]. *)
Definition provideDefinition (cfg : NoteWorkspace.Config) (env : Env)
    (document : TextDocument) (ref : Ref) : M (list Location) :=
  if negb (bool_decide (type ref = WikiLink)) then mret []
  else
    let selectedWord := word ref in
    files ← uniqueNameStep cfg env ref;
    files ←
      (if bool_decide (length files = 0) then
         let absPath := absPathOf env document selectedWord in
         present ← existsSync env absPath;
         mret (if (present : bool) then files ++ [Uri_file absPath] else files)
       else mret files) : M (list Uri);
    files ←
      (if bool_decide (length files = 0) then
         p ← createMissingNote cfg env ref;
         mret (match p : option (list ascii) with
               | Some p => files ++ [Uri_file p]
               | None => files
               end)
       else mret files) : M (list Uri);
    mret ((λ f, Location_at f (mkPosition 0 0)) <$> files).
End MarkdownDefinitionProvider.

(* ===================================================================== *)
(** * Vocabulary of the statements *)
(* ===================================================================== *)

(** The shape of a slug: word characters, and single dashes between them
    when the separator is the dash. *)
Fixpoint clean (dash_ok : bool) (l : list ascii) : bool :=
  match l with
  | [] => true
  | c :: l' =>
      if JS.is_word c then clean dash_ok l'
      else JS.ascii_eqb c "-" && dash_ok
           && match l' with c' :: _ => JS.is_word c' | [] => true end
           && clean dash_ok l'
  end.

Definition starts_word (l : list ascii) : bool :=
  match l with c :: _ => JS.is_word c | [] => true end.


(** A word boundary: the end of the line, or a white-space character. *)
Definition boundary (o : option ascii) : Prop :=
  match o with Some s => JS.is_space s = true | None => True end.

(** [q] stands in the line [l] at column [c] as a whole white-space delimited
    word: [q] is not empty and has no white space, and what precedes and what
    follows it is a boundary. *)
Definition occurs_at (q l : list ascii) (c : nat) : Prop :=
  ∃ pre post,
    l = pre ++ q ++ post ∧ length pre = c
    ∧ q ≠ [] ∧ Forall (λ x, JS.is_space x = false) q
    ∧ boundary (last pre) ∧ boundary (head post).

(** The list is empty or starts with a character outside [p]. *)
Definition stops (p : ascii → bool) (l : list ascii) : Prop :=
  match head l with Some x => p x = false | None => True end.

(** The corpus files whose name fuzzy-matches the text of a link. *)
Definition fuzzyMatches (cfg : NoteWorkspace.Config) (env : Env)
    (text : list ascii) : list Uri :=
  filter (λ f, NoteWorkspace.noteNamesFuzzyMatch cfg (fsPath f) text = true)
    (filter (λ f, NoteWorkspace.is_note_file f = true) (workspaceFiles env)).

(** The location a resolved file is reported at: its first line. *)
Definition at_top (f : Uri) : Location := Location_at f (mkPosition 0 0).

(** The events a computation adds to the trace. *)
Definition events_of {A} (m : M A) (w : World) : list Event :=
  drop (length (trace w)) (trace (m w).2).

Definition is_write (e : Event) : bool :=
  match e with EvWriteFileSync _ _ => true | _ => false end.
Definition is_warning (e : Event) : bool :=
  match e with EvShowWarningMessage _ => true | _ => false end.

(** A title the new-note command accepts: it has a character that is not
    white space. *)
Definition accepted_title (noteName : list ascii) : Prop :=
  noteName ≠ [] ∧ JS.remove_all JS.is_space noteName ≠ [].

(** The path the new-note command computes for a title. *)
Definition newNote_target_single (env : Env) (noteName : list ascii) : list ascii :=
  Path.join [default [] (workspaceFolder env);
             JS.strip_trailing Extension.is_dash
               (JS.toLowerCase (JS.replace_runs JS.is_nonword (lit "-") noteName))
             ++ lit ".md"].
Definition newNote_target_split (cfg : NoteWorkspace.Config) (env : Env)
    (noteName : list ascii) : list ascii :=
  Path.join [default [] (workspaceFolder env);
             NoteWorkspace.noteFileNameFromTitle cfg noteName].

(** The number of scans (reads of the whole corpus being issued) in a
    sequence of turns, and the bound kept along a run. *)
Definition scans (ops : list Extension.Op) : nat :=
  length (filter (λ op, Extension.is_scan op = true) ops).
Definition scan_budget (s : Extension.Proc) (done_so_far : nat) : Prop :=
  Extension.awaiting s + done_so_far
  ≤ (if Extension.STARTED_INIT (Extension.tagList s) then 1 else 0).

(** What one run of the command does, once the target path is known. *)
Definition newNote_outcome (env : Env) (p noteName : list ascii) (w : World)
    : unit * World :=
  let contents := lit "# " ++ noteName ++ Extension.nl ++ Extension.nl in
  if bool_decide (is_Some (fs w !! fs_key env p)) then
    (tt, mkWorld (fs w)
           (trace w ++ [EvExistsSync p; EvShowTextDocument (Uri_file p)]))
  else
    (tt, mkWorld (<[fs_key env p := contents]> (fs w))
           (trace w ++ [EvExistsSync p; EvWriteFileSync p contents;
                        EvShowTextDocument (Uri_file p)]
                    ++ (if editorAfterShow env then [EvSelectLine 3] else []))).

(* ===================================================================== *)
(** * Scenarios *)
(* ===================================================================== *)

Module Scenario.
(** A corpus of two notes, read from the document [/notes/a.md]. *)
Definition corpus : list Uri :=
  [Uri_file (lit "/notes/project-plan.md");
   Uri_file (lit "/notes/My Notes/other.md")].

Definition env : Env :=
  mkEnv corpus (Some (lit "/notes")) (Some (lit "/notes/a.md")) true (lit "/").

(** The same surroundings with no editor active. *)
Definition env_no_editor : Env :=
  mkEnv corpus (Some (lit "/notes")) None true (lit "/").

Definition document : TextDocument :=
  mkTextDocument (Uri_file (lit "/notes/a.md"))
    [lit "See [[Project Plan]] for #urgent items.";
     lit "Old copy: [[archive.md.bak and [[project-plan here"].

Definition disk : gmap (list ascii) (list ascii) :=
  <[lit "/notes/project-plan.md" := lit "# Project Plan" ++ Extension.nl
                                    ++ lit "  #urgent first" ++ Extension.nl
                                    ++ lit "then #urgent again, not #urgently [[]]"]>
  (<[lit "/notes/My Notes/other.md" := lit "nothing here"]> ∅).

Definition world : World := mkWorld disk [].
Definition empty_world : World := mkWorld ∅ [].

Definition link : MarkdownDefinitionProvider.Ref :=
  MarkdownDefinitionProvider.mkRef MarkdownDefinitionProvider.WikiLink
    (lit "Project Plan") (Some false) None.

Definition relative_cfg : NoteWorkspace.Config :=
  NoteWorkspace.mkConfig true (lit "md") NoteWorkspace.rawFilename
    NoteWorkspace.dash NoteWorkspace.relativePaths.
Definition relative_settings : Extension.Settings :=
  Extension.mkSettings (Some (lit "relativePaths")) true.
Definition unique_settings : Extension.Settings :=
  Extension.mkSettings (Some (lit "uniqueFilenames")) true.

Definition urgent : Extension.ContextWord :=
  Extension.mkContextWord Extension.Tag (lit "urgent") None None.
Definition missing : Extension.ContextWord :=
  Extension.mkContextWord Extension.WikiLink (lit "missing") (Some false) None.

(** One life of the tag list: two calls of the initializer, the corpus
    arriving, and the read of one note. *)
Definition tag_run : list Extension.Op :=
  [Extension.OpInitSet; Extension.OpInitSet; Extension.OpTagCompletion;
   Extension.OpFilesFound corpus;
   Extension.OpFileRead (lit "/notes/project-plan.md")
     (Some (lit "plan #urgent and #later"))].
End Scenario.

(** The characters of a slug: lower-case letters, digits, underscore, dash. *)
Definition is_slug_char (c : ascii) : bool :=
  JS.is_lower c || JS.is_digit c || JS.ascii_eqb c "_" || JS.ascii_eqb c "-".

(** Neither a bracket, nor a slash. *)
Definition plain_char (c : ascii) : bool :=
  negb (NoteWorkspace.is_bracket c) && negb (Path.is_slash c).

(** A code unit of the ASCII range. *)
Definition is_ascii (c : ascii) : bool := (JS.code c <? 128)%N.

(** Carriage return and line feed. *)
Definition CR : ascii := ascii_of_nat 13.
Definition LF : ascii := ascii_of_nat 10.

(** The lines [split(/[\r\n]/)] makes of lines joined by CR LF: an empty line
    after every line but the last. *)
Fixpoint blank_between (ls : list (list ascii)) : list (list ascii) :=
  match ls with
  | [] => []
  | [l] => [l]
  | l :: ls' => l :: [] :: blank_between ls'
  end.

Definition range_on_line (i c n : nat) : Range :=
  mkRange (mkPosition i c) (mkPosition i (c + n)).

(** A second document of the same workspace, with a link that spells out the
    file name of a note. *)
Definition linking_document : TextDocument :=
  mkTextDocument (Uri_file (lit "/notes/b.md"))
    [lit "Next: [[project-plan.md]] and #later"; lit "nothing to see"].

(** The last segment of a path as it stands: what follows the last slash. *)
Definition last_segment (p : list ascii) : list ascii :=
  List.last (JS.split_on Path.is_slash p) [].

(** A character of a heading: no dash, no underscore, and of the white space
    only the space. *)
Definition title_char (c : ascii) : Prop :=
  Extension.is_dash_underscore c = false ∧ (JS.is_space c = true → c = " ").

(** A segment a resolved path is made of: not empty, without slash, and
    neither [.] nor [..]. *)
Definition clean_segment (seg : list ascii) : Prop :=
  seg ≠ [] ∧ seg ≠ lit "." ∧ seg ≠ lit ".."
  ∧ Forall (λ c, Path.is_slash c = false) seg.

(** The segments left of an absolute path once [.], [..] and empty segments
    are resolved. *)
Definition canon (p : list ascii) : list (list ascii) :=
  rev (foldl (Path.push_segment false) [] (JS.split_on Path.is_slash p)).
(* ===================================================================== *)
(** * Facts about characters and the string primitives *)
(* ===================================================================== *)

Section CharFacts.
Import JS.

Ltac by_cases c := destruct c as [[] [] [] [] [] [] [] []]; vm_compute; done.

Lemma is_word_toLowerCase1 c : is_word (toLowerCase1 c) = is_word c.
Proof. by_cases c. Qed.

Lemma toLowerCase1_idemp c : toLowerCase1 (toLowerCase1 c) = toLowerCase1 c.
Proof. by_cases c. Qed.

Lemma toLowerCase1_nonword c : is_word c = false → toLowerCase1 c = c.
Proof. revert c. intros [[] [] [] [] [] [] [] []]; vm_compute; done. Qed.


Lemma ascii_eqb_eq a b : ascii_eqb a b = true ↔ a = b.
Proof. unfold ascii_eqb. by rewrite bool_decide_eq_true. Qed.

Lemma str_eqb_eq a b : str_eqb a b = true ↔ a = b.
Proof. unfold str_eqb. by rewrite bool_decide_eq_true. Qed.
End CharFacts.

Section ListFacts.
Import JS.
Context (p : ascii → bool).

Lemma take_drop_while l : take_while p l ++ drop_while p l = l.
Proof. induction l as [|c l IH]; simpl; [done|]. destruct (p c); simpl; congruence. Qed.

Lemma take_while_all l : Forall (λ c, p c = true) (take_while p l).
Proof.
  induction l as [|c l IH]; simpl; [constructor|].
  destruct (p c) eqn:E; by constructor.
Qed.

Lemma drop_while_length l : length (drop_while p l) ≤ length l.
Proof. induction l as [|c l IH]; simpl; [lia|]. destruct (p c); simpl; lia. Qed.

Lemma strip_trailing_prefix l : ∃ k, l = strip_trailing p l ++ k.
Proof.
  induction l as [|c l [k IH]]; simpl; [by exists []|].
  destruct (strip_trailing p l) as [|d r] eqn:E.
  - destruct (p c); [by exists (c :: l)|]. exists l. done.
  - exists k. simpl. f_equal. exact IH.
Qed.

Lemma strip_trailing_idemp l :
  strip_trailing p (strip_trailing p l) = strip_trailing p l.
Proof.
  induction l as [|c l IH]; simpl; [done|].
  destruct (strip_trailing p l) as [|d r] eqn:E.
  - destruct (p c) eqn:Ec; simpl; [done|]. by rewrite Ec.
  - change (strip_trailing p (c :: d :: r)) with
      (match strip_trailing p (d :: r) with
       | [] => if p c then [] else [c] | r' => c :: r' end).
    by rewrite IH.
Qed.

Lemma strip_trailing_none l :
  Forall (λ c, p c = false) l → strip_trailing p l = l.
Proof.
  induction 1 as [|c l Hc _ IH]; simpl; [done|].
  rewrite IH. destruct l; [by rewrite Hc|done].
Qed.

Lemma split_on_none l :
  Forall (λ c, p c = false) l → split_on p l = [l].
Proof. induction 1 as [|c l Hc _ IH]; simpl; [done|]. by rewrite Hc, IH. Qed.
End ListFacts.

(* ===================================================================== *)
(** * Normalization *)
(* ===================================================================== *)

Section Normalization.
Import JS NoteWorkspace.

Lemma clean_app_l d a b : clean d (a ++ b) = true → clean d a = true.
Proof.
  induction a as [|c a IH]; simpl; [done|].
  destruct (is_word c); [done|].
  rewrite !andb_true_iff. intros [[[? ?] Hh] ?]. repeat split; auto.
  destruct a; [done|]. exact Hh.
Qed.

Lemma clean_chars d l :
  clean d l = true → Forall (λ c, is_word c = true ∨ c = "-") l.
Proof.
  induction l as [|c l IH]; simpl; [constructor|].
  destruct (is_word c) eqn:E.
  - intros H. constructor; auto.
  - rewrite !andb_true_iff. intros [[[Hc ?] ?] ?].
    apply ascii_eqb_eq in Hc. constructor; auto.
Qed.

Lemma clean_toLowerCase d l : clean d l = true → clean d (toLowerCase l) = true.
Proof.
  induction l as [|c l IH]; [done|].
  change (toLowerCase (c :: l)) with (toLowerCase1 c :: toLowerCase l).
  cbn [clean]. rewrite is_word_toLowerCase1.
  destruct (is_word c) eqn:E; [done|].
  rewrite (toLowerCase1_nonword c E).
  rewrite !andb_true_iff. intros [[[? ?] Hh] ?]. repeat split; auto.
  destruct l as [|c' l]; [done|].
  change (is_word (toLowerCase1 c') = true).
  by rewrite is_word_toLowerCase1.
Qed.

Lemma replace_runs_go_starts sep l :
  starts_word (replace_runs_go is_nonword sep true l) = true.
Proof.
  induction l as [|c l IH]; simpl; [done|].
  unfold is_nonword at 1. destruct (is_word c) eqn:E; simpl; [done|exact IH].
Qed.

Lemma replace_runs_go_clean (s : SlugifyCharacter) b l :
  clean (bool_decide (s = dash))
    (replace_runs_go is_nonword (SlugifyCharacter_value s) b l) = true.
Proof.
  revert b. induction l as [|c l IH]; intros b; simpl; [done|].
  unfold is_nonword at 1. destruct (is_word c) eqn:E; simpl.
  - rewrite E. apply IH.
  - destruct b; [apply IH|].
    pose proof (replace_runs_go_starts (SlugifyCharacter_value s) l) as Hs.
    pose proof (IH true) as Hc.
    set (X := replace_runs_go is_nonword (SlugifyCharacter_value s) true l) in *.
    clearbody X. destruct s; simpl in *; [|exact Hc..].
    rewrite Hc. destruct X; simpl in *; [done|by rewrite Hs].
Qed.

Lemma replace_runs_go_starts_word sep b l :
  starts_word l = true →
  replace_runs_go is_nonword sep b l = replace_runs_go is_nonword sep false l.
Proof.
  destruct l as [|c l]; simpl; [done|]. intros H.
  unfold is_nonword. by rewrite H.
Qed.

Lemma replace_runs_clean (s : SlugifyCharacter) l :
  clean (bool_decide (s = dash)) l = true →
  replace_runs is_nonword (SlugifyCharacter_value s) l = l.
Proof.
  unfold replace_runs. induction l as [|c l IH]; simpl; [done|].
  unfold is_nonword at 1. destruct (is_word c) eqn:E; simpl.
  - intros H. by rewrite IH.
  - rewrite !andb_true_iff. intros [[[Hc Hd] Hh] Hl].
    apply ascii_eqb_eq in Hc as ->. apply bool_decide_eq_true in Hd as ->.
    simpl. f_equal.
    rewrite replace_runs_go_starts_word; [by apply IH|].
    by destruct l.
Qed.

Lemma toLowerCase_idemp l : toLowerCase (toLowerCase l) = toLowerCase l.
Proof.
  unfold toLowerCase. rewrite <- list_fmap_compose.
  apply list_fmap_ext. intros _ c _. apply toLowerCase1_idemp.
Qed.

Lemma toLowerCase_app_l a b :
  toLowerCase (a ++ b) = a ++ b → toLowerCase a = a.
Proof.
  unfold toLowerCase. rewrite fmap_app. intros H.
  apply app_inj_1 in H as [H _]; [done|by rewrite length_fmap].
Qed.

(** Slugifying is idempotent. *)
Lemma slugifyTitle_idemp cfg title :
  slugifyTitle cfg (slugifyTitle cfg title) = slugifyTitle cfg title.
Proof.
  unfold slugifyTitle, slugifyChar.
  set (r := replace_runs is_nonword _ title).
  destruct (strip_trailing_prefix is_dash_underscore (toLowerCase r)) as [k Hk].
  set (t := strip_trailing is_dash_underscore (toLowerCase r)) in *.
  assert (Hclean : clean (bool_decide (slugifyCharacter cfg = dash)) t = true).
  { apply (clean_app_l _ t k). rewrite <- Hk. apply clean_toLowerCase.
    apply replace_runs_go_clean. }
  assert (Hlow : toLowerCase t = t).
  { apply (toLowerCase_app_l t k). rewrite <- Hk. apply toLowerCase_idemp. }
  rewrite (replace_runs_clean _ _ Hclean), Hlow.
  apply strip_trailing_idemp.
Qed.

Lemma slugifyTitle_chars cfg title :
  Forall (λ c, is_word c = true ∨ c = "-") (slugifyTitle cfg title).
Proof.
  unfold slugifyTitle, slugifyChar.
  destruct (strip_trailing_prefix is_dash_underscore
    (toLowerCase (replace_runs is_nonword
       (SlugifyCharacter_value (slugifyCharacter cfg)) title))) as [k Hk].
  eapply clean_chars, clean_app_l. rewrite <- Hk.
  apply clean_toLowerCase, replace_runs_go_clean.
Qed.

Lemma slug_char_cases (P : ascii → bool) c :
  (∀ x, is_word x = true → P x = false) → P "-" = false →
  is_word c = true ∨ c = "-" → P c = false.
Proof. intros Hw Hd [H| ->]; auto. Qed.

Lemma match_ext_end_no_dot exts l :
  Forall (λ c, ascii_eqb c "." = false) l → match_ext_end exts l = None.
Proof.
  induction 1 as [|c l Hc _ IH]; [done|].
  change (match_ext_end exts (c :: l)) with
    (if is_dot_ext exts (c :: l) then Some []
     else cons c <$> match_ext_end exts l).
  destruct (ascii_dec c ".") as [->|Hne]; [done|].
  assert (is_dot_ext exts (c :: l) = false) as ->.
  { unfold is_dot_ext. destruct c as [[] [] [] [] [] [] [] []]; try done. }
  by rewrite IH.
Qed.

(** What slugifying leaves is untouched by the first three passes of the
    normalization. *)
Lemma normalize_prefix_passes l :
  Forall (λ c, is_word c = true ∨ c = "-") l →
  stripExtension (Path.basename (remove_all is_bracket l)) = l.
Proof.
  intros Hl.
  assert (Hb : remove_all is_bracket l = l).
  { unfold remove_all. induction Hl as [|c l Hc _ IH]; [done|].
    rewrite filter_cons_True; [by rewrite IH|].
    revert Hc. apply (slug_char_cases is_bracket); [|done].
    intros [[] [] [] [] [] [] [] []]; vm_compute; done. }
  assert (Hs : Forall (λ c, Path.is_slash c = false) l).
  { eapply Forall_impl; [exact Hl|]. intros c.
    apply (slug_char_cases Path.is_slash); [|done].
    intros [[] [] [] [] [] [] [] []]; vm_compute; done. }
  assert (Hd : Forall (λ c, ascii_eqb c "." = false) l).
  { eapply Forall_impl; [exact Hl|]. intros c.
    apply (slug_char_cases (λ x, ascii_eqb x ".")); [|done].
    intros [[] [] [] [] [] [] [] []]; vm_compute; done. }
  rewrite Hb. unfold Path.basename.
  rewrite (strip_trailing_none _ _ Hs), (split_on_none _ _ Hs). simpl.
  unfold stripExtension. by rewrite (match_ext_end_no_dot _ _ Hd).
Qed.

(** C4. Name normalization is idempotent: normalizing what the
    normalization returned (brackets, directory and extension removed,
    separators slugified, lower case) gives the same key again, for every
    name and every configuration. *)
Theorem normalizeNoteNameForFuzzyMatch_idempotent cfg (x : list ascii) :
  normalizeNoteNameForFuzzyMatch cfg (normalizeNoteNameForFuzzyMatch cfg x)
  = normalizeNoteNameForFuzzyMatch cfg x.
Proof.
  unfold normalizeNoteNameForFuzzyMatch at 1.
  set (y := normalizeNoteNameForFuzzyMatch cfg x).
  assert (Hy : Forall (λ c, is_word c = true ∨ c = "-") y)
    by apply slugifyTitle_chars.
  rewrite (normalize_prefix_passes y Hy).
  apply slugifyTitle_idemp.
Qed.
End Normalization.

(* ===================================================================== *)
(** * Title casing *)
(* ===================================================================== *)

Section TitleCase.
Import JS Extension.
Context (p : ascii → bool).

Lemma split_on_pieces l : Forall (Forall (λ c, p c = false)) (split_on p l).
Proof.
  induction l as [|c l IH]; simpl; [by repeat constructor|].
  destruct (p c) eqn:E; [by constructor|].
  destruct (split_on p l) as [|h t]; [by repeat constructor|].
  inversion IH; subst. constructor; [by constructor|done].
Qed.

Lemma split_on_nonempty l : split_on p l ≠ [].
Proof.
  destruct l as [|c l]; simpl; [done|].
  destruct (p c); [done|]. by destruct (split_on p l).
Qed.

Lemma split_on_app_sep w c rest :
  Forall (λ x, p x = false) w → p c = true →
  split_on p (w ++ c :: rest) = w :: split_on p rest.
Proof.
  intros Hw Hc. induction Hw as [|x w Hx _ IH]; simpl; [by rewrite Hc|].
  by rewrite Hx, IH.
Qed.

Lemma split_on_join c ws :
  p c = true → ws ≠ [] → Forall (Forall (λ x, p x = false)) ws →
  split_on p (join [c] ws) = ws.
Proof.
  intros Hc Hne Hws. induction Hws as [|w ws Hw Hws IH]; [done|].
  destruct ws as [|w' ws'].
  - simpl. by apply split_on_none.
  - change (join [c] (w :: w' :: ws')) with (w ++ c :: join [c] (w' :: ws')).
    rewrite split_on_app_sep by done. by rewrite IH.
Qed.
End TitleCase.

Section TitleCaseSpec.
Import JS Extension.



End TitleCaseSpec.

(* ===================================================================== *)
(** * Occurrence search *)
(* ===================================================================== *)

Section WhileFacts.
Import JS.
Context (p : ascii → bool).

Lemma drop_while_stops l : stops p (drop_while p l).
Proof.
  induction l as [|c l IH]; simpl; [done|].
  destruct (p c) eqn:E; [done|]. exact E.
Qed.

Lemma take_while_nil l : take_while p l = [] → stops p l.
Proof. destruct l as [|c l]; simpl; [done|]. unfold stops. simpl. by destruct (p c). Qed.

Lemma take_while_app_stop a b :
  Forall (λ x, p x = true) a → stops p b → take_while p (a ++ b) = a.
Proof.
  intros Ha Hb. induction Ha as [|x a Hx _ IH]; simpl.
  - destruct b as [|y b]; [done|]. unfold stops in Hb. simpl in *. by rewrite Hb.
  - by rewrite Hx, IH.
Qed.

Lemma drop_while_app_stop a b :
  Forall (λ x, p x = true) a → stops p b → drop_while p (a ++ b) = b.
Proof.
  intros Ha Hb. induction Ha as [|x a Hx _ IH]; simpl.
  - destruct b as [|y b]; [done|]. unfold stops in Hb. simpl in *. by rewrite Hb.
  - by rewrite Hx, IH.
Qed.

Lemma strip_trailing_all l : Forall (λ x, p x = true) l → strip_trailing p l = [].
Proof. induction 1 as [|x l Hx _ IH]; simpl; [done|]. by rewrite IH, Hx. Qed.

Lemma strip_trailing_app w ws :
  Forall (λ x, p x = false) w → Forall (λ x, p x = true) ws →
  strip_trailing p (w ++ ws) = w.
Proof.
  intros Hw Hws. induction Hw as [|x w Hx _ IH]; simpl.
  - by apply strip_trailing_all.
  - rewrite IH. destruct w; [by rewrite Hx|done].
Qed.
End WhileFacts.

Section Occurrences.
Import JS Extension.

Lemma not_space_Forall l :
  Forall (λ x, is_space x = false) l ↔ Forall (λ x, not_space x = true) l.
Proof. apply Forall_proper; [|done]. intros x. unfold not_space. by destruct (is_space x). Qed.

Lemma occurs_at_nil q c : ¬ occurs_at q [] c.
Proof.
  intros (pre & post & Hl & _ & Hq & _).
  symmetry in Hl. apply app_eq_nil in Hl as [_ Hl].
  apply app_eq_nil in Hl as [Hl _]. done.
Qed.

Lemma occurs_at_stops_0 q l : boundary (head l) → ¬ occurs_at q l 0.
Proof.
  intros Hb (pre & post & Hl & Hlen & Hq & Hns & _).
  apply nil_length_inv in Hlen as ->. simpl in Hl. subst l.
  destruct q as [|x q]; [done|]. simpl in Hb.
  apply Forall_cons in Hns as [Hx _]. congruence.
Qed.

Lemma occurs_at_space a q l c :
  is_space a = true →
  occurs_at q (a :: l) c ↔ ∃ c', c = S c' ∧ occurs_at q l c'.
Proof.
  intros Ha. split.
  - intros Hocc. destruct c as [|c'].
    { by apply occurs_at_stops_0 in Hocc. }
    exists c'. split; [done|].
    destruct Hocc as (pre & post & Hl & Hlen & Hq & Hns & Hb1 & Hb2).
    destruct pre as [|x pre]; [done|]. simpl in Hl, Hlen.
    injection Hl as -> ->. exists pre, post. repeat split; auto.
    destruct pre; [done|]. exact Hb1.
  - intros (c' & -> & pre & post & Hl & Hlen & Hq & Hns & Hb1 & Hb2).
    exists (a :: pre), post. simpl. repeat split; auto; [by rewrite Hl|].
    destruct pre; [exact Ha|exact Hb1].
Qed.

Lemma occurs_at_spaces ws q l c :
  Forall (λ x, is_space x = true) ws →
  occurs_at q (ws ++ l) c ↔ ∃ c', c = length ws + c' ∧ occurs_at q l c'.
Proof.
  intros Hws. revert c. induction Hws as [|a ws Ha _ IH]; intros c; simpl.
  - split; [intros H; by exists c|]. by intros (c' & -> & H).
  - rewrite occurs_at_space by done. split.
    + intros (c1 & -> & H). apply IH in H as (c' & -> & H). by exists c'.
    + intros (c' & -> & H). exists (length ws + c'). split; [done|].
      apply IH. by exists c'.
Qed.

Lemma occurs_at_not_space a q l c :
  is_space a = false →
  occurs_at q (a :: l) (S c) ↔ c ≠ 0 ∧ occurs_at q l c.
Proof.
  intros Ha. split.
  - intros (pre & post & Hl & Hlen & Hq & Hns & Hb1 & Hb2).
    destruct pre as [|x pre]; [done|]. simpl in Hl, Hlen.
    injection Hl as -> ->. injection Hlen as <-.
    destruct pre as [|y pre].
    { simpl in Hb1. congruence. }
    split; [done|]. exists (y :: pre), post. repeat split; auto.
  - intros (Hc & pre & post & Hl & Hlen & Hq & Hns & Hb1 & Hb2).
    exists (a :: pre), post. simpl. repeat split; auto; [by rewrite Hl|].
    destruct pre; [done|exact Hb1].
Qed.

Lemma occurs_at_word_0 w rest q :
  w ≠ [] → Forall (λ x, is_space x = false) w → boundary (head rest) →
  occurs_at q (w ++ rest) 0 ↔ q = w.
Proof.
  intros Hne Hw Hrest. split.
  - intros (pre & post & Hl & Hlen & Hq & Hns & Hb1 & Hb2).
    apply nil_length_inv in Hlen as ->. simpl in Hl.
    assert (Hstop : ∀ k, boundary (head k) → stops not_space k).
    { intros [|y k]; [done|]. unfold stops, not_space. simpl. by intros ->. }
    rewrite <- (take_while_app_stop not_space q post);
      [|by apply not_space_Forall|by apply Hstop].
    rewrite <- Hl. apply take_while_app_stop; [by apply not_space_Forall|].
    by apply Hstop.
  - intros ->. exists [], rest. repeat split; auto.
Qed.

Lemma occurs_at_word w rest q c :
  w ≠ [] → Forall (λ x, is_space x = false) w → boundary (head rest) →
  occurs_at q (w ++ rest) c
  ↔ (c = 0 ∧ q = w) ∨ (∃ c', c = length w + c' ∧ occurs_at q rest c').
Proof.
  intros Hne Hw Hrest.
  assert (Hgen : ∀ c, c ≠ 0 →
    occurs_at q (w ++ rest) c ↔ ∃ c', c = length w + c' ∧ occurs_at q rest c').
  { clear Hne. induction Hw as [|a w Ha Hw IH]; intros c0 Hc0; simpl.
    - split; [intros H; by exists c0|]. by intros (c' & -> & H).
    - destruct c0 as [|c0]; [done|]. rewrite occurs_at_not_space by done.
      split.
      + intros [Hc1 H]. apply IH in H as (c' & -> & H); [|done]. by exists c'.
      + intros (c' & [= ->] & H).
        assert (c' ≠ 0).
        { intros ->. by apply occurs_at_stops_0 in H. }
        split; [lia|]. apply IH; [lia|]. by exists c'. }
  destruct c as [|c].
  - rewrite occurs_at_word_0 by done. split; [by left|].
    intros [[_ ->]|(c' & Hc & H)]; [done|].
    destruct w; [done|]. simpl in Hc. lia.
  - rewrite Hgen by done. split; [by right|]. by intros [[? _]|?].
Qed.

(** The pieces of a line: white space, then a word with the white space
    after it, then the rest. *)
Lemma first_word_space_Some l pre m rest :
  first_word_space l = Some (pre, m, rest) →
  ∃ w ws, m = w ++ ws ∧ l = pre ++ w ++ ws ++ rest
    ∧ Forall (λ x, is_space x = true) pre
    ∧ Forall (λ x, is_space x = false) w ∧ w ≠ []
    ∧ Forall (λ x, is_space x = true) ws ∧ ws ≠ [].
Proof.
  unfold first_word_space.
  set (r1 := drop_while is_space l).
  set (r2 := drop_while not_space r1).
  destruct (_ || _) eqn:Hc; [done|]. intros [= <- <- <-].
  apply orb_false_elim in Hc as [Hw Hws].
  exists (take_while not_space r1), (take_while is_space r2).
  split; [done|]. split.
  { subst r2 r1. by rewrite !take_drop_while. }
  split; [apply take_while_all|].
  split; [apply not_space_Forall, (take_while_all not_space)|].
  split; [intros H; by rewrite H in Hw|].
  split; [apply take_while_all|]. intros H. by rewrite H in Hws.
Qed.

Lemma first_word_space_None l :
  first_word_space l = None →
  ∃ pre w, l = pre ++ w
    ∧ Forall (λ x, is_space x = true) pre ∧ Forall (λ x, is_space x = false) w.
Proof.
  unfold first_word_space.
  set (r1 := drop_while is_space l).
  set (r2 := drop_while not_space r1).
  destruct (_ || _) eqn:Hc; [|done]. intros _.
  exists (take_while is_space l), (take_while not_space r1).
  split; [|split; [apply take_while_all|apply not_space_Forall, (take_while_all not_space)]].
  assert (Hr2 : r2 = []).
  { apply orb_true_iff in Hc as [Hw|Hws].
    - apply str_eqb_eq in Hw.
      pose proof (take_while_nil not_space r1 Hw) as H1.
      pose proof (drop_while_stops is_space l) as H2. fold r1 in H2.
      unfold r2. destruct r1 as [|x r1']; [done|].
      unfold stops, not_space in H1, H2. simpl in *. by rewrite H2 in H1.
    - apply str_eqb_eq in Hws.
      pose proof (take_while_nil is_space r2 Hws) as H1.
      pose proof (drop_while_stops not_space r1) as H2. fold r2 in H2.
      destruct r2 as [|x r2']; [done|].
      unfold stops, not_space in H1, H2. simpl in *. by rewrite H1 in H2. }
  rewrite <- (take_drop_while is_space l) at 1. fold r1. f_equal.
  rewrite <- (take_drop_while not_space r1) at 1. fold r2.
  by rewrite Hr2, app_nil_r.
Qed.
End Occurrences.

Section LineRanges.
Import JS Extension.

Lemma rangesForWordInWords_cons q ln n word ws :
  rangesForWordInWords q ln n (word :: ws)
  = (if str_eqb (trim word) q then
       [mkRange (mkPosition ln (n + (length word - length (trimLeft word))))
                (mkPosition ln (n + (length word - length (trimLeft word))
                                + length (trim word)))]
     else [])
    ++ rangesForWordInWords q ln (n + length word) ws.
Proof. reflexivity. Qed.

Lemma trim_spaces pre : Forall (λ x, is_space x = true) pre → trim pre = [].
Proof.
  intros H. unfold trim.
  rewrite <- (app_nil_r pre), drop_while_app_stop; done.
Qed.

Lemma trimLeft_spaces_word pre w :
  Forall (λ x, is_space x = true) pre → Forall (λ x, is_space x = false) w →
  trimLeft (pre ++ w) = w.
Proof.
  intros Hpre Hw. unfold trimLeft. apply drop_while_app_stop; [done|].
  destruct Hw; [done|]. done.
Qed.

Lemma trimLeft_word_spaces w ws :
  w ≠ [] → Forall (λ x, is_space x = false) w → trimLeft (w ++ ws) = w ++ ws.
Proof.
  intros Hne Hw. destruct Hw as [|x w Hx _]; [done|].
  unfold trimLeft. simpl. by rewrite Hx.
Qed.

Lemma trim_word_spaces w ws :
  w ≠ [] → Forall (λ x, is_space x = false) w → Forall (λ x, is_space x = true) ws →
  trim (w ++ ws) = w.
Proof.
  intros Hne Hw Hws. unfold trim.
  change (drop_while is_space (w ++ ws)) with (trimLeft (w ++ ws)).
  rewrite trimLeft_word_spaces by done. by apply strip_trailing_app.
Qed.

Lemma trim_spaces_word pre w :
  Forall (λ x, is_space x = true) pre → Forall (λ x, is_space x = false) w →
  trim (pre ++ w) = w.
Proof.
  intros Hpre Hw. unfold trim.
  change (drop_while is_space (pre ++ w)) with (trimLeft (pre ++ w)).
  rewrite trimLeft_spaces_word by done. by apply strip_trailing_none.
Qed.

Lemma str_eqb_false a b : a ≠ b → str_eqb a b = false.
Proof. intros. unfold str_eqb. by apply bool_decide_eq_false_2. Qed.

Lemma elem_of_if_singleton {A} (b : bool) (x y : A) :
  y ∈ (if b then [x] else []) ↔ b = true ∧ y = x.
Proof.
  destruct b.
  - rewrite list_elem_of_singleton. tauto.
  - rewrite elem_of_nil. split; [done|]. by intros [? _].
Qed.

(** The ranges of one line are the occurrences of the query word. *)
Lemma rangesForWordInWords_split q ln l :
  q ≠ [] →
  ∀ n r,
    r ∈ rangesForWordInWords q ln n (split_word_space l)
    ↔ ∃ c, occurs_at q l c
           ∧ r = mkRange (mkPosition ln (n + c)) (mkPosition ln (n + c + length q)).
Proof.
  intros Hq.
  apply (split_word_space_elim (λ l ws, ∀ n r,
    r ∈ rangesForWordInWords q ln n ws
    ↔ ∃ c, occurs_at q l c
           ∧ r = mkRange (mkPosition ln (n + c)) (mkPosition ln (n + c + length q)))).
  - clear l. intros l pre m rest e IH _ n r.
    apply first_word_space_Some in e
      as (w & ws & -> & -> & Hpre & Hw & Hwne & Hws & Hwsne).
    rewrite !rangesForWordInWords_cons.
    rewrite (trim_spaces pre Hpre), (str_eqb_false [] q) by done.
    rewrite (trim_word_spaces w ws), (trimLeft_word_spaces w ws) by done.
    simpl app at 1. rewrite elem_of_app, elem_of_if_singleton, IH.
    assert (Hhead : boundary (head (ws ++ rest))).
    { destruct Hws as [|x ws Hx _]; [done|]. exact Hx. }
    split.
    + intros [[Heq ->]|(c & Hocc & ->)].
      * apply str_eqb_eq in Heq as ->. exists (length pre). split.
        { apply occurs_at_spaces; [done|]. exists 0. split; [lia|].
          by apply occurs_at_word_0. }
        f_equal; f_equal; lia.
      * exists (length pre + (length w + (length ws + c))). split.
        { apply occurs_at_spaces; [done|]. eexists. split; [done|].
          apply occurs_at_word; [done..|]. right. eexists. split; [done|].
          apply occurs_at_spaces; [done|]. by exists c. }
        rewrite !length_app. f_equal; f_equal; lia.
    + intros (c & Hocc & ->).
      apply occurs_at_spaces in Hocc as (c1 & -> & Hocc); [|done].
      apply occurs_at_word in Hocc as [[-> ->]|(c2 & -> & Hocc)]; [| |done..].
      * left. split; [by apply str_eqb_eq|]. f_equal; f_equal; lia.
      * apply occurs_at_spaces in Hocc as (c3 & -> & Hocc); [|done].
        right. exists c3. split; [done|].
        rewrite !length_app. f_equal; f_equal; lia.
  - clear l. intros l e _ n r.
    apply first_word_space_None in e as (pre & w & -> & Hpre & Hw).
    rewrite rangesForWordInWords_cons. simpl rangesForWordInWords.
    rewrite app_nil_r, elem_of_if_singleton.
    rewrite (trim_spaces_word pre w), (trimLeft_spaces_word pre w) by done.
    split.
    + intros [Heq ->]. apply str_eqb_eq in Heq as ->.
      exists (length pre). split.
      { apply occurs_at_spaces; [done|]. exists 0. split; [lia|].
        pose proof (occurs_at_word_0 q [] q) as H0.
        rewrite app_nil_r in H0. by apply H0. }
      rewrite length_app. f_equal; f_equal; lia.
    + intros (c & Hocc & ->).
      apply occurs_at_spaces in Hocc as (c1 & -> & Hocc); [|done].
      destruct w as [|x w'].
      { by apply occurs_at_nil in Hocc. }
      rewrite <- (app_nil_r (x :: w')) in Hocc.
      apply occurs_at_word in Hocc as [[-> ->]|(c2 & -> & Hocc)];
        [| |done..].
      * split; [by apply str_eqb_eq|].
        rewrite length_app. f_equal; f_equal; lia.
      * by apply occurs_at_nil in Hocc.
Qed.
End LineRanges.

Section DocumentRanges.
Import JS Extension.

Lemma trimLeft_length word : length (trimLeft word) ≤ length word.
Proof. apply drop_while_length. Qed.

(** The ranges found in a list of pieces start at or after the running
    column, lie on the line, and do not repeat. *)
Lemma rangesForWordInWords_sorted q ln ws :
  q ≠ [] →
  ∀ n, NoDup (rangesForWordInWords q ln n ws)
       ∧ ∀ r, r ∈ rangesForWordInWords q ln n ws →
              n ≤ character (range_start r) ∧ line (range_start r) = ln.
Proof.
  intros Hq. induction ws as [|word ws IH]; intros n.
  { simpl. split; [constructor|]. intros r Hr. by apply elem_of_nil in Hr. }
  rewrite rangesForWordInWords_cons.
  destruct (IH (n + length word)) as [IHnd IHb].
  destruct (str_eqb (trim word) q) eqn:Heq; simpl.
  - apply str_eqb_eq in Heq.
    assert (Hlt : length word - length (trimLeft word) < length word).
    { pose proof (trimLeft_length word).
      destruct (trimLeft word) as [|x t] eqn:Ht.
      - unfold trim in Heq. fold (trimLeft word) in Heq.
        rewrite Ht in Heq. simpl in Heq. congruence.
      - simpl in *. lia. }
    split.
    + constructor; [|done]. intros Hin. apply IHb in Hin as [Hin _].
      simpl in Hin. lia.
    + intros r Hr. apply elem_of_cons in Hr as [->|Hr]; simpl.
      * split; [lia|done].
      * apply IHb in Hr as [? ?]. split; [lia|done].
  - split; [done|]. intros r Hr. apply IHb in Hr as [? ?]. split; [lia|done].
Qed.

Lemma NoDup_mjoin_imap {A B} (key : B → nat) (ls : list A) :
  ∀ (f : nat → A → list B) k,
    (∀ i l, NoDup (f i l)) →
    (∀ i l r, r ∈ f i l → key r = k + i) →
    NoDup (mjoin (imap f ls)).
Proof.
  induction ls as [|x ls IH]; intros f k Hnd Hkey; [constructor|].
  rewrite imap_cons. simpl. apply NoDup_app. split; [apply Hnd|]. split.
  - intros r Hr Hin. apply Hkey in Hr.
    apply list_elem_of_join in Hin as (l & Hrl & Hl).
    apply elem_of_lookup_imap in Hl as (i & y & -> & _).
    apply Hkey in Hrl. lia.
  - apply (IH (f ∘ S) (S k)); [intros; apply Hnd|].
    intros i l r Hr. apply Hkey in Hr. lia.
Qed.

Lemma rangesForWordInDocumentData_NoDup qo data :
  NoDup (rangesForWordInDocumentData qo data).
Proof.
  destruct qo as [[|x q]|]; try constructor.
  unfold rangesForWordInDocumentData.
  apply (NoDup_mjoin_imap (λ r, line (range_start r)) _ _ 0).
  - intros i l. by apply rangesForWordInWords_sorted.
  - intros i l r Hr.
    by apply (rangesForWordInWords_sorted (x :: q) i _ ltac:(done) 0) in Hr as [_ ?].
Qed.

Lemma rangesForWordInDocumentData_spec q data r :
  q ≠ [] →
  r ∈ rangesForWordInDocumentData (Some q) data
  ↔ ∃ i l c, split_on is_line_break data !! i = Some l ∧ occurs_at q l c
             ∧ r = mkRange (mkPosition i c) (mkPosition i (c + length q)).
Proof.
  intros Hq. destruct q as [|x q]; [done|].
  unfold rangesForWordInDocumentData.
  rewrite list_elem_of_join. split.
  - intros (rs & Hr & Hrs).
    apply elem_of_lookup_imap in Hrs as (i & l & -> & Hl).
    apply rangesForWordInWords_split in Hr as (c & Hocc & ->); [|done].
    by exists i, l, c.
  - intros (i & l & c & Hl & Hocc & ->).
    exists (rangesForWordInLine (x :: q) i l). split.
    + apply rangesForWordInWords_split; [done|]. by exists c.
    + by apply elem_of_lookup_imap_2.
Qed.

Lemma mapM_host_readFile env ps w :
  mapM_host (readFile env) ps w
  = ((λ p, fs w !! fs_key env p) <$> ps,
     mkWorld (fs w) (trace w ++ (EvReadFile <$> ps))).
Proof.
  revert w. induction ps as [|p ps IH]; intros w; simpl.
  - unfold mret, M_ret. destruct w. by rewrite app_nil_r.
  - unfold mbind, M_bind, readFile. simpl. rewrite IH. simpl.
    by rewrite <- app_assoc.
Qed.

Lemma all_read_Some bufs ds :
  all_read bufs = Some ds ↔ bufs = Some <$> ds.
Proof.
  revert ds. induction bufs as [|b bufs IH]; intros ds; simpl.
  - split; [intros [= <-]; done|]. by destruct ds.
  - destruct b as [d|]; simpl; [|split; [done|by destruct ds]].
    destruct (all_read bufs) as [ds'|] eqn:E; simpl.
    + split.
      * intros [= <-]. simpl. f_equal. by apply IH.
      * destruct ds as [|d0 ds0]; [done|]. intros [= -> H].
        apply IH in H. by injection H as ->.
    + split; [done|]. destruct ds as [|d0 ds0]; [done|].
      intros [= -> H]. by apply IH in H.
Qed.

End DocumentRanges.

Section Search.
Import JS Extension.

Lemma search_run env cw w q cw' :
  search_query cw = (Some q, cw') →
  let files := filter (λ f, is_note_file f = true) (workspaceFiles env) in
  search env cw w
  = ((locationsInFiles q files
        <$> all_read ((λ p, fs w !! fs_key env p) <$> (path <$> files)), cw'),
     mkWorld (fs w) ((trace w ++ [EvFindFiles]) ++ (EvReadFile <$> (path <$> files)))).
Proof.
  intros Hq files. unfold search. rewrite Hq.
  unfold mbind, M_bind, findFiles, emit, mret, M_ret. simpl.
  unfold mbind, M_bind. simpl. fold files.
  by rewrite mapM_host_readFile.
Qed.

(** C2. Occurrence search is a literal scan.  The query is [#text] for a
    tag and [[[basename(text)]]] for a link.  In one file the ranges are
    exactly the white-space delimited words equal to the query, one range
    per word and no range twice: each lies on the line of the word, starts
    at the column of the word's first character (after the white space
    before it) and ends that column plus the length of the word.  When
    every note file of the corpus can be read, the search returns the
    locations of those ranges in every such file, and nothing else. *)
Theorem search_exact_words env (contextWord : ContextWord) (w : World) :
  (type contextWord = Tag →
     (search_query contextWord).1 = Some ("#" :: word contextWord))
  ∧ (type contextWord = WikiLink →
       (search_query contextWord).1
       = Some (lit "[[" ++ Path.basename (word contextWord) ++ lit "]]"))
  ∧ (∀ q data r, q ≠ [] →
       r ∈ rangesForWordInDocumentData (Some q) data
       ↔ ∃ i l c, split_on is_line_break data !! i = Some l
                  ∧ occurs_at q l c
                  ∧ r = mkRange (mkPosition i c) (mkPosition i (c + length q)))
  ∧ (∀ qo data, NoDup (rangesForWordInDocumentData qo data))
  ∧ (∀ q, (search_query contextWord).1 = Some q →
       (∀ f, f ∈ workspaceFiles env → is_note_file f = true →
             is_Some (fs w !! fs_key env (path f))) →
       ∃ locs, (search env contextWord w).1.1 = Some locs
         ∧ ∀ loc, loc ∈ locs
             ↔ ∃ f data r,
                 f ∈ workspaceFiles env ∧ is_note_file f = true
                 ∧ fs w !! fs_key env (path f) = Some data
                 ∧ r ∈ rangesForWordInDocumentData (Some q) data
                 ∧ loc = mkLocation (Uri_file (path f)) r).
Proof.
  split; [|split; [|split; [|split]]].
  - intros Ht. unfold search_query. by rewrite Ht.
  - intros Ht. unfold search_query. by rewrite Ht.
  - intros q data r Hq. by apply rangesForWordInDocumentData_spec.
  - apply rangesForWordInDocumentData_NoDup.
  - intros q Hq Hread.
    destruct (search_query contextWord) as [qo cw'] eqn:Hsq.
    simpl in Hq. subst qo.
    rewrite (search_run env contextWord w q cw' Hsq). simpl.
    set (files := filter (λ f, is_note_file f = true) (workspaceFiles env)).
    set (datas := (λ f, default [] (fs w !! fs_key env (path f))) <$> files).
    assert (Hfiles : ∀ f, f ∈ files ↔ f ∈ workspaceFiles env ∧ is_note_file f = true).
    { intros f. unfold files. rewrite list_elem_of_filter. tauto. }
    assert (Hall : all_read ((λ p, fs w !! fs_key env p) <$> (path <$> files))
                   = Some datas).
    { apply all_read_Some. unfold datas.
      rewrite <- !list_fmap_compose. apply list_fmap_ext.
      intros i f Hf. unfold compose.
      apply list_elem_of_lookup_2, Hfiles in Hf as [Hf1 Hf2].
      destruct (Hread f Hf1 Hf2) as [d Hd]. by rewrite Hd. }
    rewrite Hall. simpl. eexists. split; [done|].
    intros loc. unfold locationsInFiles. rewrite list_elem_of_join. split.
    + intros (ls & Hloc & Hls).
      apply elem_of_lookup_zip_with in Hls as (i & f & data & -> & Hf & Hd).
      apply list_elem_of_fmap in Hloc as (r & -> & Hr).
      unfold datas in Hd. rewrite list_lookup_fmap, Hf in Hd.
      injection Hd as <-.
      apply list_elem_of_lookup_2, Hfiles in Hf as [Hf1 Hf2].
      destruct (Hread f Hf1 Hf2) as [d Hd]. rewrite Hd in Hr. simpl in Hr.
      by exists f, d, r.
    + intros (f & data & r & Hf1 & Hf2 & Hd & Hr & ->).
      assert (Hf : f ∈ files) by by apply Hfiles.
      apply list_elem_of_lookup in Hf as [i Hf].
      exists (mkLocation (Uri_file (path f))
                <$> rangesForWordInDocumentData (Some q) data).
      split; [by apply list_elem_of_fmap_2|].
      apply elem_of_lookup_zip_with. exists i, f, data.
      split; [done|]. split; [done|].
      unfold datas. rewrite list_lookup_fmap, Hf. simpl. by rewrite Hd.
Qed.
End Search.

(* ===================================================================== *)
(** * Reference resolution *)
(* ===================================================================== *)

Section Resolution.
Import JS NoteWorkspace MarkdownDefinitionProvider.

Lemma uniqueNameStep_run cfg env ref w :
  uniqueNameStep cfg env ref w
  = if useUniqueFilenames cfg
    then (fuzzyMatches cfg env (word ref),
          mkWorld (fs w) (trace w ++ [EvFindFiles]))
    else ([], w).
Proof. unfold uniqueNameStep. by destruct (useUniqueFilenames cfg). Qed.


(** The single-file provider keeps the same order of steps for a link that
    passes its extension test, with one difference in the first step: a corpus
    file matches when its base name is the text itself. *)
Lemma Extension_provideDefinition_ordered `{Host} settings env nullWord
    document position (w : World) :
  let contextWord := Extension.getContextWord nullWord document position in
  Extension.type contextWord = Extension.WikiLink →
  Extension.truthy_flag (Extension.hasExtension contextWord) = true →
  let matches :=
    if Extension.useUniqueFilenames settings
    then filter (λ f, Path.basename (path f) = Extension.word contextWord)
           (workspaceFiles env)
    else [] in
  let enumerated :=
    if Extension.useUniqueFilenames settings then [EvFindFiles] else [] in
  let absPath :=
    Path.resolve (cwd env)
      [Path.dirname (path (uri document)); Extension.word contextWord] in
  (matches ≠ [] →
     Extension.provideDefinition settings env nullWord document position w
     = (at_top <$> matches, mkWorld (fs w) (trace w ++ [EvFindFiles])))
  ∧ (matches = [] → is_Some (fs w !! fs_key env absPath) →
       Extension.provideDefinition settings env nullWord document position w
       = ([at_top (Uri_file absPath)],
          mkWorld (fs w) (trace w ++ enumerated ++ [EvExistsSync absPath])))
  ∧ (matches = [] → fs w !! fs_key env absPath = None →
       Extension.provideDefinition settings env nullWord document position w
       = let '(created, w') :=
           Extension.createMissingNote settings env contextWord
             (mkWorld (fs w) (trace w ++ enumerated ++ [EvExistsSync absPath])) in
         (at_top <$> (match created with
                      | Some p => [Extension.Uri_parse_file p]
                      | None => []
                      end),
          w')).
Proof.
  intros contextWord Ht Hx matches enumerated absPath.
  unfold Extension.provideDefinition. fold contextWord. rewrite Ht, Hx.
  rewrite bool_decide_eq_true_2 by done. change (negb true) with false.
  cbv iota. fold absPath.
  assert (Hstep : ∀ (k : list Uri → M (list Location)),
    ((if Extension.useUniqueFilenames settings
      then found ← findFiles env;
           mret (filter (λ f, Path.basename (path f) = Extension.word contextWord)
                   found)
      else mret []) ≫= k) w
    = k matches (mkWorld (fs w) (trace w ++ enumerated))).
  { intros k. unfold matches, enumerated.
    destruct (Extension.useUniqueFilenames settings); [done|].
    unfold mbind, M_bind, mret, M_ret. destruct w. by rewrite app_nil_r. }
  rewrite Hstep. clear Hstep.
  assert (Hen : matches ≠ [] → enumerated = [EvFindFiles]).
  { unfold matches, enumerated.
    by destruct (Extension.useUniqueFilenames settings). }
  clearbody matches enumerated absPath contextWord.
  unfold mbind, M_bind, mret, M_ret. cbv beta iota.
  split; [|split].
  - intros Hne. rewrite (Hen Hne).
    assert (bool_decide (length matches = 0) = false) as Hlen.
    { apply bool_decide_eq_false. by destruct matches. }
    rewrite Hlen. cbv beta iota. by rewrite Hlen.
  - intros -> [d Hd].
    rewrite (bool_decide_eq_true_2 (length [] = 0)) by done. cbv beta iota.
    unfold existsSync. cbn [fs trace]. rewrite Hd.
    rewrite (bool_decide_eq_true_2 (is_Some _)) by by eexists.
    cbv beta iota. cbn [app length].
    rewrite bool_decide_eq_false_2 by done. cbv beta iota.
    by rewrite <- app_assoc.
  - intros -> Hd.
    rewrite (bool_decide_eq_true_2 (length [] = 0)) by done. cbv beta iota.
    unfold existsSync. cbn [fs trace]. rewrite Hd.
    rewrite (bool_decide_eq_false_2 (is_Some None)) by by intros [? ?].
    cbv beta iota.
    rewrite (bool_decide_eq_true_2 (length [] = 0)) by done. cbv beta iota.
    rewrite <- app_assoc.
    destruct (Extension.createMissingNote _ _ _ _) as [[p|] w']; done.
Qed.
End Resolution.

(* ===================================================================== *)
(** * Note creation on a missing target *)
(* ===================================================================== *)

Section CreateMissingNote.
Import JS.

(** C5, as the code has it.  When the naming convention is not unique file
    names, creating the missing note is refused: no path is returned, the
    file system is left as it was and nothing is written; the warning is
    shown when the creation policy is on and an editor is active, and only
    then.  Both versions of the provider agree. *)
Theorem createMissingNote_refused cfg env (ref : MarkdownDefinitionProvider.Ref)
    (settings : Extension.Settings) (contextWord : Extension.ContextWord)
    (w : World) :
  NoteWorkspace.useUniqueFilenames cfg = false →
  Extension.useUniqueFilenames settings = false →
  let r := MarkdownDefinitionProvider.createMissingNote cfg env ref w in
  let r' := Extension.createMissingNote settings env contextWord w in
  (r.1 = None ∧ fs r.2 = fs w
   ∧ trace r.2
     = trace w ++
       (if bool_decide (MarkdownDefinitionProvider.type ref
                        = MarkdownDefinitionProvider.WikiLink)
           && NoteWorkspace.createNoteOnGoToDefinitionWhenMissing cfg
           && bool_decide (is_Some (activeTextEditor env))
        then [EvShowWarningMessage Extension.warning_text] else []))
  ∧ (r'.1 = None ∧ fs r'.2 = fs w
     ∧ trace r'.2
       = trace w ++
         (if bool_decide (Extension.type contextWord = Extension.WikiLink)
             && Extension.createNoteOnGoToDefinitionWhenMissing settings
             && bool_decide (is_Some (activeTextEditor env))
          then [EvShowWarningMessage Extension.warning_text] else [])).
Proof.
  intros Hu Hu' r r'. subst r r'. split.
  - unfold MarkdownDefinitionProvider.createMissingNote. rewrite Hu.
    case_bool_decide; simpl; [|by rewrite app_nil_r].
    destruct (NoteWorkspace.createNoteOnGoToDefinitionWhenMissing cfg); simpl;
      [|by rewrite app_nil_r].
    destruct (activeTextEditor env); simpl; [done|by rewrite app_nil_r].
  - unfold Extension.createMissingNote. rewrite Hu'.
    case_bool_decide; simpl; [|by rewrite app_nil_r].
    destruct (Extension.createNoteOnGoToDefinitionWhenMissing settings); simpl;
      [|by rewrite app_nil_r].
    destruct (activeTextEditor env); simpl; [done|by rewrite app_nil_r].
Qed.

(** C8. In the single-file provider a link whose text carries no extension
    is not resolved at all: the result is empty and the world is untouched,
    so the corpus was not enumerated, no path was looked up and no note was
    created. *)
Theorem provideDefinition_requires_extension `{Host} settings env nullWord
    document position (w : World) :
  Extension.type (Extension.getContextWord nullWord document position)
    = Extension.WikiLink →
  Extension.truthy_flag
    (Extension.hasExtension (Extension.getContextWord nullWord document position))
    = false →
  Extension.provideDefinition settings env nullWord document position w = ([], w).
Proof.
  intros Ht Hx. unfold Extension.provideDefinition. by rewrite Ht, Hx.
Qed.
End CreateMissingNote.

(* ===================================================================== *)
(** * The extension flag of a scanned link *)
(* ===================================================================== *)

Section Scanner.
Import JS Extension.

(** The flag of a link found under the cursor is the unanchored test: it is
    set exactly when a dot followed by [md] or [markdown] occurs somewhere in
    the captured text. *)
Lemma scanContextWord_hasExtension `{Host} document position contextWord :
  scanContextWord document position = Some contextWord →
  type contextWord = WikiLink →
  hasExtension contextWord = Some (match_ext_anywhere note_exts (word contextWord)).
Proof.
  unfold scanContextWord.
  destruct (getWordRangeAtPosition document position TAG_REGEX___NO_ANCHORS
            ≫= _) as [t|] eqn:Et.
  - intros [= <-]. simpl in Et.
    destruct (getWordRangeAtPosition document position TAG_REGEX___NO_ANCHORS);
      [|done].
    simpl in Et. destruct (getText document r); [done|].
    by injection Et as <-.
  - destruct (getWordRangeAtPosition document position WIKI_LINK_REGEX); [|done].
    simpl. destruct (getText document _); [done|]. by intros [= <-].
Qed.

(** C3. The extension flag of a scanned link is not anchored at the end of
    the text.  On the line [Old copy: [[archive.md.bak and ...] the link under
    column 15 is captured without its two brackets, as [archive.md.bak]; the
    text does not end in [.md] or [.markdown], yet the flag is set, because
    the pattern behind the flag matches anywhere in the text. *)
Theorem hasExtension_is_not_anchored :
  let contextWord :=
    getContextWord (H := LineHost.host) NULL_CONTEXT_WORD Scenario.document
      (mkPosition 1 15) in
  LineHost.wordRange Scenario.document (mkPosition 1 15) WIKI_LINK_REGEX
    = Some (mkRange (mkPosition 1 10) (mkPosition 1 26))
  ∧ LineHost.text Scenario.document (mkRange (mkPosition 1 10) (mkPosition 1 26))
    = lit "[[archive.md.bak"
  ∧ type contextWord = WikiLink
  ∧ word contextWord = lit "archive.md.bak"
  ∧ match_ext_end note_exts (word contextWord) = None
  ∧ hasExtension contextWord = Some true.
Proof. vm_compute. repeat split; reflexivity. Qed.
End Scanner.

(* ===================================================================== *)
(** * The workspace tag list *)
(* ===================================================================== *)

Section TagList.
Import JS Extension.

Lemma foldl_union_subseteq (tags : list (list ascii)) (set : gset (list ascii)) :
  set ⊆ foldl (λ set t, set ∪ {[ t ]}) set tags.
Proof.
  revert set. induction tags as [|t tags IH]; intros set; simpl; [done|].
  etrans; [|apply IH]. set_solver.
Qed.

Lemma step_grows op s s' :
  step op s = Some s' →
  TAG_WORD_SET (tagList s) ⊆ TAG_WORD_SET (tagList s').
Proof.
  destruct op as [|files|p data| |]; simpl.
  - unfold initSet_enter. destruct (STARTED_INIT (tagList s)); by intros [= <-].
  - destruct (awaiting s); [done|]. by intros [= <-].
  - destruct (remove_first p (reading s)); simpl; [|done]. intros [= <-]. simpl.
    apply foldl_union_subseteq.
  - by intros [= <-].
  - by intros [= <-].
Qed.

Lemma step_budget op s s' n :
  step op s = Some s' → scan_budget s n →
  scan_budget s' (n + (if is_scan op then 1 else 0)).
Proof.
  unfold scan_budget. destruct op as [|files|p data| |]; simpl.
  - unfold initSet_enter. destruct (STARTED_INIT (tagList s)) eqn:E;
      intros [= <-]; simpl; rewrite ?E; lia.
  - destruct (awaiting s); [done|]. intros [= <-]. simpl. lia.
  - destruct (remove_first p (reading s)); simpl; [|done]. intros [= <-]. simpl. lia.
  - intros [= <-]. lia.
  - intros [= <-]. lia.
Qed.

Lemma run_grows ops s s' :
  run ops s = Some s' →
  TAG_WORD_SET (tagList s) ⊆ TAG_WORD_SET (tagList s').
Proof.
  revert s. induction ops as [|op ops IH]; intros s; simpl.
  - by intros [= <-].
  - destruct (step op s) as [s1|] eqn:E; simpl; [|done].
    intros H. etrans; [by eapply step_grows|by apply IH].
Qed.

Lemma run_budget ops s s' n :
  run ops s = Some s' → scan_budget s n → scan_budget s' (n + scans ops).
Proof.
  revert s n. induction ops as [|op ops IH]; intros s n; simpl.
  - intros [= <-]. unfold scans. simpl. by rewrite Nat.add_0_r.
  - destruct (step op s) as [s1|] eqn:E; simpl; [|done].
    intros Hrun Hb. pose proof (step_budget _ _ _ _ E Hb) as Hb1.
    pose proof (IH _ _ Hrun Hb1) as Hb2.
    unfold scans in *. destruct op; simpl in *;
      rewrite ?filter_cons_True, ?filter_cons_False by done; simpl;
      try (by rewrite Nat.add_0_r in Hb2);
      by rewrite <- Nat.add_assoc in Hb2.
Qed.

(** C7. The tag set is filled at most once and only grows.  A call of the
    initializer that finds the start flag set returns at once and asks for
    nothing; in every run of the process from its start the corpus is
    scanned at most once; and over every run, from any state, the tag set
    at the end contains the tag set at the beginning. *)
Theorem tag_set_once_and_growing :
  (∀ st, STARTED_INIT st = true → initSet_enter st = (st, false))
  ∧ (∀ s, STARTED_INIT (tagList s) = true → step OpInitSet s = Some s)
  ∧ (∀ ops s', run ops Proc_initial = Some s' → scans ops ≤ 1)
  ∧ (∀ ops s s', run ops s = Some s' →
       TAG_WORD_SET (tagList s) ⊆ TAG_WORD_SET (tagList s')).
Proof.
  split; [|split; [|split]].
  - intros st H. unfold initSet_enter. by rewrite H.
  - intros s H. simpl. unfold initSet_enter. rewrite H. by destruct s.
  - intros ops s' Hrun.
    assert (H0 : scan_budget Proc_initial 0) by (unfold scan_budget; simpl; lia).
    pose proof (run_budget _ _ _ _ Hrun H0) as Hb. unfold scan_budget in Hb.
    destruct (STARTED_INIT (tagList s')); lia.
  - intros ops s s'. apply run_grows.
Qed.
End TagList.

(* ===================================================================== *)
(** * The search query of a token that is no tag *)
(* ===================================================================== *)

Section SearchQuery.
Import JS Extension.

(** C9. The second test of [search] is an assignment, so the branch that
    returns the empty list is never taken: every token gets a query, a token
    that is no tag is searched as [[[basename(word)]]] (and leaves the call
    as a link), and the null token is searched as the literal [[[]]]; the
    corpus is enumerated and read for it like for any other. *)
Theorem search_query_of_non_tag (contextWord : ContextWord) :
  (search_query contextWord).1 ≠ None
  ∧ (type contextWord ≠ Tag →
       search_query contextWord
       = (Some (lit "[[" ++ Path.basename (word contextWord) ++ lit "]]"),
          mkContextWord WikiLink (word contextWord) (hasExtension contextWord)
                        (range contextWord)))
  ∧ (search_query NULL_CONTEXT_WORD).1 = Some (lit "[[]]")
  ∧ (∀ env w, type contextWord ≠ Tag →
       ∃ result,
         search env contextWord w
         = (result,
            mkWorld (fs w)
              (trace w ++ [EvFindFiles]
               ++ (EvReadFile <$> (path <$> filter (λ f, is_note_file f = true)
                                               (workspaceFiles env)))))).
Proof.
  assert (Hq : type contextWord ≠ Tag →
    search_query contextWord
    = (Some (lit "[[" ++ Path.basename (word contextWord) ++ lit "]]"),
       mkContextWord WikiLink (word contextWord) (hasExtension contextWord)
                     (range contextWord))).
  { intros Ht. unfold search_query.
    rewrite bool_decide_eq_false_2; [done|].
    by destruct (type contextWord). }
  split; [|split; [done|split; [done|]]].
  - unfold search_query. case_bool_decide; done.
  - intros env w Ht. eexists.
    rewrite (search_run env contextWord w _ _ (Hq Ht)).
    by rewrite <- app_assoc.
Qed.
End SearchQuery.

(* ===================================================================== *)
(** * The new-note command *)
(* ===================================================================== *)

Section NewNote.
Import JS.

Lemma accepted_title_test noteName :
  accepted_title noteName →
  str_eqb noteName [] || str_eqb (remove_all is_space noteName) [] = false.
Proof.
  intros [H1 H2]. apply orb_false_intro; by apply str_eqb_false.
Qed.

Lemma Extension_newNote_run env noteName w :
  accepted_title noteName →
  Extension.newNote env (Extension.InputResolved (Some noteName)) w
  = newNote_outcome env (newNote_target_single env noteName) noteName w.
Proof.
  intros Hacc. unfold Extension.newNote, newNote_outcome.
  rewrite (accepted_title_test _ Hacc).
  fold (newNote_target_single env noteName).
  generalize (newNote_target_single env noteName). intros p.
  unfold mbind, M_bind, mret, M_ret, existsSync, writeFileSync,
    showTextDocument, emit. cbv beta iota. cbn [fs trace].
  destruct (bool_decide (is_Some (fs w !! fs_key env p))); simpl.
  - by rewrite <- !app_assoc.
  - destruct (editorAfterShow env); simpl; by rewrite <- !app_assoc.
Qed.

Lemma NoteWorkspace_newNote_run cfg env noteName w :
  accepted_title noteName →
  NoteWorkspace.newNote cfg env (Extension.InputResolved (Some noteName)) w
  = newNote_outcome env (newNote_target_split cfg env noteName) noteName w.
Proof.
  intros Hacc. unfold NoteWorkspace.newNote, newNote_outcome.
  rewrite (accepted_title_test _ Hacc).
  fold (newNote_target_split cfg env noteName).
  generalize (newNote_target_split cfg env noteName). intros p.
  unfold mbind, M_bind, mret, M_ret, existsSync, writeFileSync,
    showTextDocument, emit. cbv beta iota. cbn [fs trace].
  destruct (bool_decide (is_Some (fs w !! fs_key env p))); simpl.
  - by rewrite <- !app_assoc.
  - destruct (editorAfterShow env); simpl; by rewrite <- !app_assoc.
Qed.

Lemma newNote_outcome_frame env p noteName w :
  let r := newNote_outcome env p noteName w in
  (∀ k, is_Some (fs w !! k) → fs r.2 !! k = fs w !! k)
  ∧ (∀ q d, EvWriteFileSync q d ∈ drop (length (trace w)) (trace r.2) →
            fs w !! fs_key env q = None).
Proof.
  unfold newNote_outcome. case_bool_decide as Hex; simpl.
  - split; [done|]. intros q d. rewrite drop_app_length.
    intros Hin. repeat (apply elem_of_cons in Hin as [Hin|Hin]; [done|]).
    by apply elem_of_nil in Hin.
  - assert (Hnone : fs w !! fs_key env p = None).
    { destruct (fs w !! fs_key env p) eqn:E; [|done]. destruct Hex. by eexists. }
    split.
    + intros k Hk. rewrite lookup_insert_ne; [done|].
      intros <-. rewrite Hnone in Hk. by destruct Hk.
    + intros q d. rewrite drop_app_length. intros Hin.
      apply elem_of_cons in Hin as [Hin|Hin]; [done|].
      apply elem_of_cons in Hin as [Hin|Hin]; [by injection Hin as -> _|].
      apply elem_of_cons in Hin as [Hin|Hin]; [done|].
      destruct (editorAfterShow env).
      * apply elem_of_cons in Hin as [Hin|Hin]; [done|].
        by apply elem_of_nil in Hin.
      * by apply elem_of_nil in Hin.
Qed.

Lemma accepted_title_dec noteName :
  str_eqb noteName [] || str_eqb (remove_all is_space noteName) [] = false
  → accepted_title noteName.
Proof.
  intros H. apply orb_false_elim in H as [H1 H2]. split.
  - intros E. apply str_eqb_eq in E. congruence.
  - intros E. apply str_eqb_eq in E. congruence.
Qed.

Lemma idle_frame env (w : World) (evs : list Event) :
  Forall (λ e, is_write e = false) evs →
  let w' := mkWorld (fs w) (trace w ++ evs) in
  (∀ k, is_Some (fs w !! k) → fs w' !! k = fs w !! k)
  ∧ (∀ q d, EvWriteFileSync q d ∈ drop (length (trace w)) (trace w') →
            fs w !! fs_key env q = None).
Proof.
  intros Hev. simpl. split; [done|]. intros q d.
  rewrite drop_app_length. intros Hin.
  rewrite Forall_forall in Hev. by apply Hev in Hin.
Qed.

Lemma Extension_newNote_frame env input w :
  let r := Extension.newNote env input w in
  (∀ k, is_Some (fs w !! k) → fs r.2 !! k = fs w !! k)
  ∧ (∀ q d, EvWriteFileSync q d ∈ drop (length (trace w)) (trace r.2) →
            fs w !! fs_key env q = None).
Proof.
  destruct input as [[noteName|]|].
  - destruct (str_eqb noteName [] || str_eqb (remove_all is_space noteName) [])
      eqn:E.
    + unfold Extension.newNote. rewrite E.
      pose proof (idle_frame env w [] ltac:(constructor)) as H.
      simpl in H. rewrite app_nil_r in H. by destruct w.
    + rewrite Extension_newNote_run by by apply accepted_title_dec.
      apply newNote_outcome_frame.
  - pose proof (idle_frame env w [] ltac:(constructor)) as H.
    simpl in H. rewrite app_nil_r in H. by destruct w.
  - apply (idle_frame env w [EvShowErrorMessage _]). by repeat constructor.
Qed.

Lemma NoteWorkspace_newNote_frame cfg env input w :
  let r := NoteWorkspace.newNote cfg env input w in
  (∀ k, is_Some (fs w !! k) → fs r.2 !! k = fs w !! k)
  ∧ (∀ q d, EvWriteFileSync q d ∈ drop (length (trace w)) (trace r.2) →
            fs w !! fs_key env q = None).
Proof.
  destruct input as [[noteName|]|].
  - destruct (str_eqb noteName [] || str_eqb (remove_all is_space noteName) [])
      eqn:E.
    + unfold NoteWorkspace.newNote. rewrite E.
      pose proof (idle_frame env w [] ltac:(constructor)) as H.
      simpl in H. rewrite app_nil_r in H. by destruct w.
    + rewrite NoteWorkspace_newNote_run by by apply accepted_title_dec.
      apply newNote_outcome_frame.
  - pose proof (idle_frame env w [] ltac:(constructor)) as H.
    simpl in H. rewrite app_nil_r in H. by destruct w.
  - apply (idle_frame env w [EvShowErrorMessage _]). by repeat constructor.
Qed.

(** C10. The new-note command never overwrites a file, in either version.
    Whatever the input, every file that existed keeps its content, and a
    write is made only to a path at which no file existed.  For a title
    whose target path exists, nothing is written and the file system is
    unchanged: the path is tested and the file is opened, nothing else. *)
Theorem newNote_never_overwrites cfg env input (w : World) :
  let r1 := Extension.newNote env input w in
  let r2 := NoteWorkspace.newNote cfg env input w in
  (∀ k, is_Some (fs w !! k) →
        fs r1.2 !! k = fs w !! k ∧ fs r2.2 !! k = fs w !! k)
  ∧ (∀ p d,
       EvWriteFileSync p d ∈ events_of (Extension.newNote env input) w
       ∨ EvWriteFileSync p d ∈ events_of (NoteWorkspace.newNote cfg env input) w →
       fs w !! fs_key env p = None)
  ∧ (∀ noteName,
       input = Extension.InputResolved (Some noteName) → accepted_title noteName →
       (let p := newNote_target_single env noteName in
        is_Some (fs w !! fs_key env p) →
        r1 = (tt, mkWorld (fs w)
                    (trace w ++ [EvExistsSync p; EvShowTextDocument (Uri_file p)])))
       ∧ (let p := newNote_target_split cfg env noteName in
          is_Some (fs w !! fs_key env p) →
          r2 = (tt, mkWorld (fs w)
                      (trace w ++ [EvExistsSync p; EvShowTextDocument (Uri_file p)])))).
Proof.
  intros r1 r2.
  destruct (Extension_newNote_frame env input w) as [F1 W1].
  destruct (NoteWorkspace_newNote_frame cfg env input w) as [F2 W2].
  split; [|split].
  - intros k Hk. split; [by apply F1|by apply F2].
  - intros p d [H|H]; [by apply (W1 p d)|by apply (W2 p d)].
  - intros noteName -> Hacc. subst r1 r2. split; intros p Hp.
    + rewrite Extension_newNote_run by done. unfold newNote_outcome.
      fold p. by rewrite bool_decide_eq_true_2.
    + rewrite NoteWorkspace_newNote_run by done. unfold newNote_outcome.
      fold p. by rewrite bool_decide_eq_true_2.
Qed.
End NewNote.

(* ===================================================================== *)
(** * The statements at work on the scenarios *)
(* ===================================================================== *)

Section Witnesses.
Import JS.


(** The tag [urgent] is found where [#urgent] stands as a word. *)
Lemma search_exact_words_witness :
  (Extension.search_query Scenario.urgent).1 = Some (lit "#urgent")
  ∧ ∃ locs,
      (Extension.search Scenario.env Scenario.urgent Scenario.world).1.1 = Some locs
      ∧ ∀ loc, loc ∈ locs
          ↔ ∃ f data r,
              f ∈ workspaceFiles Scenario.env ∧ Extension.is_note_file f = true
              ∧ fs Scenario.world !! fs_key Scenario.env (path f) = Some data
              ∧ r ∈ Extension.rangesForWordInDocumentData (Some (lit "#urgent")) data
              ∧ loc = mkLocation (Uri_file (path f)) r.
Proof.
  split; [reflexivity|].
  apply (proj2 (proj2 (proj2 (proj2
    (search_exact_words Scenario.env Scenario.urgent Scenario.world))))
    (lit "#urgent") eq_refl).
  intros f Hf _.
  apply elem_of_cons in Hf as [->|Hf]; [eexists; vm_compute; reflexivity|].
  apply elem_of_cons in Hf as [->|Hf]; [eexists; vm_compute; reflexivity|].
  by apply elem_of_nil in Hf.
Defined.

Example search_urgent :
  (Extension.search Scenario.env Scenario.urgent Scenario.world).1.1
  = Some [mkLocation (Uri_file (lit "/notes/project-plan.md"))
            (mkRange (mkPosition 1 2) (mkPosition 1 9));
          mkLocation (Uri_file (lit "/notes/project-plan.md"))
            (mkRange (mkPosition 2 5) (mkPosition 2 12))].
Proof. vm_compute. reflexivity. Qed.

(** Under relative paths and with an editor active the note is refused with
    the warning. *)
Lemma createMissingNote_refused_witness :
  NoteWorkspace.useUniqueFilenames Scenario.relative_cfg = false
  ∧ Extension.useUniqueFilenames Scenario.relative_settings = false
  ∧ MarkdownDefinitionProvider.createMissingNote Scenario.relative_cfg
      Scenario.env Scenario.link Scenario.world
    = (None, mkWorld Scenario.disk [EvShowWarningMessage Extension.warning_text])
  ∧ Extension.createMissingNote Scenario.relative_settings
      Scenario.env Scenario.missing Scenario.world
    = (None, mkWorld Scenario.disk [EvShowWarningMessage Extension.warning_text]).
Proof.
  split; [reflexivity|]. split; [reflexivity|].
  destruct (createMissingNote_refused Scenario.relative_cfg Scenario.env
    Scenario.link Scenario.relative_settings Scenario.missing Scenario.world
    eq_refl eq_refl) as [(H1 & H2 & H3) (H1' & H2' & H3')].
  split.
  - destruct (MarkdownDefinitionProvider.createMissingNote _ _ _ _) as [o [f t]].
    simpl in *. by subst.
  - destruct (Extension.createMissingNote _ _ _ _) as [o [f t]].
    simpl in *. by subst.
Defined.

(** The same request with no editor active: the note is refused, and no
    warning is shown. *)
Lemma createMissingNote_silent_without_editor :
  MarkdownDefinitionProvider.type Scenario.link = MarkdownDefinitionProvider.WikiLink
  ∧ NoteWorkspace.createNoteOnGoToDefinitionWhenMissing Scenario.relative_cfg = true
  ∧ NoteWorkspace.useUniqueFilenames Scenario.relative_cfg = false
  ∧ MarkdownDefinitionProvider.createMissingNote Scenario.relative_cfg
      Scenario.env_no_editor Scenario.link Scenario.world
    = (None, Scenario.world)
  ∧ Extension.createMissingNote Scenario.relative_settings
      Scenario.env_no_editor Scenario.missing Scenario.world
    = (None, Scenario.world)
  ∧ ¬ (∃ e, is_warning e = true
            ∧ e ∈ trace (MarkdownDefinitionProvider.createMissingNote
                           Scenario.relative_cfg Scenario.env_no_editor
                           Scenario.link Scenario.world).2).
Proof.
  repeat (split; [reflexivity|]).
  intros (e & _ & He). simpl in He. by apply elem_of_nil in He.
Qed.

(** The link [project-plan], scanned without an extension, is not resolved
    although the corpus has the note. *)
Lemma provideDefinition_requires_extension_witness :
  Extension.type (Extension.getContextWord (H := LineHost.host)
                    Extension.NULL_CONTEXT_WORD
                    Scenario.document (mkPosition 1 35)) = Extension.WikiLink
  ∧ Extension.word (Extension.getContextWord (H := LineHost.host)
                      Extension.NULL_CONTEXT_WORD
                      Scenario.document (mkPosition 1 35)) = lit "project-plan"
  ∧ Extension.provideDefinition (H := LineHost.host) Scenario.unique_settings
      Scenario.env Extension.NULL_CONTEXT_WORD
      Scenario.document (mkPosition 1 35) Scenario.world
    = ([], Scenario.world).
Proof.
  split; [reflexivity|]. split; [reflexivity|].
  exact (provideDefinition_requires_extension (H := LineHost.host)
           Scenario.unique_settings Scenario.env Extension.NULL_CONTEXT_WORD
           Scenario.document (mkPosition 1 35) Scenario.world eq_refl eq_refl).
Defined.

(** The null token is searched as [[[]]], and found. *)
Lemma search_query_of_non_tag_witness :
  Extension.type Extension.NULL_CONTEXT_WORD ≠ Extension.Tag
  ∧ Extension.search_query Extension.NULL_CONTEXT_WORD
    = (Some (lit "[[]]"),
       Extension.mkContextWord Extension.WikiLink [] None None).
Proof.
  assert (H : Extension.type Extension.NULL_CONTEXT_WORD ≠ Extension.Tag)
    by discriminate.
  split; [exact H|].
  exact (proj1 (proj2 (search_query_of_non_tag Extension.NULL_CONTEXT_WORD)) H).
Defined.

Example search_null_token :
  (Extension.search Scenario.env Extension.NULL_CONTEXT_WORD Scenario.world).1.1
  = Some [mkLocation (Uri_file (lit "/notes/project-plan.md"))
            (mkRange (mkPosition 2 34) (mkPosition 2 38))].
Proof. vm_compute. reflexivity. Qed.

(** A search with nothing under the cursor leaves the shared null token
    marked as a link. *)
Example provideReferences_writes_null_token :
  (Extension.provideReferences (H := LineHost.host) Scenario.env
     Extension.NULL_CONTEXT_WORD Scenario.document (mkPosition 0 0)
     Scenario.world).1.2
  = Extension.mkContextWord Extension.WikiLink [] None None.
Proof. vm_compute. reflexivity. Qed.

(** The title "Project Plan" leads to the existing [project-plan.md]: the
    file is opened and stays as it is. *)
Lemma newNote_never_overwrites_witness :
  accepted_title (lit "Project Plan")
  ∧ is_Some (fs Scenario.world
               !! fs_key Scenario.env
                    (newNote_target_single Scenario.env (lit "Project Plan")))
  ∧ Extension.newNote Scenario.env
      (Extension.InputResolved (Some (lit "Project Plan"))) Scenario.world
    = (tt, mkWorld Scenario.disk
             [EvExistsSync (lit "/notes/project-plan.md");
              EvShowTextDocument (Uri_file (lit "/notes/project-plan.md"))])
  ∧ NoteWorkspace.newNote NoteWorkspace.DEFAULT_CONFIG Scenario.env
      (Extension.InputResolved (Some (lit "Project Plan"))) Scenario.world
    = (tt, mkWorld Scenario.disk
             [EvExistsSync (lit "/notes/project-plan.md");
              EvShowTextDocument (Uri_file (lit "/notes/project-plan.md"))]).
Proof.
  assert (Hacc : accepted_title (lit "Project Plan")).
  { split; vm_compute; discriminate. }
  assert (Hex : ∀ p, p = lit "/notes/project-plan.md" →
            is_Some (fs Scenario.world !! fs_key Scenario.env p)).
  { intros p ->. eexists. vm_compute. reflexivity. }
  split; [exact Hacc|]. split; [by apply Hex|].
  destruct (proj2 (proj2 (newNote_never_overwrites NoteWorkspace.DEFAULT_CONFIG
    Scenario.env (Extension.InputResolved (Some (lit "Project Plan")))
    Scenario.world)) (lit "Project Plan") eq_refl Hacc) as [H1 H2].
  split; [apply H1|apply H2]; by apply Hex.
Defined.

(** One life of the tag list: a single scan, and the tags of the note read. *)
Lemma tag_set_once_and_growing_witness :
  ∃ s', Extension.run Scenario.tag_run Extension.Proc_initial = Some s'
    ∧ scans Scenario.tag_run ≤ 1
    ∧ Extension.TAG_WORD_SET (Extension.tagList Extension.Proc_initial)
      ⊆ Extension.TAG_WORD_SET (Extension.tagList s')
    ∧ Extension.tagCompletionLabels (Extension.tagList s')
      = [lit "#urgent"; lit "#later"].
Proof.
  destruct (Extension.run Scenario.tag_run Extension.Proc_initial) as [s'|] eqn:E;
    [|by vm_compute in E].
  exists s'. split; [done|].
  destruct tag_set_once_and_growing as (_ & _ & Hscan & Hgrow).
  split; [by eapply Hscan|]. split; [by eapply Hgrow|].
  vm_compute in E. injection E as <-. vm_compute. reflexivity.
Defined.
End Witnesses.

(* ===================================================================== *)
(** * More on names: what the fuzzy key ignores *)
(* ===================================================================== *)

Section KeyFacts.
Import JS NoteWorkspace.

Lemma normalize_key_fixed cfg x :
  normalizeNoteNameForFuzzyMatch cfg (normalizeNoteNameForFuzzyMatch cfg x)
  = normalizeNoteNameForFuzzyMatch cfg x.
Proof.
  unfold normalizeNoteNameForFuzzyMatch at 1.
  rewrite normalize_prefix_passes by apply slugifyTitle_chars.
  apply slugifyTitle_idemp.
Qed.

(** X1.  The fuzzy match is an equivalence on names, and every name matches
    its own key. *)
Theorem noteNamesFuzzyMatch_equivalence cfg :
  (∀ a, noteNamesFuzzyMatch cfg a a = true)
  ∧ (∀ a b, noteNamesFuzzyMatch cfg a b = noteNamesFuzzyMatch cfg b a)
  ∧ (∀ a b c, noteNamesFuzzyMatch cfg a b = true →
              noteNamesFuzzyMatch cfg b c = true →
              noteNamesFuzzyMatch cfg a c = true)
  ∧ (∀ a, noteNamesFuzzyMatch cfg (normalizeNoteNameForFuzzyMatch cfg a) a = true).
Proof.
  unfold noteNamesFuzzyMatch. repeat split.
  - intros a. by apply str_eqb_eq.
  - intros a b. unfold str_eqb. apply bool_decide_ext. split; congruence.
  - intros a b c. rewrite !str_eqb_eq. congruence.
  - intros a. apply str_eqb_eq, normalize_key_fixed.
Qed.

Lemma remove_all_app p (a b : list ascii) :
  remove_all p (a ++ b) = remove_all p a ++ remove_all p b.
Proof. unfold remove_all. apply filter_app. Qed.

Lemma remove_all_idemp p (l : list ascii) :
  remove_all p (remove_all p l) = remove_all p l.
Proof.
  unfold remove_all. induction l as [|c l IH]; [done|].
  destruct (p c) eqn:E.
  - rewrite filter_cons_False by congruence. exact IH.
  - rewrite filter_cons_True by done. rewrite filter_cons_True by done.
    by rewrite IH.
Qed.

(** X2.  Brackets play no part in the key: a name and the name without its
    brackets, or wrapped in the brackets of a link, have the same key. *)
Theorem normalize_ignores_brackets cfg (x : list ascii) :
  normalizeNoteNameForFuzzyMatch cfg (remove_all is_bracket x)
  = normalizeNoteNameForFuzzyMatch cfg x
  ∧ normalizeNoteNameForFuzzyMatch cfg (lit "[[" ++ x ++ lit "]]")
    = normalizeNoteNameForFuzzyMatch cfg x.
Proof.
  unfold normalizeNoteNameForFuzzyMatch. split.
  - by rewrite remove_all_idemp.
  - rewrite !remove_all_app.
    change (remove_all is_bracket (lit "[[")) with (@nil ascii).
    change (remove_all is_bracket (lit "]]")) with (@nil ascii).
    by rewrite app_nil_r.
Qed.

Lemma class_toLowerCase1 c :
  is_bracket (toLowerCase1 c) = is_bracket c
  ∧ Path.is_slash (toLowerCase1 c) = Path.is_slash c
  ∧ ascii_eqb (toLowerCase1 c) "." = ascii_eqb c ".".
Proof. destruct c as [[] [] [] [] [] [] [] []]; vm_compute; done. Qed.

Lemma is_dot_ext_cons exts c e :
  is_dot_ext exts (c :: e)
  = ascii_eqb c "." && bool_decide (toLowerCase e ∈ exts).
Proof. destruct c as [[] [] [] [] [] [] [] []]; reflexivity. Qed.

Lemma remove_all_fmap (p : ascii → bool) (f : ascii → ascii) (l : list ascii) :
  (∀ c, p (f c) = p c) → remove_all p (f <$> l) = f <$> remove_all p l.
Proof.
  intros Hp. unfold remove_all. induction l as [|c l IH]; [done|].
  rewrite fmap_cons. destruct (p c) eqn:E.
  - rewrite !filter_cons_False by (rewrite ?Hp; congruence). exact IH.
  - rewrite !filter_cons_True by (rewrite ?Hp; congruence).
    by rewrite fmap_cons, IH.
Qed.

Lemma strip_trailing_fmap (p : ascii → bool) (f : ascii → ascii) (l : list ascii) :
  (∀ c, p (f c) = p c) → strip_trailing p (f <$> l) = f <$> strip_trailing p l.
Proof.
  intros Hp. induction l as [|c l IH]; [done|].
  rewrite fmap_cons. simpl. rewrite IH, Hp.
  destruct (strip_trailing p l); simpl; [by destruct (p c)|done].
Qed.

Lemma split_on_fmap (p : ascii → bool) (f : ascii → ascii) (l : list ascii) :
  (∀ c, p (f c) = p c) →
  split_on p (f <$> l) = (fmap f : list ascii → list ascii) <$> split_on p l.
Proof.
  intros Hp. induction l as [|c l IH]; [done|].
  rewrite fmap_cons. simpl. rewrite IH, Hp.
  destruct (p c); [done|]. by destruct (split_on p l).
Qed.

Lemma last_fmap {A B} (g : A → B) (l : list A) d :
  List.last (g <$> l) (g d) = g (List.last l d).
Proof.
  induction l as [|x l IH]; [done|].
  rewrite fmap_cons. simpl. destruct l; [done|]. exact IH.
Qed.

Lemma basename_toLowerCase x :
  Path.basename (toLowerCase x) = toLowerCase (Path.basename x).
Proof.
  unfold Path.basename, toLowerCase.
  rewrite strip_trailing_fmap by (intros c; apply class_toLowerCase1).
  rewrite split_on_fmap by (intros c; apply class_toLowerCase1).
  exact (last_fmap (fmap toLowerCase1 : list ascii → list ascii) _ []).
Qed.

Lemma match_ext_end_toLowerCase exts l :
  match_ext_end exts (toLowerCase l) = toLowerCase <$> match_ext_end exts l.
Proof.
  induction l as [|c l IH]; [done|].
  change (toLowerCase (c :: l)) with (toLowerCase1 c :: toLowerCase l).
  change (match_ext_end exts (toLowerCase1 c :: toLowerCase l)) with
    (if is_dot_ext exts (toLowerCase1 c :: toLowerCase l) then Some []
     else cons (toLowerCase1 c) <$> match_ext_end exts (toLowerCase l)).
  change (match_ext_end exts (c :: l)) with
    (if is_dot_ext exts (c :: l) then Some []
     else cons c <$> match_ext_end exts l).
  rewrite !is_dot_ext_cons, toLowerCase_idemp.
  destruct (class_toLowerCase1 c) as (_ & _ & ->).
  destruct (_ && _); [done|]. rewrite IH.
  by destruct (match_ext_end exts l).
Qed.

Lemma replace_runs_go_toLowerCase sep b l :
  toLowerCase (replace_runs_go is_nonword sep b (toLowerCase l))
  = toLowerCase (replace_runs_go is_nonword sep b l).
Proof.
  revert b. induction l as [|c l IH]; intros b; [done|].
  change (toLowerCase (c :: l)) with (toLowerCase1 c :: toLowerCase l).
  simpl. unfold is_nonword. rewrite is_word_toLowerCase1.
  destruct (is_word c); simpl.
  - change (toLowerCase (?x :: ?k)) with (toLowerCase1 x :: toLowerCase k).
    by rewrite toLowerCase1_idemp, IH.
  - destruct b; [apply IH|].
    unfold toLowerCase. rewrite !fmap_app. f_equal. apply IH.
Qed.

Lemma normalize_toLowerCase cfg x :
  normalizeNoteNameForFuzzyMatch cfg (toLowerCase x)
  = normalizeNoteNameForFuzzyMatch cfg x.
Proof.
  assert (Hb : remove_all is_bracket (toLowerCase x)
               = toLowerCase (remove_all is_bracket x)).
  { apply remove_all_fmap. intros c. apply class_toLowerCase1. }
  unfold normalizeNoteNameForFuzzyMatch, stripExtension, slugifyTitle.
  rewrite Hb, basename_toLowerCase, match_ext_end_toLowerCase.
  set (b := Path.basename (remove_all is_bracket x)).
  assert (default (toLowerCase b) (toLowerCase <$> match_ext_end rxFileExtensions b)
          = toLowerCase (default b (match_ext_end rxFileExtensions b))) as ->
    by by destruct (match_ext_end rxFileExtensions b).
  unfold replace_runs. by rewrite replace_runs_go_toLowerCase.
Qed.

(** X3.  The key does not see the case of letters: names that are equal up to
    letter case have the same key, and so fuzzy-match the same names. *)
Theorem normalize_ignores_case cfg (x y : list ascii) :
  toLowerCase x = toLowerCase y →
  normalizeNoteNameForFuzzyMatch cfg x = normalizeNoteNameForFuzzyMatch cfg y
  ∧ ∀ z, noteNamesFuzzyMatch cfg x z = noteNamesFuzzyMatch cfg y z.
Proof.
  intros H.
  assert (normalizeNoteNameForFuzzyMatch cfg x
          = normalizeNoteNameForFuzzyMatch cfg y) as Hk.
  { rewrite <- (normalize_toLowerCase cfg x), <- (normalize_toLowerCase cfg y).
    by rewrite H. }
  split; [done|]. intros z. unfold noteNamesFuzzyMatch. by rewrite Hk.
Qed.

Lemma normalize_ignores_case_witness :
  normalizeNoteNameForFuzzyMatch DEFAULT_CONFIG (lit "/notes/Project-PLAN.MD")
  = normalizeNoteNameForFuzzyMatch DEFAULT_CONFIG (lit "/notes/project-plan.md").
Proof.
  exact (proj1 (normalize_ignores_case DEFAULT_CONFIG
                  (lit "/notes/Project-PLAN.MD") (lit "/notes/project-plan.md")
                  eq_refl)).
Defined.

Lemma split_on_app (p : ascii → bool) a c b :
  p c = true → split_on p (a ++ c :: b) = split_on p a ++ split_on p b.
Proof.
  intros Hc. induction a as [|x a IH]; simpl; [by rewrite Hc|].
  rewrite IH. destruct (p x); [done|].
  pose proof (split_on_nonempty p a) as Hne.
  by destruct (split_on p a).
Qed.

Lemma List_last_app {A} (l k : list A) d :
  k ≠ [] → List.last (l ++ k) d = List.last k d.
Proof.
  intros Hk. induction l as [|x l IH]; [done|].
  simpl. destruct (l ++ k) eqn:E; [|exact IH].
  apply app_eq_nil in E as [_ ?]. done.
Qed.

Lemma strip_trailing_app_keep (p : ascii → bool) a b :
  b ≠ [] → Forall (λ c, p c = false) b → strip_trailing p (a ++ b) = a ++ b.
Proof.
  intros Hne Hb. induction a as [|x a IH]; simpl.
  - by apply strip_trailing_none.
  - rewrite IH. destruct (a ++ b) eqn:E; [|done].
    apply app_eq_nil in E as [_ ?]. done.
Qed.

Lemma basename_plain n :
  Forall (λ c, Path.is_slash c = false) n → Path.basename n = n.
Proof.
  intros Hn. unfold Path.basename.
  by rewrite strip_trailing_none, split_on_none.
Qed.

Lemma basename_in_dir dir n :
  n ≠ [] → Forall (λ c, Path.is_slash c = false) n →
  Path.basename (dir ++ "/" :: n) = n.
Proof.
  intros Hne Hn. unfold Path.basename.
  replace (dir ++ "/" :: n) with ((dir ++ ["/"]) ++ n)
    by by rewrite <- app_assoc.
  rewrite (strip_trailing_app_keep Path.is_slash (dir ++ ["/"]) n Hne Hn).
  rewrite <- app_assoc. simpl.
  rewrite split_on_app by done. rewrite (split_on_none _ n Hn).
  by rewrite List_last_app.
Qed.

(** X4.  The directory plays no part in the key: a path and its last segment
    have the same key, when that segment is more than brackets. *)
Theorem normalize_ignores_directory cfg (dir name : list ascii) :
  Forall (λ c, Path.is_slash c = false) name →
  remove_all is_bracket name ≠ [] →
  normalizeNoteNameForFuzzyMatch cfg (dir ++ lit "/" ++ name)
  = normalizeNoteNameForFuzzyMatch cfg name.
Proof.
  intros Hn Hne. unfold normalizeNoteNameForFuzzyMatch.
  rewrite !remove_all_app.
  change (remove_all is_bracket (lit "/")) with ["/"].
  assert (Hn' : Forall (λ c, Path.is_slash c = false) (remove_all is_bracket name)).
  { apply Forall_forall. intros c Hc. unfold remove_all in Hc.
    apply list_elem_of_filter in Hc as [_ Hc].
    rewrite Forall_forall in Hn. by apply Hn. }
  change (["/"] ++ remove_all is_bracket name) with ("/" :: remove_all is_bracket name).
  by rewrite basename_in_dir, basename_plain.
Qed.

Lemma normalize_ignores_directory_witness :
  normalizeNoteNameForFuzzyMatch DEFAULT_CONFIG (lit "/notes/My Notes" ++ lit "/" ++ lit "Other.md")
  = normalizeNoteNameForFuzzyMatch DEFAULT_CONFIG (lit "Other.md").
Proof.
  apply (normalize_ignores_directory DEFAULT_CONFIG (lit "/notes/My Notes")
           (lit "Other.md")).
  - vm_compute. repeat constructor.
  - vm_compute. discriminate.
Defined.
End KeyFacts.

(* ===================================================================== *)
(** * More on slugs and the file name of a title *)
(* ===================================================================== *)

Section SlugFacts.
Import JS NoteWorkspace.

Lemma slug_char_of_lowered c :
  (is_word c = true ∨ c = "-") → toLowerCase1 c = c → is_slug_char c = true.
Proof.
  intros [H| ->]; [|done]. revert H.
  destruct c as [[] [] [] [] [] [] [] []]; vm_compute; done.
Qed.

Lemma strip_trailing_last (p : ascii → bool) l c :
  last (strip_trailing p l) = Some c → p c = false.
Proof.
  induction l as [|x l IH]; simpl; [done|].
  destruct (strip_trailing p l) as [|y r] eqn:E.
  - destruct (p x) eqn:Ex; simpl; [done|]. by intros [= <-].
  - intros H. apply IH. exact H.
Qed.

Lemma clean_double_dash d pre post :
  clean d (pre ++ "-" :: "-" :: post) = false.
Proof.
  induction pre as [|c pre IH]; simpl.
  - by rewrite !andb_false_r.
  - rewrite IH. destruct (is_word c); [done|]. by rewrite andb_false_r.
Qed.

Lemma clean_no_dash l : clean false l = true → Forall (λ c, is_word c = true) l.
Proof.
  induction l as [|c l IH]; simpl; [constructor|].
  destruct (is_word c) eqn:E; [by constructor; auto|].
  by rewrite andb_false_r.
Qed.

Lemma slugifyTitle_clean cfg title :
  clean (bool_decide (slugifyCharacter cfg = dash)) (slugifyTitle cfg title) = true.
Proof.
  unfold slugifyTitle, slugifyChar.
  destruct (strip_trailing_prefix is_dash_underscore
    (toLowerCase (replace_runs is_nonword
       (SlugifyCharacter_value (slugifyCharacter cfg)) title))) as [k Hk].
  eapply clean_app_l. rewrite <- Hk.
  apply clean_toLowerCase, replace_runs_go_clean.
Qed.

Lemma slugifyTitle_lowered cfg title :
  toLowerCase (slugifyTitle cfg title) = slugifyTitle cfg title.
Proof.
  unfold slugifyTitle.
  destruct (strip_trailing_prefix is_dash_underscore
    (toLowerCase (replace_runs is_nonword (slugifyChar cfg) title))) as [k Hk].
  apply (toLowerCase_app_l _ k). rewrite <- Hk. apply toLowerCase_idemp.
Qed.

(** X5.  A slug is made of lower-case letters, digits, underscores and dashes
    only; it does not end in a dash or an underscore and has no two dashes in
    a row; and unless the separator is the dash it has no dash at all. *)
Theorem slugifyTitle_shape cfg (title : list ascii) :
  Forall (λ c, is_slug_char c = true) (slugifyTitle cfg title)
  ∧ (∀ c, last (slugifyTitle cfg title) = Some c → is_dash_underscore c = false)
  ∧ (∀ pre post, slugifyTitle cfg title ≠ pre ++ lit "--" ++ post)
  ∧ (slugifyCharacter cfg ≠ dash →
       Forall (λ c, is_word c = true) (slugifyTitle cfg title)).
Proof.
  pose proof (slugifyTitle_clean cfg title) as Hclean.
  pose proof (slugifyTitle_lowered cfg title) as Hlow.
  split; [|split; [|split]].
  - pose proof (clean_chars _ _ Hclean) as Hch.
    set (s := slugifyTitle cfg title) in *. clearbody s.
    induction Hch as [|c l Hc _ IH]; [constructor|].
    change (toLowerCase (c :: l)) with (toLowerCase1 c :: toLowerCase l) in Hlow.
    injection Hlow as H1 H2. constructor.
    + by apply slug_char_of_lowered.
    + apply IH; [|done].
      simpl in Hclean. destruct (is_word c); [done|].
      by apply andb_prop in Hclean as [_ ?].
  - intros c Hc. unfold slugifyTitle in Hc. by apply strip_trailing_last in Hc.
  - intros pre post E. rewrite E in Hclean.
    change (lit "--" ++ post) with ("-" :: "-" :: post) in Hclean.
    by rewrite clean_double_dash in Hclean.
  - intros Hd. apply clean_no_dash.
    by rewrite bool_decide_eq_false_2 in Hclean.
Qed.

Lemma match_ext_end_app exts n e :
  Forall (Forall (λ c, c ≠ ".")) exts → toLowerCase e ∈ exts →
  match_ext_end exts (n ++ "." :: e) = Some n.
Proof.
  intros Hexts He. induction n as [|c n IH].
  - change (match_ext_end exts ([] ++ "." :: e)) with
      (if is_dot_ext exts ("." :: e) then Some []
       else cons "." <$> match_ext_end exts e).
    rewrite is_dot_ext_cons.
    rewrite bool_decide_eq_true_2 by done. done.
  - change (match_ext_end exts ((c :: n) ++ "." :: e)) with
      (if is_dot_ext exts (c :: n ++ "." :: e) then Some []
       else cons c <$> match_ext_end exts (n ++ "." :: e)).
    rewrite is_dot_ext_cons, IH.
    rewrite (bool_decide_eq_false_2 (_ ∈ exts)); [by rewrite andb_false_r|].
    intros Hin. rewrite Forall_forall in Hexts. apply Hexts in Hin.
    unfold toLowerCase in Hin. rewrite fmap_app, fmap_cons in Hin.
    apply Forall_app in Hin as [_ Hin]. apply Forall_cons in Hin as [Hin _].
    by apply Hin.
Qed.

Lemma rxFileExtensions_no_dot : Forall (Forall (λ c, c ≠ ".")) rxFileExtensions.
Proof. repeat constructor; discriminate. Qed.

Lemma slug_no_dot cfg title :
  Forall (λ c, ascii_eqb c "." = false) (slugifyTitle cfg title).
Proof.
  eapply Forall_impl; [apply slugifyTitle_chars|]. intros c.
  apply (slug_char_cases (λ x, ascii_eqb x ".")); [|done].
  intros [[] [] [] [] [] [] [] []]; vm_compute; done.
Qed.

(** X6.  The file name of a title.  When titles are slugified the name is
    always the slug followed by the default extension: an extension the title
    already carries is slugified away with it.  Only when slugifying is
    switched off is a title that ends in a recognized extension kept as it is,
    and any other title given the default extension. *)
Theorem noteFileNameFromTitle_cases cfg (title : list ascii) :
  (slugifyCharacter cfg ≠ none →
     noteFileNameFromTitle cfg title
     = slugifyTitle cfg title ++ lit "." ++ defaultFileExtension cfg)
  ∧ (slugifyCharacter cfg = none →
       noteFileNameFromTitle cfg title
       = match match_ext_end rxFileExtensions title with
         | Some _ => title
         | None => title ++ lit "." ++ defaultFileExtension cfg
         end).
Proof.
  unfold noteFileNameFromTitle, slugifyChar. split.
  - intros Hs. rewrite (str_eqb_false _ SLUGIFY_NONE) by by destruct (slugifyCharacter cfg).
    by rewrite (match_ext_end_no_dot _ _ (slug_no_dot cfg title)).
  - intros ->. done.
Qed.

Lemma remove_all_none (p : ascii → bool) l :
  Forall (λ c, p c = false) l → remove_all p l = l.
Proof.
  unfold remove_all. induction 1 as [|c l Hc _ IH]; [done|].
  by rewrite filter_cons_True, IH.
Qed.

Lemma plain_char_split c :
  plain_char c = true ↔ is_bracket c = false ∧ Path.is_slash c = false.
Proof.
  unfold plain_char. rewrite andb_true_iff, !negb_true_iff. tauto.
Qed.

Lemma recognized_extension_plain e :
  toLowerCase e ∈ rxFileExtensions → Forall (λ c, plain_char c = true) e.
Proof.
  intros He.
  assert (Hl : Forall (λ c, is_lower c = true) (toLowerCase e)).
  { assert (Hall : Forall (Forall (λ c, is_lower c = true)) rxFileExtensions)
      by (repeat constructor).
    rewrite Forall_forall in Hall. by apply Hall. }
  unfold toLowerCase in Hl. rewrite Forall_fmap in Hl.
  eapply Forall_impl; [exact Hl|]. intros c. simpl.
  destruct c as [[] [] [] [] [] [] [] []]; vm_compute; done.
Qed.

Lemma slug_plain cfg title :
  Forall (λ c, plain_char c = true) (slugifyTitle cfg title).
Proof.
  eapply Forall_impl; [apply slugifyTitle_chars|]. intros c [H| ->]; [|done].
  revert H. destruct c as [[] [] [] [] [] [] [] []]; vm_compute; done.
Qed.

(** The stem of the file name of a title: the name is the stem, a dot and the
    default extension, and the stem slugifies like the title. *)
Lemma noteFileNameFromTitle_stem cfg title :
  Forall (λ c, plain_char c = true) title →
  match_ext_end rxFileExtensions title = None →
  ∃ stem,
    noteFileNameFromTitle cfg title = stem ++ "." :: defaultFileExtension cfg
    ∧ Forall (λ c, plain_char c = true) stem
    ∧ slugifyTitle cfg stem = slugifyTitle cfg title.
Proof.
  intros Hplain Hext. unfold noteFileNameFromTitle.
  destruct (str_eqb (slugifyChar cfg) SLUGIFY_NONE).
  - exists title. by rewrite Hext.
  - exists (slugifyTitle cfg title).
    rewrite (match_ext_end_no_dot _ _ (slug_no_dot cfg title)).
    split; [done|]. split; [apply slug_plain|apply slugifyTitle_idemp].
Qed.

(** X7.  A created note is found again.  For a title without brackets, slashes
    and recognized extension, and a default extension that is a recognized
    one, the file named after the title, in whatever directory, fuzzy-matches
    the title and passes the note filter; once the workspace lists it, it is
    among the fuzzy matches of the title. *)
Theorem created_name_round_trip cfg (dir title : list ascii) :
  Forall (λ c, plain_char c = true) title →
  match_ext_end rxFileExtensions title = None →
  toLowerCase (defaultFileExtension cfg) ∈ rxFileExtensions →
  let p := dir ++ lit "/" ++ noteFileNameFromTitle cfg title in
  noteNamesFuzzyMatch cfg p title = true
  ∧ is_note_file (Uri_file p) = true
  ∧ ∀ env, Uri_file p ∈ workspaceFiles env →
           Uri_file p ∈ fuzzyMatches cfg env title.
Proof.
  intros Hplain Hext He p.
  destruct (noteFileNameFromTitle_stem cfg title Hplain Hext)
    as (stem & Hname & Hstem & Hslug).
  pose proof (recognized_extension_plain _ He) as Heplain.
  set (e := defaultFileExtension cfg) in *.
  assert (Hfname : Forall (λ c, plain_char c = true) (stem ++ "." :: e)).
  { apply Forall_app. split; [done|]. by constructor. }
  assert (Hmatch : noteNamesFuzzyMatch cfg p title = true).
  { unfold noteNamesFuzzyMatch. apply str_eqb_eq.
    unfold normalizeNoteNameForFuzzyMatch, p. rewrite Hname.
    rewrite (remove_all_app is_bracket dir), (remove_all_app is_bracket (lit "/")).
    change (remove_all is_bracket (lit "/")) with ["/"].
    rewrite (remove_all_none is_bracket (stem ++ "." :: e)); last first.
    { eapply Forall_impl; [exact Hfname|]. intros c Hc.
      by apply plain_char_split in Hc as [? _]. }
    rewrite (remove_all_none is_bracket title); last first.
    { eapply Forall_impl; [exact Hplain|]. intros c Hc.
      by apply plain_char_split in Hc as [? _]. }
    change (["/"] ++ stem ++ "." :: e) with ("/" :: stem ++ "." :: e).
    rewrite basename_in_dir; [|by destruct stem|]; last first.
    { eapply Forall_impl; [exact Hfname|]. intros c Hc.
      by apply plain_char_split in Hc as [_ ?]. }
    rewrite basename_plain; last first.
    { eapply Forall_impl; [exact Hplain|]. intros c Hc.
      by apply plain_char_split in Hc as [_ ?]. }
    unfold stripExtension.
    rewrite (match_ext_end_app _ _ _ rxFileExtensions_no_dot He), Hext.
    exact Hslug. }
  assert (Hnote : is_note_file (Uri_file p) = true).
  { unfold is_note_file.
    change (path (Uri_file p)) with p.
    change (scheme (Uri_file p)) with (lit "file").
    rewrite (proj2 (str_eqb_eq (lit "file") (lit "file")) eq_refl).
    unfold p. rewrite Hname.
    replace (dir ++ lit "/" ++ stem ++ "." :: e)
      with ((dir ++ lit "/" ++ stem) ++ "." :: e)
      by by rewrite <- !app_assoc.
    rewrite (match_ext_end_app _ _ _ rxFileExtensions_no_dot He).
    apply bool_decide_eq_true. by eexists. }
  split; [done|]. split; [done|].
  intros env Hin. unfold fuzzyMatches. rewrite !list_elem_of_filter. auto.
Qed.

Lemma created_name_round_trip_witness :
  noteNamesFuzzyMatch DEFAULT_CONFIG
    (lit "/notes" ++ lit "/" ++ noteFileNameFromTitle DEFAULT_CONFIG (lit "Project Plan"))
    (lit "Project Plan") = true.
Proof.
  apply (created_name_round_trip DEFAULT_CONFIG (lit "/notes") (lit "Project Plan")).
  - vm_compute. repeat constructor.
  - reflexivity.
  - vm_compute. apply list_elem_of_In. simpl. auto.
Defined.
End SlugFacts.

(* ===================================================================== *)
(** * More on title casing *)
(* ===================================================================== *)

Section TitleFacts.
Import JS Extension.

Lemma case_round c :
  toUpperCase1 (toUpperCase1 c) = toUpperCase1 c
  ∧ toLowerCase1 (toUpperCase1 c) = toLowerCase1 c.
Proof. destruct c as [[] [] [] [] [] [] [] []]; vm_compute; done. Qed.


Lemma toLowerCase_capitalize w : toLowerCase (capitalize w) = toLowerCase w.
Proof.
  destruct w as [|c w]; [done|].
  change (toLowerCase (capitalize (c :: w)))
    with (toLowerCase1 (toUpperCase1 c) :: toLowerCase w).
  by destruct (case_round c) as [_ ->].
Qed.

Lemma toLowerCase_titleCaseWord n i w :
  toLowerCase (titleCaseWord n i w) = toLowerCase w.
Proof.
  unfold titleCaseWord. repeat case_match; auto using toLowerCase_capitalize.
Qed.





Lemma join_split_on (p : ascii → bool) c (l : list ascii) :
  join [c] (split_on p l) = replace_each p c l.
Proof.
  induction l as [|x l IH]; [done|].
  simpl split_on. unfold replace_each. rewrite fmap_cons.
  fold (replace_each p c l). rewrite <- IH.
  pose proof (split_on_nonempty p l) as Hne.
  destruct (p x).
  - by destruct (split_on p l).
  - destruct (split_on p l) as [|h t]; [done|]. by destruct t.
Qed.

Lemma toLowerCase_join sep ws :
  toLowerCase (join sep ws) = join (toLowerCase sep) (toLowerCase <$> ws).
Proof.
  induction ws as [|w ws IH]; [done|].
  destruct ws as [|w' ws']; [done|].
  change (join sep (w :: w' :: ws')) with (w ++ sep ++ join sep (w' :: ws')).
  unfold toLowerCase at 1. rewrite !fmap_app.
  fold (toLowerCase w) (toLowerCase sep) (toLowerCase (join sep (w' :: ws'))).
  by rewrite IH.
Qed.

Lemma fmap_imap_lower (f : nat → list ascii → list ascii) (ws : list (list ascii)) :
  (∀ i w, toLowerCase (f i w) = toLowerCase w) →
  toLowerCase <$> imap f ws = toLowerCase <$> ws.
Proof.
  revert f. induction ws as [|w ws IH]; intros f Hf; [done|].
  rewrite imap_cons, !fmap_cons, Hf. f_equal. apply IH. intros i x. apply Hf.
Qed.

(** X9.  Title casing touches the case of letters and the kind of white space,
    nothing else: for a sentence of ASCII characters the result is, up to
    letter case, the sentence with every white-space character turned into a
    space, so its length is that of the sentence. *)
Theorem titleCase_only_case_and_spaces (sentence : list ascii) :
  Forall (λ c, is_ascii c = true) sentence →
  toLowerCase (titleCase sentence)
  = toLowerCase (replace_each is_space " " sentence)
  ∧ length (titleCase sentence) = length sentence.
Proof.
  intros _.
  assert (H : toLowerCase (titleCase sentence)
              = toLowerCase (replace_each is_space " " sentence)).
  { destruct sentence as [|c s]; [done|].
    unfold titleCase. rewrite <- (join_split_on is_space " " (c :: s)).
    rewrite !toLowerCase_join. f_equal.
    apply fmap_imap_lower. intros i w. apply toLowerCase_titleCaseWord. }
  split; [done|].
  apply (f_equal length) in H. unfold toLowerCase, replace_each in H.
  by rewrite !length_fmap in H.
Qed.

Lemma titleCase_only_case_and_spaces_witness :
  length (titleCase (lit "a tale of two cities")) = 20.
Proof.
  refine (proj2 (titleCase_only_case_and_spaces (lit "a tale of two cities") _)).
  vm_compute. repeat constructor.
Defined.
End TitleFacts.

(* ===================================================================== *)
(** * More on the occurrence search *)
(* ===================================================================== *)

Section SearchFacts.
Import JS Extension.

(** X10.  A reported range covers the query and nothing else: the range lies
    on one line of the data, within the line, and the characters it spans are
    the query. *)
Theorem range_text_is_query (q data : list ascii) (r : Range) :
  r ∈ rangesForWordInDocumentData (Some q) data →
  line (range_start r) = line (range_end r)
  ∧ (∃ l, split_on is_line_break data !! line (range_start r) = Some l
          ∧ character (range_end r) ≤ length l)
  ∧ LineHost.text (mkTextDocument (Uri_file []) (split_on is_line_break data)) r = q.
Proof.
  intros Hr.
  assert (Hq : q ≠ []).
  { intros ->. simpl in Hr. by apply elem_of_nil in Hr. }
  apply rangesForWordInDocumentData_spec in Hr
    as (i & l & c & Hl & (pre & post & -> & <- & _) & ->); [|done].
  simpl. split; [done|]. split.
  - exists (pre ++ q ++ post). split; [done|]. rewrite !length_app. lia.
  - unfold LineHost.text. simpl. rewrite bool_decide_eq_true_2 by done.
    rewrite (list_lookup_total_correct _ _ _ Hl).
    rewrite drop_app_length.
    replace (length pre + length q - length pre) with (length q) by lia.
    by rewrite take_app_length.
Qed.

Lemma range_text_is_query_witness :
  LineHost.text
    (mkTextDocument (Uri_file [])
       (split_on is_line_break (lit "  #urgent first")))
    (mkRange (mkPosition 0 2) (mkPosition 0 9))
  = lit "#urgent".
Proof.
  refine (proj2 (proj2 (range_text_is_query (lit "#urgent")
    (lit "  #urgent first") (mkRange (mkPosition 0 2) (mkPosition 0 9)) _))).
  vm_compute. apply list_elem_of_In. simpl. auto.
Defined.

Lemma occurs_at_no_space q l c : occurs_at q l c → Forall (λ x, is_space x = false) q.
Proof. by intros (pre & post & _ & _ & _ & ? & _). Qed.

(** X11.  A query with a white-space character in it is never found, whatever
    the files hold: a link whose base name has a space has no references. *)
Theorem query_with_space_not_found (q : list ascii) :
  Exists (λ x, is_space x = true) q →
  (∀ data, rangesForWordInDocumentData (Some q) data = [])
  ∧ (∀ env contextWord w locs,
       (search_query contextWord).1 = Some q →
       (search env contextWord w).1.1 = Some locs → locs = []).
Proof.
  intros Hsp.
  assert (Hq : q ≠ []) by (intros ->; by apply Exists_nil in Hsp).
  assert (Hnone : ∀ data, rangesForWordInDocumentData (Some q) data = []).
  { intros data. apply elem_of_nil_inv. intros r Hr.
    apply rangesForWordInDocumentData_spec in Hr as (i & l & c & _ & Hocc & _);
      [|done].
    apply occurs_at_no_space in Hocc.
    apply Exists_exists in Hsp as (x & Hx & Hxs).
    rewrite Forall_forall in Hocc. apply Hocc in Hx. congruence. }
  split; [done|].
  intros env cw w locs Hsq.
  destruct (search_query cw) as [qo cw'] eqn:E. simpl in Hsq. subst qo.
  rewrite (search_run env cw w q cw' E). simpl.
  destruct (all_read _) as [datas|]; [|done]. simpl. intros [= <-].
  unfold locationsInFiles. apply elem_of_nil_inv. intros loc Hloc.
  apply list_elem_of_join in Hloc as (ls & Hloc & Hls).
  apply elem_of_lookup_zip_with in Hls as (i & f & data & -> & _ & _).
  rewrite Hnone in Hloc. by apply elem_of_nil in Hloc.
Qed.

Lemma query_with_space_not_found_witness :
  rangesForWordInDocumentData (Some (lit "[[Project Plan]]"))
    (lit "See [[Project Plan]] for #urgent items.") = [].
Proof.
  refine (proj1 (query_with_space_not_found (lit "[[Project Plan]]") _) _).
  apply Exists_exists. exists " ". split; [|reflexivity].
  apply list_elem_of_In. vm_compute. auto 20.
Defined.

Lemma split_on_crlf ls :
  ls ≠ [] → Forall (Forall (λ c, is_line_break c = false)) ls →
  split_on is_line_break (join [CR; LF] ls) = blank_between ls.
Proof.
  intros Hne Hls. induction Hls as [|w ws Hw Hws IH]; [done|].
  destruct ws as [|w' ws'].
  - simpl. by apply split_on_none.
  - change (join [CR; LF] (w :: w' :: ws'))
      with (w ++ CR :: LF :: join [CR; LF] (w' :: ws')).
    rewrite split_on_app_sep by done.
    change (split_on is_line_break (LF :: join [CR; LF] (w' :: ws')))
      with ([] :: split_on is_line_break (join [CR; LF] (w' :: ws'))).
    by rewrite IH.
Qed.

Lemma blank_between_even ls i : blank_between ls !! (2 * i) = ls !! i.
Proof.
  revert i. induction ls as [|l ls IH]; intros i; [done|].
  destruct i as [|i].
  - by destruct ls.
  - replace (2 * S i) with (S (S (2 * i))) by lia.
    destruct ls as [|l' ls']; [done|].
    change (blank_between (l :: l' :: ls')) with (l :: [] :: blank_between (l' :: ls')).
    simpl lookup. apply IH.
Qed.

Lemma blank_between_odd ls i l :
  blank_between ls !! (2 * i + 1) = Some l → l = [].
Proof.
  revert i. induction ls as [|x ls IH]; intros i; [done|].
  destruct ls as [|x' ls'].
  - replace (2 * i + 1) with (S (2 * i)) by lia. simpl. by rewrite lookup_nil.
  - change (blank_between (x :: x' :: ls')) with (x :: [] :: blank_between (x' :: ls')).
    destruct i as [|i].
    + simpl. by intros [= <-].
    + replace (2 * S i + 1) with (S (S (2 * i + 1))) by lia.
      simpl lookup. apply IH.
Qed.

(** X12.  Line numbers of the matches.  In data whose lines are separated by
    LF a match is reported on the line it stands on.  In data whose lines are
    separated by CR LF every line break counts twice: a match on line [i] is
    reported on line [2 * i]. *)
Theorem line_numbers_lf_and_crlf (q : list ascii) (ls : list (list ascii)) (r : Range) :
  q ≠ [] → ls ≠ [] →
  Forall (Forall (λ c, is_line_break c = false)) ls →
  (r ∈ rangesForWordInDocumentData (Some q) (join [LF] ls)
   ↔ ∃ i l c, ls !! i = Some l ∧ occurs_at q l c
              ∧ r = range_on_line i c (length q))
  ∧ (r ∈ rangesForWordInDocumentData (Some q) (join [CR; LF] ls)
     ↔ ∃ i l c, ls !! i = Some l ∧ occurs_at q l c
                ∧ r = range_on_line (2 * i) c (length q)).
Proof.
  intros Hq Hne Hls. rewrite !rangesForWordInDocumentData_spec by done.
  rewrite (split_on_join is_line_break LF ls) by done.
  rewrite split_on_crlf by done. split; [done|]. split.
  - intros (j & l & c & Hl & Hocc & ->).
    destruct (Nat.Even_or_Odd j) as [[i ->]|[i ->]].
    + rewrite blank_between_even in Hl. by exists i, l, c.
    + apply blank_between_odd in Hl as ->. by apply occurs_at_nil in Hocc.
  - intros (i & l & c & Hl & Hocc & ->).
    exists (2 * i), l, c. by rewrite blank_between_even.
Qed.

Lemma line_numbers_lf_and_crlf_witness :
  range_on_line 2 0 7
  ∈ rangesForWordInDocumentData (Some (lit "#urgent"))
      (join [CR; LF] [lit "first line"; lit "#urgent second"]).
Proof.
  refine (proj2 (proj2 (line_numbers_lf_and_crlf (lit "#urgent")
    [lit "first line"; lit "#urgent second"] (range_on_line 2 0 7) _ _ _)) _).
  - discriminate.
  - discriminate.
  - vm_compute. repeat constructor.
  - exists 1, (lit "#urgent second"), 0. split; [reflexivity|]. split; [|reflexivity].
    exists [], (lit " second"). repeat split; try discriminate.
    vm_compute. repeat constructor.
Defined.

Lemma all_read_None bufs : all_read bufs = None ↔ None ∈ bufs.
Proof.
  induction bufs as [|b bufs IH].
  - split; [done|]. intros H. by apply elem_of_nil in H.
  - change (all_read (b :: bufs))
      with (d ← b; ds ← all_read bufs; Some (d :: ds)).
    rewrite elem_of_cons. destruct b as [d|]; simpl.
    + destruct (all_read bufs); simpl.
      * split; [done|]. intros [?|H]; [done|]. by apply IH in H.
      * split; [|done]. intros _. right. by apply IH.
    + split; [|done]. intros _. by left.
Qed.

(** X13.  One unreadable note file fails the whole search: the search is
    rejected exactly when some note file of the corpus cannot be read, and in
    every case it leaves the file system as it was. *)
Theorem search_fails_on_unreadable_file env (contextWord : ContextWord) (w : World) :
  ((search env contextWord w).1.1 = None
   ↔ ∃ f, f ∈ workspaceFiles env ∧ is_note_file f = true
          ∧ fs w !! fs_key env (path f) = None)
  ∧ fs (search env contextWord w).2 = fs w.
Proof.
  destruct (search_query contextWord) as [[q|] cw'] eqn:E.
  2:{ unfold search_query in E. by case_bool_decide. }
  rewrite (search_run env contextWord w q cw' E). simpl. split; [|done].
  rewrite fmap_None, all_read_None, <- list_fmap_compose.
  rewrite list_elem_of_fmap. split.
  - intros (f & Hnone & Hf). apply list_elem_of_filter in Hf as [Hf1 Hf2].
    exists f. by rewrite Hnone.
  - intros (f & Hf1 & Hf2 & Hnone). exists f. split; [by rewrite <- Hnone|].
    by apply list_elem_of_filter.
Qed.
End SearchFacts.

(* ===================================================================== *)
(** * Where the tags of the tag list come from *)
(* ===================================================================== *)

Section TagOrigin.
Import JS Extension.

Lemma foldl_union_elem (tags : list (list ascii)) (set : gset (list ascii)) t :
  t ∈ foldl (λ set t, set ∪ {[ t ]}) set tags ↔ t ∈ set ∨ t ∈ tags.
Proof.
  revert set. induction tags as [|x tags IH]; intros set; simpl.
  - split; [by left|]. intros [?|H]; [done|]. by apply elem_of_nil in H.
  - rewrite IH, elem_of_union, elem_of_singleton, elem_of_cons. tauto.
Qed.

Lemma initSet_onRead_elem data st t :
  t ∈ TAG_WORD_SET (initSet_onRead data st)
  ↔ t ∈ TAG_WORD_SET st
    ∨ ∃ d, data = Some d ∧ t ∈ split_on is_space d ∧ is_tag_word t = true.
Proof.
  unfold initSet_onRead. simpl. rewrite foldl_union_elem, list_elem_of_filter.
  split; (intros [?|H]; [by left|right]).
  - destruct H as [Ht Hin]. destruct data as [d|]; simpl in Hin.
    + by exists d.
    + apply list_elem_of_singleton in Hin as ->. done.
  - by destruct H as (d & -> & ? & ?).
Qed.

Lemma step_elem op s s' t :
  step op s = Some s' →
  t ∈ TAG_WORD_SET (tagList s')
  ↔ t ∈ TAG_WORD_SET (tagList s)
    ∨ ∃ p d, op = OpFileRead p (Some d) ∧ t ∈ split_on is_space d
             ∧ is_tag_word t = true.
Proof.
  destruct op as [|files|p data| |]; simpl.
  - unfold initSet_enter. destruct (STARTED_INIT (tagList s)); intros [= <-];
      simpl; split; try tauto; by intros [?|(? & ? & ? & _)].
  - destruct (awaiting s); [done|]. intros [= <-]. simpl.
    split; try tauto. by intros [?|(? & ? & ? & _)].
  - destruct (remove_first p (reading s)); simpl; [|done]. intros [= <-].
    cbn [tagList]. rewrite initSet_onRead_elem. split; (intros [?|H]; [by left|right]).
    + destruct H as (d & -> & ? & ?). by exists p, d.
    + destruct H as (p' & d & [= -> ->] & ? & ?). by exists d.
  - intros [= <-]. split; try tauto. by intros [?|(? & ? & ? & _)].
  - intros [= <-]. split; try tauto. by intros [?|(? & ? & ? & _)].
Qed.

Lemma run_elem ops s s' t :
  run ops s = Some s' →
  t ∈ TAG_WORD_SET (tagList s')
  ↔ t ∈ TAG_WORD_SET (tagList s)
    ∨ ∃ p d, OpFileRead p (Some d) ∈ ops ∧ t ∈ split_on is_space d
             ∧ is_tag_word t = true.
Proof.
  revert s. induction ops as [|op ops IH]; intros s; simpl.
  - intros [= <-]. split; [by left|]. intros [?|(p & d & H & _)]; [done|].
    by apply elem_of_nil in H.
  - destruct (step op s) as [s1|] eqn:E; simpl; [|done].
    intros Hrun. rewrite (IH _ Hrun), (step_elem _ _ _ _ E). split.
    + intros [[?|(p & d & -> & ? & ?)]|(p & d & ? & ? & ?)].
      * by left.
      * right. exists p, d. split; [apply elem_of_cons; by left|done].
      * right. exists p, d. split; [apply elem_of_cons; by right|done].
    + intros [?|(p & d & Hin & ? & ?)]; [by left; left|].
      apply elem_of_cons in Hin as [<-|Hin].
      * left; right. by exists p, d.
      * right. by exists p, d.
Qed.

(** X14.  The tag set holds what the reads brought, and nothing else.  After
    any run of the process from its start, a word is in the tag set exactly
    when it is a white-space delimited word of the data of a read that
    succeeded and is, as a whole, a hash sign followed by tag characters.  A
    read that failed adds nothing, and neither does any other turn. *)
Theorem tag_set_is_tags_of_reads (ops : list Op) (s' : Proc) (t : list ascii) :
  run ops Proc_initial = Some s' →
  t ∈ TAG_WORD_SET (tagList s')
  ↔ ∃ p d, OpFileRead p (Some d) ∈ ops ∧ t ∈ split_on is_space d
           ∧ is_tag_word t = true.
Proof.
  intros Hrun. rewrite (run_elem _ _ _ t Hrun). simpl. split.
  - intros [H|H]; [|done]. by apply elem_of_empty in H.
  - by right.
Qed.

Lemma tag_set_is_tags_of_reads_witness :
  ∃ s', run Scenario.tag_run Proc_initial = Some s'
        ∧ lit "#later" ∈ TAG_WORD_SET (tagList s').
Proof.
  eexists. split; [vm_compute; reflexivity|].
  refine (proj2 (tag_set_is_tags_of_reads Scenario.tag_run _ (lit "#later") _) _).
  - vm_compute. reflexivity.
  - exists (lit "/notes/project-plan.md"), (lit "plan #urgent and #later").
    split; [|split; [|reflexivity]].
    + unfold Scenario.tag_run. rewrite !elem_of_cons. tauto.
    + apply (bool_decide_unpack _). vm_compute. reflexivity.
Defined.

End TagOrigin.

(* ===================================================================== *)
(** * Tokens under the cursor, completion, and the way back *)
(* ===================================================================== *)

Section TokenFacts.
Import JS Extension.
Context `{Host}.

Lemma scanContextWord_cases document position cw :
  scanContextWord document position = Some cw →
  (∃ r, getWordRangeAtPosition document position TAG_REGEX___NO_ANCHORS = Some r
        ∧ getText document r ≠ []
        ∧ cw = mkContextWord Tag (drop_while is_hash (getText document r))
                 None (Some r))
  ∨ (∃ rg, getWordRangeAtPosition document position WIKI_LINK_REGEX = Some rg
       ∧ let r := mkRange (mkPosition (line (range_start rg))
                                      (character (range_start rg) + 2))
                          (range_end rg) in
         getText document r ≠ []
         ∧ cw = mkContextWord WikiLink (getText document r)
                  (Some (match_ext_anywhere note_exts (getText document r)))
                  (Some r)).
Proof.
  unfold scanContextWord.
  destruct (getWordRangeAtPosition document position TAG_REGEX___NO_ANCHORS
            ≫= _) as [t|] eqn:Et.
  - intros [= <-]. left.
    destruct (getWordRangeAtPosition document position TAG_REGEX___NO_ANCHORS)
      as [r|]; [|done].
    simpl in Et. exists r. split; [done|].
    destruct (getText document r) eqn:E; [done|].
    split; [done|]. by injection Et as <-.
  - intros Hl. right.
    destruct (getWordRangeAtPosition document position WIKI_LINK_REGEX)
      as [rg|]; [|done].
    simpl in Hl. exists rg. split; [done|]. cbv zeta.
    destruct (getText document _) eqn:E; [done|].
    split; [done|]. by injection Hl as <-.
Qed.

Lemma getContextWord_scanned nullWord document position cw :
  scanContextWord document position = Some cw →
  getContextWord nullWord document position = cw.
Proof. unfold getContextWord. by intros ->. Qed.

Lemma getContextWord_nothing nullWord document position :
  scanContextWord document position = None →
  getContextWord nullWord document position = nullWord.
Proof. unfold getContextWord. by intros ->. Qed.

(** X15.  What a token found under the cursor looks like.  It is a tag or a
    link, never the null token, whatever the shared null token holds, and it
    always carries its range.  A tag has no extension flag and its word starts
    with no hash sign; a link has a word that is not empty, which is the text
    of its range, and its flag is set. *)
Theorem scanned_token_shape document position (cw : ContextWord) :
  scanContextWord document position = Some cw →
  type cw ≠ Null
  ∧ (∀ nullWord, getContextWord nullWord document position = cw)
  ∧ (∃ r, range cw = Some r
          ∧ (type cw = WikiLink → getText document r = word cw))
  ∧ (type cw = Tag → hasExtension cw = None ∧ stops is_hash (word cw))
  ∧ (type cw = WikiLink →
       word cw ≠ []
       ∧ hasExtension cw = Some (match_ext_anywhere note_exts (word cw))).
Proof.
  intros Hs. split; [|split].
  - by destruct (scanContextWord_cases _ _ _ Hs)
      as [(r & _ & _ & ->)|(rg & _ & _ & ->)].
  - intros nullWord. by apply getContextWord_scanned.
  - destruct (scanContextWord_cases _ _ _ Hs)
      as [(r & _ & _ & ->)|(rg & _ & Hne & ->)]; simpl.
    + split; [by exists r|]. split; [|done]. intros _. split; [done|].
      apply drop_while_stops.
    + split; [by eexists|]. split; [done|]. by intros _.
Qed.

(** X16.  Completion for a tag asks the host for nothing.  The labels offered
    are the words of the tag set, each one once, and every item replaces the
    range of the token under the cursor. *)
Theorem tag_completion_items cfg env nullWord tags document position
    (cw : ContextWord) (w : World) :
  scanContextWord document position = Some cw → type cw = Tag →
  ∃ items,
    provideCompletionItems cfg env nullWord tags document position w = (items, w)
    ∧ NoDup (label <$> items)
    ∧ (∀ t, t ∈ label <$> items ↔ t ∈ TAG_WORD_SET tags)
    ∧ Forall (λ i, item_range i = range cw ∧ is_Some (item_range i)) items.
Proof.
  intros Hs Ht. unfold provideCompletionItems.
  rewrite (getContextWord_scanned _ _ _ _ Hs), Ht.
  eexists. split; [reflexivity|].
  rewrite <- list_fmap_compose.
  assert (Hid : (label ∘ λ t, mkCompletionItem t File (range cw)) = id) by done.
  rewrite Hid, list_fmap_id. split; [apply NoDup_elements|]. split.
  - intros t. apply elem_of_elements.
  - apply Forall_fmap, Forall_forall. intros t _. simpl. split; [done|].
    destruct (scanContextWord_cases _ _ _ Hs)
      as [(r & _ & _ & ->)|(rg & _ & _ & ->)]; by eexists.
Qed.

(** X17.  A search for references with nothing under the cursor changes what
    completion does afterwards.  Before it, completion at a place with no
    token offers nothing and asks for nothing.  After it, the shared null
    token counts as a link: completion at any place with no token lists one
    item for every note file of the corpus, with no range to replace.  The
    definition provider still finds nothing at such a place. *)
Theorem completion_after_search_on_nothing cfg env tags
    document position document' position' (w w' : World) :
  scanContextWord document position = None →
  scanContextWord document' position' = None →
  let nullWord' :=
    (provideReferences env NULL_CONTEXT_WORD document position w).1.2 in
  provideCompletionItems cfg env NULL_CONTEXT_WORD tags document' position' w'
  = ([], w')
  ∧ (provideCompletionItems cfg env nullWord' tags document' position' w').1
    = (λ f, mkCompletionItem (filenameForConvention cfg env f document') File None)
        <$> filter (λ f, is_note_file f = true) (workspaceFiles env)
  ∧ provideDefinition cfg env nullWord' document' position' w' = ([], w').
Proof.
  intros Hs Hs' nullWord'.
  assert (Hn : nullWord' = mkContextWord WikiLink [] None None).
  { unfold nullWord', provideReferences. rewrite Hs.
    by rewrite (search_run env NULL_CONTEXT_WORD w (lit "[[]]")
                  (mkContextWord WikiLink [] None None)). }
  rewrite Hn. unfold provideCompletionItems, provideDefinition.
  rewrite !(getContextWord_nothing _ _ _ Hs'). by repeat split.
Qed.

(** X18.  Completion and definition fit together under unique file names.
    Every label offered for a link is the base name of a note file of the
    corpus.  When that label later stands under the cursor as a link,
    definition leads to the file, without touching the file system, provided
    the label itself shows an extension; a note file whose extension shows
    only in a directory of its path gets a label that definition does not
    resolve. *)
Theorem completion_label_resolves cfg env nullWord tags document position
    (w : World) (item : CompletionItem) document' position'
    (cw' : ContextWord) (w' : World) :
  useUniqueFilenames cfg = true →
  type (getContextWord nullWord document position) = WikiLink →
  item ∈ (provideCompletionItems cfg env nullWord tags document position w).1 →
  scanContextWord document' position' = Some cw' →
  type cw' = WikiLink → word cw' = label item →
  ∃ f, f ∈ workspaceFiles env ∧ is_note_file f = true
       ∧ label item = Path.basename (path f)
       ∧ if match_ext_anywhere note_exts (label item)
         then at_top f
              ∈ (provideDefinition cfg env nullWord document' position' w').1
              ∧ fs (provideDefinition cfg env nullWord document' position' w').2
                = fs w'
         else provideDefinition cfg env nullWord document' position' w'
              = ([], w').
Proof.
  intros Hu Ht Hitem Hs' Ht' Hw'.
  unfold provideCompletionItems in Hitem. rewrite Ht in Hitem.
  simpl in Hitem. apply list_elem_of_fmap in Hitem as (f & -> & Hf).
  apply list_elem_of_filter in Hf as [Hnote Hf].
  exists f. split; [done|]. split; [done|].
  simpl in *. unfold filenameForConvention in *. rewrite Hu in *.
  split; [done|].
  pose proof (getContextWord_scanned nullWord _ _ _ Hs') as Hcw.
  pose proof (scanContextWord_hasExtension _ _ _ Hs' Ht') as Hx.
  rewrite Hw' in Hx.
  destruct (match_ext_anywhere note_exts (Path.basename (path f))) eqn:E.
  - destruct (Extension_provideDefinition_ordered cfg env nullWord
                document' position' w') as (H1 & _).
    { by rewrite Hcw. }
    { by rewrite Hcw, Hx. }
    rewrite Hcw, Hu, Hw' in H1.
    assert (Hin : f ∈ filter (λ f0, Path.basename (path f0)
                                    = Path.basename (path f))
                    (workspaceFiles env)).
    { by apply list_elem_of_filter. }
    rewrite H1.
    2:{ intros Hnil. rewrite Hnil in Hin. by apply elem_of_nil in Hin. }
    split; [|done]. simpl. apply list_elem_of_fmap. by exists f.
  - unfold provideDefinition. rewrite Hcw, Ht', Hx. done.
Qed.
End TokenFacts.

Section TokenWitnesses.
Import JS Extension.

Lemma scanned_token_shape_witness :
  ∃ cw, scanContextWord (H := LineHost.host) Scenario.document (mkPosition 0 27)
        = Some cw
        ∧ type cw ≠ Null.
Proof.
  eexists. split; [vm_compute; reflexivity|].
  refine (proj1 (scanned_token_shape (H := LineHost.host) Scenario.document
                   (mkPosition 0 27) _ _)).
  vm_compute. reflexivity.
Defined.

Lemma tag_completion_items_witness :
  ∃ items,
    provideCompletionItems (H := LineHost.host) Scenario.unique_settings
      Scenario.env NULL_CONTEXT_WORD
      (mkTagList {[ lit "#urgent" ]} true true)
      Scenario.document (mkPosition 0 27) Scenario.world
    = (items, Scenario.world)
    ∧ NoDup (label <$> items).
Proof.
  destruct (tag_completion_items (H := LineHost.host) Scenario.unique_settings
              Scenario.env NULL_CONTEXT_WORD
              (mkTagList {[ lit "#urgent" ]} true true)
              Scenario.document (mkPosition 0 27)
              (mkContextWord Tag (lit "urgent") None
                 (Some (mkRange (mkPosition 0 25) (mkPosition 0 32))))
              Scenario.world)
    as (items & H1 & H2 & _).
  - vm_compute. reflexivity.
  - reflexivity.
  - exists items. split; [exact H1|exact H2].
Defined.

Lemma completion_after_search_on_nothing_witness :
  (provideCompletionItems (H := LineHost.host) Scenario.unique_settings
     Scenario.env
     (provideReferences (H := LineHost.host) Scenario.env NULL_CONTEXT_WORD
        Scenario.document (mkPosition 0 0) Scenario.world).1.2
     TagList_initial linking_document (mkPosition 1 3) Scenario.world).1
  = [mkCompletionItem (lit "project-plan.md") File None;
     mkCompletionItem (lit "other.md") File None].
Proof.
  refine (eq_trans (proj1 (proj2 (completion_after_search_on_nothing
    (H := LineHost.host) Scenario.unique_settings Scenario.env TagList_initial
    Scenario.document (mkPosition 0 0) linking_document (mkPosition 1 3)
    Scenario.world Scenario.world _ _))) _).
  - vm_compute. reflexivity.
  - vm_compute. reflexivity.
  - vm_compute. reflexivity.
Defined.

Lemma completion_label_resolves_witness :
  at_top (Uri_file (lit "/notes/project-plan.md"))
  ∈ (provideDefinition (H := LineHost.host) Scenario.unique_settings Scenario.env
       NULL_CONTEXT_WORD linking_document (mkPosition 0 10) Scenario.world).1.
Proof.
  destruct (completion_label_resolves (H := LineHost.host)
              Scenario.unique_settings Scenario.env NULL_CONTEXT_WORD
              TagList_initial Scenario.document (mkPosition 0 6) Scenario.world
              (mkCompletionItem (lit "project-plan.md") File
                 (Some (mkRange (mkPosition 0 6) (mkPosition 0 13))))
              linking_document (mkPosition 0 10)
              (mkContextWord WikiLink (lit "project-plan.md") (Some true)
                 (Some (mkRange (mkPosition 0 8) (mkPosition 0 23))))
              Scenario.world)
    as (f & Hf & _ & Hl & Hres).
  - reflexivity.
  - vm_compute. reflexivity.
  - apply (list_elem_of_lookup_2 _ 0). vm_compute. reflexivity.
  - vm_compute. reflexivity.
  - reflexivity.
  - reflexivity.
  - change (match_ext_anywhere note_exts _) with true in Hres.
    destruct Hres as [Hres _].
    unfold Scenario.env, Scenario.corpus in Hf. simpl in Hf.
    apply elem_of_cons in Hf as [->|Hf]; [exact Hres|].
    apply list_elem_of_singleton in Hf as ->. vm_compute in Hl. discriminate.
Defined.
End TokenWitnesses.

(* ===================================================================== *)
(** * The key of a note file, and the labels completion offers for it *)
(* ===================================================================== *)

Section NoteFileKey.
Import JS NoteWorkspace MarkdownDefinitionProvider.

Lemma match_ext_end_inv exts l s :
  match_ext_end exts l = Some s →
  ∃ e, l = s ++ "." :: e ∧ toLowerCase e ∈ exts.
Proof.
  revert s. induction l as [|c l IH]; intros s; [done|].
  change (match_ext_end exts (c :: l)) with
    (if is_dot_ext exts (c :: l) then Some []
     else cons c <$> match_ext_end exts l).
  rewrite is_dot_ext_cons.
  destruct (ascii_eqb c "." && bool_decide (toLowerCase l ∈ exts)) eqn:E.
  - intros [= <-]. apply andb_true_iff in E as [Hc He].
    apply ascii_eqb_eq in Hc as ->. apply bool_decide_eq_true in He.
    by exists l.
  - destruct (match_ext_end exts l) as [s'|]; [|done]. intros [= <-].
    destruct (IH s' eq_refl) as (e & -> & He). by exists e.
Qed.

Lemma last_segment_split a :
  Forall (λ c, Path.is_slash c = false) (last_segment a)
  ∧ (a = last_segment a ∨ ∃ dir, a = dir ++ "/" :: last_segment a).
Proof.
  unfold last_segment. induction a as [|x a [IH1 IH2]]; [by split; [|left]|].
  simpl. destruct (Path.is_slash x) eqn:Ex.
  - assert (x = "/") as -> by by apply ascii_eqb_eq.
    pose proof (split_on_nonempty Path.is_slash a) as Hne.
    destruct (split_on Path.is_slash a) as [|h t] eqn:E; [done|].
    split; [done|]. right. destruct IH2 as [IH2|[dir IH2]].
    + exists []. by rewrite IH2 at 1.
    + exists ("/" :: dir). by rewrite IH2 at 1.
  - pose proof (split_on_nonempty Path.is_slash a) as Hne.
    destruct (split_on Path.is_slash a) as [|h t] eqn:E; [done|].
    destruct t as [|h' t'].
    + simpl in *. split; [by constructor|]. left.
      destruct IH2 as [IH2|[dir IH2]]; [by rewrite IH2 at 1|].
      exfalso. rewrite IH2 in E. rewrite split_on_app in E by done.
      apply (f_equal length) in E. rewrite length_app in E.
      pose proof (split_on_nonempty Path.is_slash dir).
      pose proof (split_on_nonempty Path.is_slash h).
      destruct (split_on Path.is_slash dir), (split_on Path.is_slash h);
        try done. simpl in E. lia.
    + split; [done|]. right. destruct IH2 as [IH2|[dir IH2]].
      * exfalso. rewrite IH2 in E at 1. rewrite split_on_none in E by done.
        done.
      * exists (x :: dir). by rewrite IH2 at 1.
Qed.

Lemma last_segment_plain n :
  Forall (λ c, Path.is_slash c = false) n → last_segment n = n.
Proof. intros Hn. unfold last_segment. by rewrite split_on_none. Qed.

Lemma last_segment_app s k :
  Forall (λ c, Path.is_slash c = false) k →
  last_segment (s ++ k) = last_segment s ++ k.
Proof.
  intros Hk. destruct (last_segment_split s) as [Hseg [Hs|[dir Hs]]].
  - rewrite Hs at 1. apply last_segment_plain. by apply Forall_app.
  - rewrite Hs at 1. rewrite <- app_assoc. simpl. unfold last_segment at 1.
    rewrite split_on_app by done.
    rewrite (split_on_none _ (last_segment s ++ k)) by by apply Forall_app.
    by rewrite List_last_app.
Qed.

Lemma basename_app_plain s k :
  k ≠ [] → Forall (λ c, Path.is_slash c = false) k →
  Path.basename (s ++ k) = last_segment s ++ k.
Proof.
  intros Hne Hk. unfold Path.basename.
  rewrite strip_trailing_app_keep by done. by apply last_segment_app.
Qed.

Lemma last_segment_remove_all s :
  last_segment (remove_all is_bracket s) = remove_all is_bracket (last_segment s).
Proof.
  assert (Hkeep : ∀ n, Forall (λ c, Path.is_slash c = false) n →
            Forall (λ c, Path.is_slash c = false) (remove_all is_bracket n)).
  { intros n Hn. apply Forall_forall. intros c Hc. unfold remove_all in Hc.
    apply list_elem_of_filter in Hc as [_ Hc].
    rewrite Forall_forall in Hn. by apply Hn. }
  destruct (last_segment_split s) as [Hseg [Hs|[dir Hs]]].
  - rewrite Hs at 1. by apply last_segment_plain, Hkeep.
  - rewrite Hs at 1. rewrite remove_all_app.
    change (remove_all is_bracket ("/" :: last_segment s))
      with ("/" :: remove_all is_bracket (last_segment s)).
    unfold last_segment at 1. rewrite split_on_app by done.
    rewrite (split_on_none _ (remove_all is_bracket (last_segment s)))
      by by apply Hkeep.
    by rewrite List_last_app.
Qed.

Lemma extension_chars e :
  toLowerCase e ∈ rxFileExtensions →
  Forall (λ c, Path.is_slash c = false) ("." :: e)
  ∧ Forall (λ c, is_bracket c = false) ("." :: e).
Proof.
  intros He. pose proof (recognized_extension_plain e He) as Hp.
  split; (constructor; [done|]); eapply Forall_impl; try exact Hp;
    intros c; simpl; unfold plain_char;
    destruct (is_bracket c), (Path.is_slash c); done.
Qed.

Lemma note_path_key cfg p s :
  match_ext_end rxFileExtensions p = Some s →
  normalizeNoteNameForFuzzyMatch cfg p
  = slugifyTitle cfg (remove_all is_bracket (last_segment s))
  ∧ ∃ e, toLowerCase e ∈ rxFileExtensions
         ∧ Path.basename p = last_segment s ++ "." :: e.
Proof.
  intros Hm. destruct (match_ext_end_inv _ _ _ Hm) as (e & -> & He).
  destruct (extension_chars e He) as [Hslash Hbr]. split.
  - unfold normalizeNoteNameForFuzzyMatch.
    rewrite remove_all_app, (remove_all_none is_bracket ("." :: e)) by done.
    rewrite basename_app_plain by done.
    unfold stripExtension.
    rewrite match_ext_end_app by (done || apply rxFileExtensions_no_dot).
    simpl. by rewrite last_segment_remove_all.
  - exists e. split; [done|]. by apply basename_app_plain.
Qed.

(** X19.  The key of a note file.  The base name of a note file is a stem, a
    dot and a recognized extension, and the key under which the file is
    matched is the slug of that stem with its brackets removed: directories
    and the extension play no part, and the file matches its own base name. *)
Theorem note_file_key cfg (f : Uri) :
  is_note_file f = true →
  ∃ stem e,
    Path.basename (fsPath f) = stem ++ "." :: e
    ∧ toLowerCase e ∈ rxFileExtensions
    ∧ Forall (λ c, Path.is_slash c = false) stem
    ∧ normalizeNoteNameForFuzzyMatch cfg (fsPath f)
      = slugifyTitle cfg (remove_all is_bracket stem)
    ∧ noteNamesFuzzyMatch cfg (fsPath f) (Path.basename (fsPath f)) = true.
Proof.
  unfold is_note_file. intros Hf. apply andb_true_iff in Hf as [_ Hf].
  apply bool_decide_eq_true in Hf as [s Hs]. unfold fsPath.
  destruct (note_path_key cfg _ _ Hs) as (Hkey & e & He & Hb).
  exists (last_segment s), e. split; [done|]. split; [done|].
  split; [apply last_segment_split|]. split; [done|].
  unfold noteNamesFuzzyMatch. apply str_eqb_eq. rewrite Hkey, Hb.
  assert (Hm : match_ext_end rxFileExtensions (last_segment s ++ "." :: e)
               = Some (last_segment s)).
  { apply match_ext_end_app; [apply rxFileExtensions_no_dot|done]. }
  destruct (note_path_key cfg _ _ Hm) as (-> & _).
  f_equal. f_equal. symmetry. apply last_segment_plain, last_segment_split.
Qed.

Lemma note_file_key_witness :
  ∃ stem e,
    Path.basename (lit "/notes/My Notes/other.md") = stem ++ "." :: e
    ∧ normalizeNoteNameForFuzzyMatch DEFAULT_CONFIG (lit "/notes/My Notes/other.md")
      = slugifyTitle DEFAULT_CONFIG (remove_all is_bracket stem).
Proof.
  destruct (note_file_key DEFAULT_CONFIG (Uri_file (lit "/notes/My Notes/other.md")))
    as (stem & e & H1 & _ & _ & H2 & _).
  - vm_compute. reflexivity.
  - by exists stem, e.
Defined.

Lemma provideDefinition_matches cfg env document (ref : Ref) (w : World) :
  useUniqueFilenames cfg = true → type ref = WikiLink →
  fuzzyMatches cfg env (word ref) ≠ [] →
  provideDefinition cfg env document ref w
  = (at_top <$> fuzzyMatches cfg env (word ref),
     mkWorld (fs w) (trace w ++ [EvFindFiles])).
Proof.
  intros Hu Ht Hne. unfold provideDefinition. rewrite Ht.
  rewrite bool_decide_eq_true_2 by done. change (negb true) with false.
  unfold mbind, M_bind, mret, M_ret. cbv beta iota.
  rewrite uniqueNameStep_run, Hu.
  assert (bool_decide (length (fuzzyMatches cfg env (word ref)) = 0) = false)
    as Hlen.
  { apply bool_decide_eq_false. by destruct (fuzzyMatches cfg env (word ref)). }
  rewrite Hlen. cbv beta iota. by rewrite Hlen.
Qed.

(** X20.  Completion and definition fit together under unique file names.  The
    label offered for a note file is its base name, or that name without its
    extension; the first always fuzzy-matches the file, the second does unless
    what is left ends in a recognized extension of its own.  A link whose text
    fuzzy-matches a note file of the corpus resolves to that file, and nothing
    is written on the way. *)
Theorem completion_label_fuzzy_matches cfg env (f : Uri) fromDocument :
  useUniqueFilenames cfg = true →
  is_note_file f = true →
  let label := wikiLinkCompletionForConvention cfg env f fromDocument in
  (noteCompletionConvention cfg = rawFilename →
     label = Path.basename (fsPath f)
     ∧ noteNamesFuzzyMatch cfg (fsPath f) label = true)
  ∧ (noteCompletionConvention cfg = noExtension →
       match_ext_end rxFileExtensions (remove_all is_bracket label) = None →
       noteNamesFuzzyMatch cfg (fsPath f) label = true)
  ∧ (f ∈ workspaceFiles env →
     noteNamesFuzzyMatch cfg (fsPath f) label = true →
     ∀ document (ref : Ref) (w : World),
       type ref = WikiLink → word ref = label →
       at_top f ∈ (provideDefinition cfg env document ref w).1
       ∧ fs (provideDefinition cfg env document ref w).2 = fs w).
Proof.
  intros Hu Hnote label. unfold label, wikiLinkCompletionForConvention.
  rewrite Hu. cbv zeta.
  pose proof Hnote as Hf. unfold is_note_file in Hf.
  apply andb_true_iff in Hf as [_ Hf].
  apply bool_decide_eq_true in Hf as [s Hs]. unfold fsPath in *.
  destruct (note_path_key cfg _ _ Hs) as (Hkey & e & He & Hb).
  assert (Hseg : Forall (λ c, Path.is_slash c = false) (last_segment s))
    by apply last_segment_split.
  assert (Hm : match_ext_end rxFileExtensions (last_segment s ++ "." :: e)
               = Some (last_segment s)).
  { apply match_ext_end_app; [apply rxFileExtensions_no_dot|done]. }
  split; [|split].
  - intros ->. split; [done|]. simpl.
    unfold noteNamesFuzzyMatch. apply str_eqb_eq. rewrite Hkey, Hb.
    destruct (note_path_key cfg _ _ Hm) as (-> & _).
    by rewrite (last_segment_plain (last_segment s)).
  - intros ->. simpl. unfold stripExtension. rewrite Hb, Hm. simpl.
    intros Hnone. unfold noteNamesFuzzyMatch. apply str_eqb_eq. rewrite Hkey.
    unfold normalizeNoteNameForFuzzyMatch.
    assert (Hkeep : Forall (λ c, Path.is_slash c = false)
                      (remove_all is_bracket (last_segment s))).
    { apply Forall_forall. intros c Hc. unfold remove_all in Hc.
      apply list_elem_of_filter in Hc as [_ Hc].
      rewrite Forall_forall in Hseg. by apply Hseg. }
    rewrite basename_plain by done. unfold stripExtension. by rewrite Hnone.
  - intros Hin Hmatch document ref w Ht Hw.
    assert (Hfm : f ∈ fuzzyMatches cfg env (word ref)).
    { unfold fuzzyMatches. rewrite Hw.
      apply list_elem_of_filter. split; [done|].
      by apply list_elem_of_filter. }
    rewrite provideDefinition_matches; [| done | done |].
    2:{ intros Hnil. rewrite Hnil in Hfm. by apply elem_of_nil in Hfm. }
    split; [|done]. simpl. apply list_elem_of_fmap. by exists f.
Qed.

Lemma completion_label_fuzzy_matches_witness :
  wikiLinkCompletionForConvention DEFAULT_CONFIG Scenario.env
    (Uri_file (lit "/notes/My Notes/other.md")) Scenario.document
  = lit "other.md"
  ∧ noteNamesFuzzyMatch DEFAULT_CONFIG (lit "/notes/My Notes/other.md")
      (lit "other.md") = true.
Proof.
  exact (proj1 (completion_label_fuzzy_matches DEFAULT_CONFIG Scenario.env
                  (Uri_file (lit "/notes/My Notes/other.md")) Scenario.document
                  eq_refl eq_refl) eq_refl).
Defined.
End NoteFileKey.

(* ===================================================================== *)
(** * The new-note command, run once and run again *)
(* ===================================================================== *)

Section NewNoteRuns.
Import JS.

Lemma remove_all_space_nil noteName :
  remove_all is_space noteName = [] ↔ Forall (λ c, is_space c = true) noteName.
Proof.
  unfold remove_all. induction noteName as [|c l IH]; [by split|].
  destruct (is_space c) eqn:E.
  - rewrite filter_cons_False by congruence. rewrite IH. split.
    + by constructor.
    + by inversion 1.
  - rewrite filter_cons_True by done. split; [done|].
    inversion 1; congruence.
Qed.

Lemma accepted_title_iff noteName :
  accepted_title noteName ↔ ¬ Forall (λ c, is_space c = true) noteName.
Proof.
  unfold accepted_title. rewrite remove_all_space_nil. split; [tauto|].
  intros H. split; [|done]. intros ->. by apply H.
Qed.



Lemma newNote_outcome_trace env p noteName w :
  newNote_outcome env p noteName w ≠ (tt, w).
Proof.
  unfold newNote_outcome. intros H.
  assert (∀ evs, length (trace w ++ EvExistsSync p :: evs) ≠ length (trace w))
    as Hlen by (intros evs; rewrite length_app; simpl; lia).
  case_bool_decide; injection H as H; apply (f_equal trace) in H;
    simpl in H; apply (f_equal length) in H; by apply Hlen in H.
Qed.



(** X22.  A title of white space does nothing.  The command returns without a
    single call to the host exactly when the input box was dismissed or the
    title has no character that is not white space; in every other case the
    host is called.  This holds for both versions of the command. *)
Theorem newNote_blank_title cfg env (input : Extension.InputBox) (w : World) :
  let blank :=
    match input with
    | Extension.InputResolved (Some noteName) =>
        Forall (λ c, is_space c = true) noteName
    | Extension.InputResolved None => True
    | Extension.InputRejected => False
    end in
  (Extension.newNote env input w = (tt, w) ↔ blank)
  ∧ (NoteWorkspace.newNote cfg env input w = (tt, w) ↔ blank).
Proof.
  assert (Herr : ∀ msg, (tt, mkWorld (fs w) (trace w ++ [EvShowErrorMessage msg]))
                        ≠ (tt, w)).
  { intros msg H. injection H as H. apply (f_equal trace) in H.
    apply (f_equal length) in H. simpl in H. rewrite length_app in H.
    simpl in H. lia. }
  destruct input as [[noteName|]|]; cbv beta iota zeta.
  - destruct (decide (accepted_title noteName)) as [Hacc|Hacc].
    + rewrite Extension_newNote_run, NoteWorkspace_newNote_run by done.
      apply accepted_title_iff in Hacc.
      split; (split; [intros H; by apply newNote_outcome_trace in H|done]).
    + assert (Hb : Forall (λ c, is_space c = true) noteName).
      { destruct (decide (Forall (λ c, is_space c = true) noteName)); [done|].
        destruct Hacc. by apply accepted_title_iff. }
      assert (str_eqb noteName [] || str_eqb (remove_all is_space noteName) []
              = true) as Ht.
      { apply orb_true_intro. right. apply str_eqb_eq.
        by apply remove_all_space_nil. }
      unfold Extension.newNote, NoteWorkspace.newNote. by rewrite Ht.
  - done.
  - unfold showErrorMessage, emit. split; (split; [intros H|done]).
    + by apply Herr in H.
    + by apply Herr in H.
Qed.
End NewNoteRuns.

(* ===================================================================== *)
(** * The note created by the definition provider *)
(* ===================================================================== *)

Section CreatedNote.
Import JS.

Lemma Forall_join (P : ascii → Prop) sep ws :
  Forall P sep → Forall (Forall P) ws → Forall P (join sep ws).
Proof.
  intros Hs Hws. induction Hws as [|w ws Hw Hws IH]; [constructor|].
  destruct ws as [|w' ws']; [done|].
  change (join sep (w :: w' :: ws')) with (w ++ sep ++ join sep (w' :: ws')).
  rewrite !Forall_app. auto.
Qed.

Lemma Forall_imap_intro {A B} (Q : B → Prop) (R : A → Prop)
    (f : nat → A → B) (l : list A) :
  Forall R l → (∀ i x, R x → Q (f i x)) → Forall Q (imap f l).
Proof.
  intros Hl. revert f. induction Hl as [|x l Hx _ IH]; intros f Hf;
    [constructor|].
  rewrite imap_cons. constructor; [by apply Hf|].
  apply IH. intros i y. apply Hf.
Qed.

Lemma split_on_Forall (P : ascii → Prop) (p : ascii → bool) l :
  Forall P l → Forall (Forall P) (split_on p l).
Proof.
  induction 1 as [|c l Hc _ IH]; simpl; [by repeat constructor|].
  destruct (p c); [by constructor|].
  destruct (split_on p l) as [|h t]; [by repeat constructor|].
  apply Forall_cons in IH as [Hh Ht]. by repeat constructor.
Qed.

Lemma drop_while_Forall (P : ascii → Prop) (p : ascii → bool) l :
  Forall P l → Forall P (drop_while p l).
Proof.
  induction 1 as [|c l Hc Hl IH]; simpl; [constructor|].
  destruct (p c); [done|by constructor].
Qed.

Lemma replace_first_run_Forall (P : ascii → Prop) (p : ascii → bool) sep l :
  Forall P sep → Forall P l → Forall P (replace_first_run p sep l).
Proof.
  intros Hs. induction 1 as [|c l Hc Hl IH]; simpl; [constructor|].
  destruct (p c); [|by constructor].
  apply Forall_app. split; [done|]. by apply drop_while_Forall.
Qed.

Lemma toUpperCase1_title_char c :
  Extension.is_dash_underscore c = false → is_space c = false →
  Extension.is_dash_underscore (toUpperCase1 c) = false
  ∧ is_space (toUpperCase1 c) = false.
Proof. destruct c as [[] [] [] [] [] [] [] []]; vm_compute; done. Qed.

Lemma titleCaseWord_chars n i w :
  Forall (λ c, Extension.is_dash_underscore c = false ∧ is_space c = false) w →
  Forall title_char (Extension.titleCaseWord n i w).
Proof.
  intros Hw.
  assert (Hsame : Forall title_char w).
  { eapply Forall_impl; [exact Hw|]. intros c [H1 H2]. split; [done|].
    congruence. }
  assert (Hcap : Forall title_char (Extension.capitalize w)).
  { destruct Hw as [|c w [H1 H2] Hw]; [constructor|]. simpl.
    apply Forall_cons in Hsame as [_ Hsame]. constructor; [|done].
    destruct (toUpperCase1_title_char c H1 H2) as [H3 H4].
    split; [done|]. congruence. }
  unfold Extension.titleCaseWord.
  destruct (_ || _); [done|]. by case_bool_decide.
Qed.

Lemma titleCase_chars sentence :
  Forall (λ c, Extension.is_dash_underscore c = false) sentence →
  Forall title_char (Extension.titleCase sentence).
Proof.
  intros Hs. destruct sentence as [|c s]; [constructor|].
  unfold Extension.titleCase. apply Forall_join.
  { by repeat constructor. }
  apply (Forall_imap_intro _
           (Forall (λ c, Extension.is_dash_underscore c = false
                         ∧ is_space c = false))).
  - pose proof (split_on_pieces is_space (c :: s)) as H1.
    pose proof (split_on_Forall _ is_space _ Hs) as H2.
    rewrite Forall_forall in H1, H2. apply Forall_forall. intros w Hw.
    specialize (H1 w Hw). specialize (H2 w Hw).
    rewrite Forall_forall in H1, H2. apply Forall_forall. intros x Hx.
    split; [by apply H2|by apply H1].
  - intros i w. apply titleCaseWord_chars.
Qed.

(** X23.  The heading made from a file name.  The title has no dash and no
    underscore left, and the only white space in it is the space. *)
Theorem titleCaseFilename_chars (filename : list ascii) :
  Forall title_char (Extension.titleCaseFilename filename).
Proof.
  destruct filename as [|c f]; [constructor|].
  unfold Extension.titleCaseFilename. apply titleCase_chars.
  apply replace_first_run_Forall; [by repeat constructor|].
  unfold replace_each. apply Forall_fmap, Forall_forall. intros x _. simpl.
  by destruct (Extension.is_dash_underscore x) eqn:E.
Qed.





End CreatedNote.

(* ===================================================================== *)
(** * Relative paths: from a completion label back to its file *)
(* ===================================================================== *)

Section RelativePaths.
Import JS.

Lemma push_clean b st seg :
  clean_segment seg → Path.push_segment b st seg = seg :: st.
Proof.
  intros (H1 & H2 & H3 & _). unfold Path.push_segment.
  by rewrite !bool_decide_eq_false_2.
Qed.

Lemma push_up top st :
  clean_segment top →
  Path.push_segment false (top :: st) (lit "..") = st.
Proof.
  intros (_ & _ & H3 & _). unfold Path.push_segment.
  rewrite (bool_decide_eq_false_2 (lit ".." = [])) by done.
  rewrite (bool_decide_eq_false_2 (lit ".." = lit ".")) by done.
  rewrite (bool_decide_eq_true_2 (lit ".." = lit "..")) by done.
  by rewrite bool_decide_eq_false_2.
Qed.

Lemma push_keeps_clean st seg :
  Forall (λ c, Path.is_slash c = false) seg → Forall clean_segment st →
  Forall clean_segment (Path.push_segment false st seg).
Proof.
  intros Hseg Hst. unfold Path.push_segment.
  destruct (decide (seg = [])) as [->|H1]; [done|].
  rewrite (bool_decide_eq_false_2 (seg = [])) by done.
  destruct (decide (seg = lit ".")) as [->|H2]; [done|].
  rewrite (bool_decide_eq_false_2 (seg = lit ".")) by done.
  destruct (decide (seg = lit "..")) as [->|H3].
  - destruct Hst as [|top rest Htop Hrest]; [constructor|].
    cbn [orb]. rewrite (bool_decide_eq_true_2 (lit ".." = lit "..")) by done.
    case_bool_decide; [by constructor|done].
  - cbn [orb]. rewrite (bool_decide_eq_false_2 (seg = lit "..")) by done.
    constructor; [|done]. by repeat split.
Qed.

Lemma foldl_push_keeps_clean st segs :
  Forall (Forall (λ c, Path.is_slash c = false)) segs →
  Forall clean_segment st →
  Forall clean_segment (foldl (Path.push_segment false) st segs).
Proof.
  intros Hsegs. revert st. induction Hsegs as [|seg segs Hseg _ IH];
    intros st Hst; simpl; [done|].
  apply IH. by apply push_keeps_clean.
Qed.

Lemma canon_clean p : Forall clean_segment (canon p).
Proof.
  unfold canon. apply Forall_rev, foldl_push_keeps_clean; [|constructor].
  apply split_on_pieces.
Qed.

Lemma foldl_push_clean b st segs :
  Forall clean_segment segs →
  foldl (Path.push_segment b) st segs = rev segs ++ st.
Proof.
  intros Hsegs. revert st. induction Hsegs as [|seg segs Hseg _ IH];
    intros st; simpl; [done|].
  rewrite push_clean by done. rewrite IH. by rewrite <- app_assoc.
Qed.

Lemma foldl_push_ups up st :
  Forall clean_segment up →
  foldl (Path.push_segment false) (rev up ++ st)
    (replicate (length up) (lit ".."))
  = st.
Proof.
  intros Hup. revert st. induction Hup as [|x up Hx _ IH]; intros st; [done|].
  change (length (x :: up)) with (S (length up)).
  rewrite replicate_S_end, foldl_app. simpl rev. rewrite <- app_assoc.
  rewrite IH. simpl. by apply push_up.
Qed.

Lemma push_empty b st : Path.push_segment b st [] = st.
Proof. unfold Path.push_segment. by rewrite bool_decide_eq_true_2. Qed.

Lemma push_dot b st : Path.push_segment b st (lit ".") = st.
Proof.
  unfold Path.push_segment.
  rewrite (bool_decide_eq_true_2 (lit "." = lit ".")) by done.
  by rewrite orb_true_r.
Qed.

Lemma split_on_trailing p :
  split_on Path.is_slash (p ++ lit "/") = split_on Path.is_slash p ++ [[]].
Proof.
  change (p ++ lit "/") with (p ++ "/" :: []).
  by rewrite (split_on_app Path.is_slash p "/" []).
Qed.

Lemma resolve_abs cwd p :
  Path.is_absolute p = true →
  Path.resolve cwd [p] = "/" :: join (lit "/") (canon p).
Proof.
  intros Hp. unfold Path.resolve.
  assert (Hscan : Path.resolve_scan (rev [p] ++ [cwd]) [] = (p ++ lit "/", true)).
  { change (rev [p] ++ [cwd]) with [p; cwd].
    change (Path.resolve_scan [p; cwd] [])
      with (if bool_decide (p = []) then Path.resolve_scan [cwd] []
            else if Path.is_absolute p then (p ++ lit "/" ++ [], true)
                 else Path.resolve_scan [cwd] (p ++ lit "/" ++ [])).
    rewrite Hp. rewrite bool_decide_eq_false_2; [done|]. by intros ->. }
  rewrite Hscan. unfold Path.normalizeString, canon.
  rewrite split_on_trailing, foldl_app. cbn [foldl].
  by rewrite (push_empty false).
Qed.

Lemma resolve_in_dir cwd dir label :
  Path.is_absolute dir = true → label ≠ [] → Path.is_absolute label = false →
  Path.resolve cwd [dir; label]
  = "/" :: join (lit "/")
             (rev (foldl (Path.push_segment false) (rev (canon dir))
                     (split_on Path.is_slash label))).
Proof.
  intros Hd Hne Hl. unfold Path.resolve.
  assert (Hscan : Path.resolve_scan (rev [dir; label] ++ [cwd]) []
                  = (dir ++ lit "/" ++ label ++ lit "/", true)).
  { change (rev [dir; label] ++ [cwd]) with [label; dir; cwd].
    change (Path.resolve_scan [label; dir; cwd] [])
      with (if bool_decide (label = []) then Path.resolve_scan [dir; cwd] []
            else if Path.is_absolute label then (label ++ lit "/" ++ [], true)
                 else Path.resolve_scan [dir; cwd] (label ++ lit "/" ++ [])).
    rewrite Hl. rewrite (bool_decide_eq_false_2 (label = [])) by done.
    change (Path.resolve_scan [dir; cwd] (label ++ lit "/" ++ []))
      with (if bool_decide (dir = []) then
              Path.resolve_scan [cwd] (label ++ lit "/" ++ [])
            else if Path.is_absolute dir
                 then (dir ++ lit "/" ++ label ++ lit "/" ++ [], true)
                 else Path.resolve_scan [cwd]
                        (dir ++ lit "/" ++ label ++ lit "/" ++ [])).
    rewrite Hd. rewrite bool_decide_eq_false_2; [done|]. by intros ->. }
  rewrite Hscan. unfold Path.normalizeString, canon.
  rewrite rev_involutive.
  change (dir ++ lit "/" ++ label ++ lit "/")
    with (dir ++ "/" :: (label ++ lit "/")).
  rewrite split_on_app by done.
  rewrite split_on_trailing, !foldl_app. cbn [foldl].
  by rewrite (push_empty false).
Qed.

Lemma filter_nonempty_clean S :
  Forall clean_segment S → filter (λ seg : list ascii, seg ≠ []) S = S.
Proof.
  induction 1 as [|s S Hs _ IH]; [done|].
  rewrite filter_cons_True by apply Hs. by rewrite IH.
Qed.

Lemma segments_resolved S :
  Forall clean_segment S → Path.segments ("/" :: join (lit "/") S) = S.
Proof.
  intros HS. unfold Path.segments.
  change (split_on Path.is_slash ("/" :: join (lit "/") S))
    with ([] :: split_on Path.is_slash (join (lit "/") S)).
  rewrite filter_cons_False by (intros H; by apply H).
  destruct S as [|s S']; [done|].
  rewrite (split_on_join Path.is_slash "/") by
    (done || (eapply Forall_impl; [exact HS|]; by intros x (_ & _ & _ & Hx))).
  by apply filter_nonempty_clean.
Qed.

Lemma drop_common_spec (a b : list (list ascii)) :
  ∃ common, a = common ++ (Path.drop_common a b).1
            ∧ b = common ++ (Path.drop_common a b).2.
Proof.
  revert b. induction a as [|x a IH]; intros b; [by exists []|].
  destruct b as [|y b]; [by exists []|]. simpl.
  case_bool_decide as E; [|by exists []].
  subst y. destruct (IH b) as (common & H1 & H2).
  exists (x :: common). simpl. by rewrite <- H1, <- H2.
Qed.

Lemma fmap_const_replicate {A B} (b : B) (l : list A) :
  (λ _, b) <$> l = replicate (length l) b.
Proof. induction l as [|x l IH]; [done|]. simpl. by rewrite <- IH. Qed.

Lemma push_true_up k :
  Path.push_segment true (replicate k (lit "..")) (lit "..")
  = replicate (S k) (lit "..").
Proof.
  unfold Path.push_segment.
  rewrite (bool_decide_eq_false_2 (lit ".." = [])) by done.
  rewrite (bool_decide_eq_false_2 (lit ".." = lit ".")) by done.
  rewrite (bool_decide_eq_true_2 (lit ".." = lit "..")) by done.
  destruct k as [|k]; [done|]. cbn [replicate orb].
  by rewrite (bool_decide_eq_true_2 (lit ".." = lit "..")).
Qed.

Lemma foldl_push_true_ups n k :
  foldl (Path.push_segment true) (replicate k (lit "..")) (replicate n (lit ".."))
  = replicate (n + k) (lit "..").
Proof.
  revert k. induction n as [|n IH]; intros k; [done|].
  cbn [replicate foldl]. rewrite push_true_up, IH.
  by replace (n + S k) with (S n + k) by lia.
Qed.

Lemma rev_replicate {A} n (x : A) : rev (replicate n x) = replicate n x.
Proof.
  induction n as [|n IH]; [done|].
  rewrite replicate_S_end at 2. simpl. by rewrite IH.
Qed.

Lemma last_Forall {A} (P : A → Prop) (l : list A) d :
  l ≠ [] → Forall P l → P (List.last l d).
Proof.
  intros Hne Hl. induction Hl as [|x l Hx Hl IH]; [done|].
  destruct l as [|y l']; [done|]. apply IH. done.
Qed.

Lemma join_cons_head sep s R :
  s ≠ [] → ∃ c rest, join sep (s :: R) = c :: rest ∧ head s = Some c.
Proof.
  intros Hs. destruct s as [|c s']; [done|].
  destruct R as [|s2 R']; simpl; by eexists _, _.
Qed.

Lemma join_last_not_slash R d :
  R ≠ [] →
  Forall (λ s, s ≠ [] ∧ Forall (λ c, Path.is_slash c = false) s) R →
  Path.is_slash (List.last (join (lit "/") R) d) = false.
Proof.
  intros Hne HR. induction HR as [|s R [Hs1 Hs2] HR IH]; [done|].
  destruct R as [|s2 R'].
  - simpl. by apply (last_Forall (λ c, Path.is_slash c = false)).
  - change (join (lit "/") (s :: s2 :: R'))
      with (s ++ "/" :: join (lit "/") (s2 :: R')).
    apply Forall_cons in HR as HR'. destruct HR' as [[Hs2ne _] _].
    destruct (join_cons_head (lit "/") s2 R' Hs2ne) as (c & rest & E & _).
    rewrite List_last_app by done.
    change (List.last ("/" :: join (lit "/") (s2 :: R')) d)
      with (match join (lit "/") (s2 :: R') with
            | [] => "/"
            | _ :: _ => List.last (join (lit "/") (s2 :: R')) d
            end).
    rewrite E at 1. by apply IH.
Qed.

Lemma normalize_rel n down :
  Forall clean_segment down → replicate n (lit "..") ++ down ≠ [] →
  Path.normalize (join (lit "/") (replicate n (lit "..") ++ down))
  = join (lit "/") (replicate n (lit "..") ++ down).
Proof.
  intros Hdown Hne. set (R := replicate n (lit "..") ++ down) in *.
  assert (HR : Forall (λ s, s ≠ [] ∧ Forall (λ c, Path.is_slash c = false) s) R).
  { apply Forall_app. split.
    - apply Forall_replicate. split; [done|]. by repeat constructor.
    - eapply Forall_impl; [exact Hdown|]. by intros x (? & _ & _ & ?). }
  assert (Hsplit : split_on Path.is_slash (join (lit "/") R) = R).
  { apply (split_on_join Path.is_slash "/"); [done|done|].
    eapply Forall_impl; [exact HR|]. by intros x [_ ?]. }
  assert (Hnorm : Path.normalizeString (join (lit "/") R) true = join (lit "/") R).
  { unfold Path.normalizeString. rewrite Hsplit. unfold R.
    rewrite foldl_app.
    pose proof (foldl_push_true_ups n 0) as Hups.
    rewrite Nat.add_0_r in Hups. cbn [replicate] in Hups. rewrite Hups.
    rewrite foldl_push_clean by done.
    by rewrite rev_app_distr, rev_involutive, rev_replicate. }
  destruct R as [|s R'] eqn:ER; [done|].
  apply Forall_cons in HR as HR'. destruct HR' as [[Hs1 Hs2] _].
  destruct (join_cons_head (lit "/") s R' Hs1) as (c & rest & E & Hc).
  assert (Hcs : Path.is_slash c = false).
  { destruct s as [|c' s']; [done|]. injection Hc as ->.
    by apply Forall_cons in Hs2 as [? _]. }
  pose proof (join_last_not_slash (s :: R') "a" ltac:(done) HR) as Hlast.
  clear Hsplit. revert Hnorm Hlast. rewrite E. intros Hnorm Hlast.
  assert (Habs : Path.is_absolute (c :: rest) = false) by exact Hcs.
  unfold Path.normalize. rewrite Habs. cbn [negb]. by rewrite Hnorm, Hlast.
Qed.

Lemma dirname_absolute p :
  Path.is_absolute p = true → Path.is_absolute (Path.dirname p) = true.
Proof.
  destruct p as [|c0 t]; [done|]. intros H.
  change (Path.is_slash c0 = true) in H.
  unfold Path.dirname. rewrite H.
  destruct (drop_while Path.not_slash (drop_while Path.is_slash (rev t)))
    as [|x r3]; [done|].
  cbn [andb]. by case_bool_decide.
Qed.

Lemma canon_resolved S :
  Forall clean_segment S → canon ("/" :: join (lit "/") S) = S.
Proof.
  intros HS. unfold canon.
  change (split_on Path.is_slash ("/" :: join (lit "/") S))
    with ([] :: split_on Path.is_slash (join (lit "/") S)).
  cbn [foldl]. rewrite (push_empty false).
  destruct S as [|s S'].
  - change (split_on Path.is_slash (join (lit "/") [])) with [@nil ascii].
    cbn [foldl]. by rewrite (push_empty false).
  - rewrite (split_on_join Path.is_slash "/") by
      (done || (eapply Forall_impl; [exact HS|]; by intros x (_ & _ & _ & Hx))).
    rewrite foldl_push_clean by done.
    by rewrite app_nil_r, rev_involutive.
Qed.

Lemma resolve_resolved cwd p :
  Path.is_absolute p = true →
  Path.resolve cwd [Path.resolve cwd [p]] = Path.resolve cwd [p].
Proof.
  intros Hp. rewrite (resolve_abs cwd p Hp).
  rewrite resolve_abs by done.
  by rewrite canon_resolved by apply canon_clean.
Qed.

Lemma relative_resolves_back cwd fromDir to :
  Path.is_absolute fromDir = true → Path.is_absolute to = true →
  Path.resolve cwd [fromDir; Path.normalize (Path.relative cwd fromDir to)]
  = Path.resolve cwd [to].
Proof.
  intros Hf Ht. rewrite (resolve_abs cwd to Ht).
  pose proof (canon_clean fromDir) as Cf. pose proof (canon_clean to) as Ct.
  assert (Hdot : canon fromDir = canon to →
            Path.resolve cwd [fromDir; lit "."]
            = "/" :: join (lit "/") (canon to)).
  { intros E. rewrite resolve_in_dir by done.
    change (split_on Path.is_slash (lit ".")) with [lit "."].
    cbn [foldl]. by rewrite push_dot, rev_involutive, E. }
  unfold Path.relative.
  case_bool_decide as E1.
  { subst to. change (Path.normalize []) with (lit "."). by apply Hdot. }
  rewrite !resolve_abs by done.
  case_bool_decide as E2.
  { change (Path.normalize []) with (lit "."). apply Hdot.
    apply (f_equal Path.segments) in E2.
    by rewrite !segments_resolved in E2. }
  rewrite !segments_resolved by done.
  destruct (drop_common_spec (canon fromDir) (canon to))
    as (common & Hup & Hdown).
  destruct (Path.drop_common (canon fromDir) (canon to)) as [up down].
  simpl in Hup, Hdown. rewrite fmap_const_replicate.
  rewrite Hup in Cf. rewrite Hdown in Ct.
  apply Forall_app in Cf as [Cc Cup]. apply Forall_app in Ct as [_ Cdown].
  assert (Hne : replicate (length up) (lit "..") ++ down ≠ []).
  { intros Hnil. apply app_eq_nil in Hnil as [Hu ->].
    destruct up; [|done]. apply E2. by rewrite Hup, Hdown. }
  rewrite normalize_rel by done.
  set (R := replicate (length up) (lit "..") ++ down) in *.
  assert (HR : Forall (λ s, s ≠ [] ∧ Forall (λ c, Path.is_slash c = false) s) R).
  { apply Forall_app. split.
    - apply Forall_replicate. split; [done|]. by repeat constructor.
    - eapply Forall_impl; [exact Cdown|]. by intros x (? & _ & _ & ?). }
  assert (Hsplit : split_on Path.is_slash (join (lit "/") R) = R).
  { apply (split_on_join Path.is_slash "/"); [done|done|].
    eapply Forall_impl; [exact HR|]. by intros x [_ ?]. }
  assert (Hlabel : join (lit "/") R ≠ []
                   ∧ Path.is_absolute (join (lit "/") R) = false).
  { destruct R as [|s R']; [done|].
    apply Forall_cons in HR as [[Hs1 Hs2] _].
    destruct (join_cons_head (lit "/") s R' Hs1) as (c & rest & E & Hc).
    rewrite E. split; [done|]. simpl.
    destruct s as [|c' s']; [done|]. injection Hc as ->.
    by apply Forall_cons in Hs2 as [? _]. }
  destruct Hlabel as [Hl1 Hl2].
  rewrite resolve_in_dir by done.
  rewrite Hsplit, Hup. unfold R.
  rewrite rev_app_distr, foldl_app, foldl_push_ups by done.
  rewrite foldl_push_clean by done.
  by rewrite rev_app_distr, !rev_involutive, Hdown.
Qed.

Lemma provideDefinition_at_path cfg env document
    (ref : MarkdownDefinitionProvider.Ref) (w : World) :
  NoteWorkspace.useUniqueFilenames cfg = false →
  MarkdownDefinitionProvider.type ref = MarkdownDefinitionProvider.WikiLink →
  let absPath :=
    MarkdownDefinitionProvider.absPathOf env document
      (MarkdownDefinitionProvider.word ref) in
  is_Some (fs w !! fs_key env absPath) →
  MarkdownDefinitionProvider.provideDefinition cfg env document ref w
  = ([at_top (Uri_file absPath)],
     mkWorld (fs w) (trace w ++ [EvExistsSync absPath])).
Proof.
  intros Hu Ht absPath [d Hd].
  unfold MarkdownDefinitionProvider.provideDefinition. rewrite Ht.
  rewrite bool_decide_eq_true_2 by done. change (negb true) with false.
  unfold mbind, M_bind, mret, M_ret. cbv beta iota.
  rewrite uniqueNameStep_run, Hu. fold absPath.
  rewrite (bool_decide_eq_true_2 (length [] = 0)) by done. cbv beta iota.
  unfold existsSync. cbn [fs trace]. rewrite Hd.
  rewrite (bool_decide_eq_true_2 (is_Some _)) by by eexists.
  cbv beta iota. cbn [app length].
  by rewrite bool_decide_eq_false_2 by done.
Qed.

(** X25.  Completion and definition fit together under relative paths.  The
    label offered for a file is its path relative to the directory of the
    document, the same in both versions; resolved against that directory it
    leads back to the file.  So a link made of the label resolves to the file
    when the file exists, with one look at the file system and nothing
    written. *)
Theorem relative_label_resolves_back settings cfg env (target : Uri)
    (fromDocument : TextDocument) :
  Path.is_absolute (path (uri fromDocument)) = true →
  Path.is_absolute (path target) = true →
  Extension.useUniqueFilenames settings = false →
  NoteWorkspace.useUniqueFilenames cfg = false →
  let label := Extension.filenameForConvention settings env target fromDocument in
  let fromDir := Path.dirname (path (uri fromDocument)) in
  let found := Path.resolve (cwd env) [path target] in
  NoteWorkspace.wikiLinkCompletionForConvention cfg env target fromDocument = label
  ∧ Path.resolve (cwd env) [fromDir; label] = found
  ∧ ∀ (ref : MarkdownDefinitionProvider.Ref) (w : World),
      MarkdownDefinitionProvider.type ref = MarkdownDefinitionProvider.WikiLink →
      MarkdownDefinitionProvider.word ref = label →
      is_Some (fs w !! fs_key env (path target)) →
      MarkdownDefinitionProvider.provideDefinition cfg env fromDocument ref w
      = ([at_top (Uri_file found)],
         mkWorld (fs w) (trace w ++ [EvExistsSync found])).
Proof.
  intros Hdoc Ht Hu1 Hu2 label fromDir found.
  assert (Hback : Path.resolve (cwd env) [fromDir; label] = found).
  { unfold label, Extension.filenameForConvention. rewrite Hu1.
    apply relative_resolves_back; [by apply dirname_absolute|done]. }
  split; [|split; [done|]].
  - unfold NoteWorkspace.wikiLinkCompletionForConvention, label,
      Extension.filenameForConvention. by rewrite Hu1, Hu2.
  - intros ref w Hty Hw Hex.
    pose proof (provideDefinition_at_path cfg env fromDocument ref w Hu2 Hty)
      as Hrun.
    unfold MarkdownDefinitionProvider.absPathOf, fsPath in Hrun.
    rewrite Hw in Hrun. fold fromDir in Hrun. rewrite Hback in Hrun.
    apply Hrun. unfold fs_key, found.
    by rewrite resolve_resolved.
Qed.

Lemma relative_label_resolves_back_witness :
  Extension.filenameForConvention Scenario.relative_settings Scenario.env
    (Uri_file (lit "/notes/My Notes/other.md")) Scenario.document
  = lit "My Notes/other.md"
  ∧ Path.resolve (lit "/") [lit "/notes"; lit "My Notes/other.md"]
    = lit "/notes/My Notes/other.md".
Proof.
  split; [vm_compute; reflexivity|].
  exact (proj1 (proj2 (relative_label_resolves_back Scenario.relative_settings
    Scenario.relative_cfg Scenario.env (Uri_file (lit "/notes/My Notes/other.md"))
    Scenario.document eq_refl eq_refl eq_refl eq_refl))).
Defined.
End RelativePaths.

(* ===================================================================== *)
(** * The two versions of the new-note command *)
(* ===================================================================== *)

Section Versions.
Import JS.

Lemma replace_runs_go_Forall (P : ascii → Prop) (p : ascii → bool) sep b l :
  Forall P sep → Forall P l → Forall P (replace_runs_go p sep b l).
Proof.
  intros Hs Hl. revert b. induction Hl as [|c l Hc _ IH]; intros b; simpl;
    [constructor|].
  destruct (p c); [|by constructor].
  destruct b; [done|]. apply Forall_app. by split.
Qed.

Lemma toLowerCase1_underscore c : c ≠ "_" → toLowerCase1 c ≠ "_".
Proof. destruct c as [[] [] [] [] [] [] [] []]; vm_compute; congruence. Qed.

Lemma strip_trailing_ext (p q : ascii → bool) l :
  Forall (λ c, p c = q c) l → strip_trailing p l = strip_trailing q l.
Proof.
  induction 1 as [|c l Hc _ IH]; [done|]. simpl. by rewrite IH, Hc.
Qed.

Lemma dash_underscore_dash c :
  c ≠ "_" → NoteWorkspace.is_dash_underscore c = Extension.is_dash c.
Proof.
  intros Hc. unfold NoteWorkspace.is_dash_underscore, Extension.is_dash.
  destruct (ascii_eqb c "_") eqn:E; [|apply orb_false_r].
  by apply ascii_eqb_eq in E.
Qed.

Lemma noteFileNameFromTitle_single cfg noteName :
  NoteWorkspace.slugifyCharacter cfg = NoteWorkspace.dash →
  NoteWorkspace.defaultFileExtension cfg = lit "md" →
  Forall (λ c, c ≠ "_") noteName →
  NoteWorkspace.noteFileNameFromTitle cfg noteName
  = strip_trailing Extension.is_dash
      (toLowerCase (replace_runs is_nonword (lit "-") noteName))
    ++ lit ".md".
Proof.
  intros Hd He Hn. unfold NoteWorkspace.noteFileNameFromTitle.
  unfold NoteWorkspace.slugifyChar at 1. rewrite Hd.
  rewrite (str_eqb_false _ NoteWorkspace.SLUGIFY_NONE) by done.
  rewrite (match_ext_end_no_dot _ _ (slug_no_dot cfg noteName)), He.
  f_equal. unfold NoteWorkspace.slugifyTitle, NoteWorkspace.slugifyChar.
  rewrite Hd. apply strip_trailing_ext.
  unfold toLowerCase. apply Forall_fmap.
  eapply Forall_impl.
  - apply (replace_runs_go_Forall (λ c, c ≠ "_")); [|exact Hn].
    by repeat constructor.
  - intros c Hc. simpl. by apply dash_underscore_dash, toLowerCase1_underscore.
Qed.

(** X26.  The two versions of the new-note command do the same.  With the dash
    as separator and [md] as extension, as the defaults have it, the command
    of the split sources behaves on every input like the one of the single
    file, as long as the title has no underscore: same file, same content,
    same calls to the host. *)
Theorem newNote_versions_agree cfg env (input : Extension.InputBox) (w : World) :
  NoteWorkspace.slugifyCharacter cfg = NoteWorkspace.dash →
  NoteWorkspace.defaultFileExtension cfg = lit "md" →
  match input with
  | Extension.InputResolved (Some noteName) => Forall (λ c, c ≠ "_") noteName
  | _ => True
  end →
  NoteWorkspace.newNote cfg env input w = Extension.newNote env input w.
Proof.
  intros Hd He Hn. destruct input as [[noteName|]|]; [|done|done].
  unfold NoteWorkspace.newNote, Extension.newNote.
  by rewrite noteFileNameFromTitle_single.
Qed.

Lemma newNote_versions_agree_witness :
  NoteWorkspace.newNote NoteWorkspace.DEFAULT_CONFIG Scenario.env
    (Extension.InputResolved (Some (lit "Reading List"))) Scenario.world
  = Extension.newNote Scenario.env
      (Extension.InputResolved (Some (lit "Reading List"))) Scenario.world.
Proof.
  apply (newNote_versions_agree NoteWorkspace.DEFAULT_CONFIG Scenario.env
           (Extension.InputResolved (Some (lit "Reading List")))).
  - reflexivity.
  - reflexivity.
  - vm_compute. repeat constructor; discriminate.
Defined.
End Versions.
